(** * kepctl release commands: release layout, proposal receipts, manifest

    A shallow embedding of [pkg/kepctl] release handling ([InitRelease],
    [proposeKEP], [GenerateRelease]) over an explicit file-system state,
    together with the properties of the release-state aggregation subsystem.

    Conventions.
    - File contents and names are [string]s (sequences of bytes).
    - The file system is a tree of [node]s; a path is the list of its
      elements below the root.
    - An operation of the client is a function of the [world] (disk, the
      client's output stream, and the writes the environment refuses) that
      returns a Go-style result together with the new world.
    - The YAML text layer ([sigs.k8s.io/yaml]) and the repository lookup
      ([findEnhancementsRepo]) are collaborators outside the package source;
      they are interfaces here ([YamlText], [RepoFinder]).
    - The [Validate] methods of the options and the two commands of
      [kepctl generate] that run them are embedded as well; the version
      parser and [validateAndPopulateKEP] are interfaces too
      ([semver.Parser], [KEPArgs]). *)

From Stdlib Require Import Ascii String.
From stdpp Require Import gmap strings list sorting.

(** ** Results *)

Inductive result (E A : Type) : Type :=
| Ok (a : A)
| Err (e : E).
Arguments Ok {E A} a.
Arguments Err {E A} e.

Definition is_ok {E A} (r : result E A) : bool :=
  match r with Ok _ => true | Err _ => false end.

(** ** Go's [strings] and [fmt] helpers used by the package *)

Module strings.

(** [strings.HasSuffix(s, suffix)] *)
Definition HasSuffix (s suffix : string) : bool :=
  let n := String.length s in
  let k := String.length suffix in
  (k <=? n)%nat && String.eqb (substring (n - k) k s) suffix.

(** [strings.Split(s, sep)] for a one-byte separator [sep]; the result is
    never empty. *)
Fixpoint Split (s : string) (sep : ascii) : list string :=
  match s with
  | EmptyString => [""]
  | String a s' =>
      if Ascii.eqb a sep then "" :: Split s' sep
      else match Split s' sep with
           | x :: xs => String a x :: xs
           | [] => [String a ""]
           end
  end.

(** [strings.TrimSuffix(s, suffix)] *)
Definition TrimSuffix (s suffix : string) : string :=
  if HasSuffix s suffix
  then substring 0 (String.length s - String.length suffix) s
  else s.

(** [strings.Contains(s, string(c))] for one byte [c]. *)
Fixpoint ContainsByte (s : string) (c : ascii) : bool :=
  match s with
  | EmptyString => false
  | String a s' => Ascii.eqb a c || ContainsByte s' c
  end.

End strings.

(** [sort.Strings]: ascending, byte-wise lexicographic. *)
Definition sort_Strings (l : list string) : list string :=
  merge_sort String.le l.

(** ** Paths *)

Abbreviation path := (list string).

Module filepath.

(** One element appended to a cleaned path: empty and [.] elements vanish,
    [..] removes the last element (and stays at the root). *)
Definition push (p : path) (c : string) : path :=
  if decide (c = "" ∨ c = ".") then p
  else if decide (c = "..") then removelast p
  else p ++ [c].

(** [filepath.Join(base, elems...)] for an already resolved [base]: the
    elements are cut at the separator and the result is cleaned. *)
Definition Join (base : path) (elems : list string) : path :=
  foldl push base (elems ≫= λ e, strings.Split e "/"%char).

(** The path as text, for messages. *)
Definition render (p : path) : string :=
  "/" +:+ String.concat "/" p.

End filepath.

(** ** The file system *)

Inductive errno := ENOENT | EEXIST | ENOTDIR | EISDIR | EIO.

#[warnings="-register-all"]
Inductive node :=
| File (data : string)
| Dir (entries : gmap string node).

Definition entries_of (o : option node) : gmap string node :=
  match o with Some (Dir es) => es | _ => ∅ end.

(** The node a path leads to. *)
Fixpoint resolve (p : path) (n : node) : result errno node :=
  match p with
  | [] => Ok n
  | c :: rest =>
      match n with
      | File _ => Err ENOTDIR
      | Dir es =>
          match es !! c with
          | None => Err ENOENT
          | Some child => resolve rest child
          end
      end
  end.

(** Replace what is at [p] by [f] of what is there; every directory on the
    way must exist. *)
Fixpoint modify (f : option node → result errno node) (p : path)
    (o : option node) : result errno node :=
  match p with
  | [] => f o
  | c :: rest =>
      match o with
      | None => Err ENOENT
      | Some (File _) => Err ENOTDIR
      | Some (Dir es) =>
          match modify f rest (es !! c) with
          | Ok child => Ok (Dir (<[c:=child]> es))
          | Err e => Err e
          end
      end
  end.

Definition mkdir_at (o : option node) : result errno node :=
  match o with
  | None => Ok (Dir ∅)
  | Some _ => Err EEXIST
  end.

Definition write_at (data : string) (o : option node) : result errno node :=
  match o with
  | Some (Dir _) => Err EISDIR
  | _ => Ok (File data)
  end.

(** [os.MkdirAll]: directories that exist are kept, missing ones are made,
    a file on the way is an error. *)
Fixpoint mkdir_all (p : path) (o : option node) : result errno node :=
  match o with
  | Some (File _) => Err ENOTDIR
  | _ =>
      match p with
      | [] => Ok (Dir (entries_of o))
      | c :: rest =>
          match mkdir_all rest (entries_of o !! c) with
          | Ok child => Ok (Dir (<[c:=child]> (entries_of o)))
          | Err e => Err e
          end
      end
  end.

(** [ioutil.ReadDir] returns the entries sorted by file name; the package
    reads only their names. *)
Definition read_dir (p : path) (n : node) : result errno (list string) :=
  match resolve p n with
  | Ok (Dir es) => Ok (sort_Strings (map_to_list es).*1)
  | Ok (File _) => Err ENOTDIR
  | Err e => Err e
  end.

Definition read_file (p : path) (n : node) : result errno string :=
  match resolve p n with
  | Ok (File data) => Ok data
  | Ok (Dir _) => Err EISDIR
  | Err e => Err e
  end.

(** ** The world an operation runs in *)

Record world := World {
  disk : node;
  (** what the client has written to [c.Out] *)
  out : list string;
  (** the paths at which the environment refuses to create or truncate a
      file (permissions, quota, a full disk) *)
  refused : path → bool;
}.

Definition with_disk (w : world) (d : node) : world :=
  {| disk := d; out := out w; refused := refused w |}.

Definition with_out (w : world) (o : list string) : world :=
  {| disk := disk w; out := o; refused := refused w |}.

(** ** Go errors *)

Inductive cause :=
| Sys (e : errno)          (* a failed system call *)
| YamlSyntax               (* the text is not well-formed YAML *)
| JsonType (key : string)  (* a value that does not fit the Go field *)
| Repo (detail : string).  (* the enhancements repository was not found *)

(** [fmt.Errorf("<message>: %s", err)] *)
Record error := Errorf { message : string; because : cause }.

(** A computation of the client: it may fail, and it may change the world. *)
Definition M (A : Type) : Type := world → result error A * world.

Definition ret {A} (a : A) : M A := λ w, (Ok a, w).

Definition bind {A B} (m : M A) (k : A → M B) : M B :=
  λ w, match m w with
       | (Ok a, w') => k a w'
       | (Err e, w') => (Err e, w')
       end.

(** [return fmt.Errorf(...)] *)
Definition fail {A} (e : error) : M A := λ w, (Err e, w).

#[export] Instance M_ret : MRet M := @ret.
#[export] Instance M_bind : MBind M := λ A B k m, bind m k.

(** A system call whose error is returned to the caller as [err]. *)
Definition syscall A := world → result errno A * world.

(** [x, err := call; if err != nil { return fmt.Errorf(msg, err) }] *)
Definition try {A} (call : syscall A) (msg : string) : M A :=
  λ w, match call w with
       | (Ok a, w') => (Ok a, w')
       | (Err e, w') => (Err (Errorf msg (Sys e)), w')
       end.

(** [_, err := call] with [err] kept in a variable. *)
Definition capture {A} (call : syscall A) : M (option errno) :=
  λ w, match call w with
       | (Ok _, w') => (Ok None, w')
       | (Err e, w') => (Ok (Some e), w')
       end.

(** A call whose result is dropped: [call] as a statement. *)
Definition discard {A} (call : syscall A) : M unit :=
  λ w, (Ok tt, (call w).2).

Module os.

Definition Stat (p : path) : syscall unit :=
  λ w, (match resolve p (disk w) with Ok _ => Ok tt | Err e => Err e end, w).

(** [os.IsNotExist(err)]: only a missing entry counts, a file in the way
    does not. *)
Definition IsNotExist (err : option errno) : bool :=
  match err with Some ENOENT => true | _ => false end.

Definition Mkdir (p : path) : syscall unit :=
  λ w, match modify mkdir_at p (Some (disk w)) with
       | Ok d => (Ok tt, with_disk w d)
       | Err e => (Err e, w)
       end.

Definition MkdirAll (p : path) : syscall unit :=
  λ w, match mkdir_all p (Some (disk w)) with
       | Ok d => (Ok tt, with_disk w d)
       | Err e => (Err e, w)
       end.

End os.

Module ioutil.

Definition WriteFile (p : path) (data : string) : syscall unit :=
  λ w, if refused w p then (Err EIO, w)
       else match modify (write_at data) p (Some (disk w)) with
            | Ok d => (Ok tt, with_disk w d)
            | Err e => (Err e, w)
            end.

Definition ReadFile (p : path) : syscall string :=
  λ w, (read_file p (disk w), w).

Definition ReadDir (p : path) : syscall (list string) :=
  λ w, (read_dir p (disk w), w).

End ioutil.

(** [fmt.Fprintf(c.Out, ...)] *)
Definition Fprintf (line : string) : M unit :=
  λ w, (Ok tt, with_out w (out w ++ [line])).

Definition nl : string := String "010"%char "".

(** ** JSON values, as [encoding/json] produces and consumes them *)

#[warnings="-register-all"]
Inductive json :=
| JNull
| JString (s : string)
| JArray (items : list json)
| JObject (fields : list (string * json)).

(** [encoding/json] matches the keys of a document against the tags of a
    struct with [bytes.EqualFold]: upper-case ASCII letters count as their
    lower-case ones, and so do the two other characters that fold to an
    ASCII letter, the Kelvin sign (bytes 226 132 170, folds to [k]) and the
    long s (bytes 197 191, folds to [s]). [foldName] is the key every
    matching key folds to. *)
Definition fold_byte (a : ascii) : ascii :=
  let n := nat_of_ascii a in
  if (65 <=? n)%nat && (n <=? 90)%nat then ascii_of_nat (n + 32) else a.

Fixpoint foldName (s : string) : string :=
  match s with
  | EmptyString => EmptyString
  | String a rest =>
      match a, rest with
      | "226"%char, String "132" (String "170" rest') => String "k" (foldName rest')
      | "197"%char, String "191" rest' => String "s" (foldName rest')
      | _, _ => String (fold_byte a) (foldName rest)
      end
  end.

(** A field tagged [omitempty] is left out when it is empty. *)
Definition omitempty_string (key s : string) : list (string * json) :=
  if decide (s = "") then [] else [(key, JString s)].

Definition omitempty_strings (key : string) (l : list string) :
    list (string * json) :=
  match l with
  | [] => []
  | _ => [(key, JArray (JString <$> l))]
  end.

(** A key as the struct tags of the package have them: lower-case letters
    and dashes. *)
Definition tag_byte (a : ascii) : bool :=
  let n := nat_of_ascii a in
  ((97 <=? n)%nat && (n <=? 122)%nat) || (n =? 45)%nat.

Definition tag_like (k : string) : bool :=
  negb (String.eqb k "") && forallb tag_byte (list_ascii_of_string k).

(** A member that binds a tag to text. *)
Definition text_member (text : string → Prop) (kv : string * json) : Prop :=
  tag_like kv.1 = true ∧ ∃ s, kv.2 = JString s ∧ text s.

(** The YAML text layer of [sigs.k8s.io/yaml]: [Marshal] is [json.Marshal]
    followed by [JSONToYAML], [Unmarshal] is [YAMLToJSON] followed by
    [json.Unmarshal]. The library is not part of the package; its contract
    is that an object of text members survives being written and read, in
    some order of its keys. [representable] is the text the layer carries
    unchanged (the library replaces bytes that are not UTF-8). *)
Class YamlText := {
  representable : string → Prop;
  JSONToYAML : json → string;
  YAMLToJSON : string → option json;
  YAMLToJSON_JSONToYAML (fields : list (string * json)) :
    NoDup fields.*1 →
    Forall (text_member representable) fields →
    ∃ fields',
      YAMLToJSON (JSONToYAML (JObject fields)) = Some (JObject fields') ∧
      fields' ≡ₚ fields;
}.

(** ** The package's types *)

(** [CommonArgs] is declared in another file of the package; these are the
    fields the release commands read. *)
Module CommonArgs.
Record t := Build {
  RepoPath : string;
  KEP : string;
  Number : string;
  SIG : string;
  Name : string;
}.
End CommonArgs.
Abbreviation CommonArgs := CommonArgs.t.

(** [Client.findEnhancementsRepo], declared in another file of the package:
    the root of the enhancements tree, or why there is none. *)
Class RepoFinder := {
  findEnhancementsRepo : CommonArgs → result string path;
}.

Module InitReleaseOpts.
Record t := Build {
  CommonArgs : CommonArgs.t;
  EnhancementTeam : list string;
  ReleaseLeads : list string;
  ReleaseSemver : string;
}.
End InitReleaseOpts.
Abbreviation InitReleaseOpts := InitReleaseOpts.t.

Module ownersFile.
Record t := Build {
  Approvers : list string;  (* `json:"approvers,omitempty"` *)
  Reviewers : list string;  (* `json:"reviewers,omitempty"` *)
}.

Definition to_json (o : t) : json :=
  JObject (omitempty_strings "approvers" (Approvers o) ++
           omitempty_strings "reviewers" (Reviewers o)).
End ownersFile.
Abbreviation ownersFile := ownersFile.t.

Module ReleaseOpts.
Record t := Build {
  CommonArgs : CommonArgs.t;
  Release : string;
  Stage : string;
  Link : string;
}.
End ReleaseOpts.
Abbreviation ReleaseOpts := ReleaseOpts.t.

Module releaseContent.
Record t := Build {
  Number : string;  (* `json:"kep,omitempty"` *)
  Link : string;    (* `json:"link"` *)
  SIG : string;     (* `json:"sig"` *)
  Stage : string;   (* `json:"stage"` *)
  Issue : string;   (* `json:"issue"` *)
}.

(** [var content releaseContent] *)
Definition zero : t := Build "" "" "" "" "".

Inductive field := FNumber | FLink | FSIG | FStage | FIssue.

#[global] Instance field_eq_dec : EqDecision field.
Proof. solve_decision. Defined.

Definition key (f : field) : string :=
  match f with
  | FNumber => "kep" | FLink => "link" | FSIG => "sig"
  | FStage => "stage" | FIssue => "issue"
  end.

Definition get (f : field) (r : t) : string :=
  match f with
  | FNumber => Number r | FLink => Link r | FSIG => SIG r
  | FStage => Stage r | FIssue => Issue r
  end.

Definition set (f : field) (v : string) (r : t) : t :=
  match f with
  | FNumber => Build v (Link r) (SIG r) (Stage r) (Issue r)
  | FLink => Build (Number r) v (SIG r) (Stage r) (Issue r)
  | FSIG => Build (Number r) (Link r) v (Stage r) (Issue r)
  | FStage => Build (Number r) (Link r) (SIG r) v (Issue r)
  | FIssue => Build (Number r) (Link r) (SIG r) (Stage r) v
  end.

(** The field a key of the document names: the one whose tag it equals, or
    equals up to the case of its letters. *)
Definition field_of_key (k : string) : option field :=
  let k := foldName k in
  if decide (k = "kep") then Some FNumber
  else if decide (k = "link") then Some FLink
  else if decide (k = "sig") then Some FSIG
  else if decide (k = "stage") then Some FStage
  else if decide (k = "issue") then Some FIssue
  else None.

(** [json.Marshal]: the fields in the order of the struct. *)
Definition to_json (r : t) : json :=
  JObject (omitempty_string "kep" (Number r) ++
           [("link", JString (Link r)); ("sig", JString (SIG r));
            ("stage", JString (Stage r)); ("issue", JString (Issue r))]).

(** [json.Unmarshal] into an existing struct, member by member: a key that
    names a field sets it, [null] and unknown keys change nothing, a field
    no key names keeps the value it had; any other value for a string field
    is an error. *)
Fixpoint decode_fields (fields : list (string * json)) (c : t) :
    result cause t :=
  match fields with
  | [] => Ok c
  | (k, v) :: rest =>
      match field_of_key k with
      | None => decode_fields rest c
      | Some f =>
          match v with
          | JString s => decode_fields rest (set f s c)
          | JNull => decode_fields rest c
          | _ => Err (JsonType k)
          end
      end
  end.

Definition from_json (j : json) (c : t) : result cause t :=
  match j with
  | JNull => Ok c
  | JObject fields => decode_fields fields c
  | _ => Err (JsonType "")
  end.
End releaseContent.
Abbreviation releaseContent := releaseContent.t.

Module releaseManifest.
(** A slice is [None] while it is [nil]. *)
Record t := Build {
  Proposed : option (list releaseContent);  (* `json:"proposed"` *)
  Accepted : option (list releaseContent);  (* `json:"accepted"` *)
  AtRisk : option (list releaseContent);    (* `json:"at-risk"` *)
  Removed : option (list releaseContent);   (* `json:"removed"` *)
}.

(** [&releaseManifest{}] *)
Definition zero : t := Build None None None None.

(** [manifest.Accepted = acceptedKeps], and the like. *)
Definition set_Accepted (keps : list releaseContent) (m : t) : t :=
  Build (Proposed m) (Some keps) (AtRisk m) (Removed m).

Definition set_AtRisk (keps : list releaseContent) (m : t) : t :=
  Build (Proposed m) (Accepted m) (Some keps) (Removed m).

Definition set_Removed (keps : list releaseContent) (m : t) : t :=
  Build (Proposed m) (Accepted m) (AtRisk m) (Some keps).

(** [json.Marshal] writes a nil slice as [null], any other as an array. *)
Definition slice_json (s : option (list releaseContent)) : json :=
  match s with
  | None => JNull
  | Some l => JArray (releaseContent.to_json <$> l)
  end.

Definition to_json (m : t) : json :=
  JObject [("proposed", slice_json (Proposed m));
           ("accepted", slice_json (Accepted m));
           ("at-risk", slice_json (AtRisk m));
           ("removed", slice_json (Removed m))].
End releaseManifest.
Abbreviation releaseManifest := releaseManifest.t.

Module ReleaseManifestOpts.
Record t := Build {
  CommonArgs : CommonArgs.t;
  ReleaseVersion : string;
}.
End ReleaseManifestOpts.
Abbreviation ReleaseManifestOpts := ReleaseManifestOpts.t.

Module yaml.
Section yaml.
Context `{YamlText}.

(** [yaml.Marshal]; it has no error for the package's structs. *)
Definition Marshal_ownersFile (o : ownersFile) : string :=
  JSONToYAML (ownersFile.to_json o).

Definition Marshal_releaseContent (r : releaseContent) : string :=
  JSONToYAML (releaseContent.to_json r).

Definition Marshal_releaseManifest (m : releaseManifest) : string :=
  JSONToYAML (releaseManifest.to_json m).

(** [yaml.Unmarshal(b, &content)] *)
Definition Unmarshal (b : string) (content : releaseContent) :
    result cause releaseContent :=
  match YAMLToJSON b with
  | None => Err YamlSyntax
  | Some j => releaseContent.from_json j content
  end.
End yaml.
End yaml.

(** ** The release commands *)

Section kepctl.
Context `{YamlText, RepoFinder}.

(** [func (o *ownersFile) save(path string) error] *)
Definition save (o : ownersFile) (p : path) : syscall unit :=
  let b := yaml.Marshal_ownersFile o in
  ioutil.WriteFile p b.

(** The approvers of a release: the two loops that append to [approvers],
    then [sort.Strings]. *)
Definition approvers_of (team leads : list string) : list string :=
  let approvers : list string := [] in
  let approvers :=
    foldl (λ approvers person, approvers ++ [person +:+ " // Enhancement Team"])
      approvers team in
  let approvers :=
    foldl (λ approvers person, approvers ++ [person +:+ " // Release Lead"])
      approvers leads in
  sort_Strings approvers.

(** The ownership record built by [InitRelease]. *)
Definition owners_of (opts : InitReleaseOpts) : ownersFile :=
  {| ownersFile.Reviewers := ["release-team"];
     ownersFile.Approvers :=
       approvers_of (InitReleaseOpts.EnhancementTeam opts)
         (InitReleaseOpts.ReleaseLeads opts) |}.

(** [func (c *Client) InitRelease(opts *InitReleaseOpts) error] *)
Definition InitRelease (opts : InitReleaseOpts) : M unit :=
  match findEnhancementsRepo (InitReleaseOpts.CommonArgs opts) with
  | Err e =>
      fail (Errorf "unable to initalize release: unable to find enhancements repo"
              (Repo e))
  | Ok repoPath =>
      let releasePath :=
        filepath.Join repoPath ["releases"; InitReleaseOpts.ReleaseSemver opts] in
      try (os.MkdirAll releasePath) "unable to create release directory";;
      let owners := owners_of opts in
      (* |- accepted *)
      let acceptedPath := filepath.Join releasePath ["accepted"] in
      Fprintf ("===> creating " +:+ InitReleaseOpts.ReleaseSemver opts +:+
               " accepted directory: " +:+ filepath.render acceptedPath +:+ nl);;
      try (os.Mkdir acceptedPath) "unable to create accepted directory";;
      discard (save owners (filepath.Join acceptedPath ["OWNERS"]));;
      (* |- exceptions *)
      let exceptionPath := filepath.Join releasePath ["exception"] in
      Fprintf ("===> creating " +:+ InitReleaseOpts.ReleaseSemver opts +:+
               " exception directory: " +:+ filepath.render exceptionPath +:+ nl);;
      try (os.Mkdir exceptionPath) "unable to create exception directory";;
      discard (save owners (filepath.Join exceptionPath ["OWNERS"]));;
      (* |- proposed *)
      let proposedPath := filepath.Join releasePath ["proposed"] in
      Fprintf ("===> creating " +:+ InitReleaseOpts.ReleaseSemver opts +:+
               " proposed directory: " +:+ filepath.render proposedPath +:+ nl);;
      try (os.Mkdir proposedPath) "unable to create proposed directory";;
      discard (save owners (filepath.Join proposedPath ["OWNERS"]));;
      (* |- at-risk *)
      let atRiskPath := filepath.Join releasePath ["at-risk"] in
      Fprintf ("===>  creating " +:+ InitReleaseOpts.ReleaseSemver opts +:+
               " at risk directory: " +:+ filepath.render atRiskPath +:+ nl);;
      try (os.Mkdir atRiskPath) "unable to create at-risk directory";;
      discard (save owners (filepath.Join atRiskPath ["OWNERS"]));;
      (* |- removed *)
      let removedPath := filepath.Join releasePath ["removed"] in
      Fprintf ("===>  creating " +:+ InitReleaseOpts.ReleaseSemver opts +:+
               " removed directory: " +:+ filepath.render removedPath +:+ nl);;
      try (os.Mkdir removedPath) "unable to create removed directory";;
      discard (save owners (filepath.Join removedPath ["OWNERS"]));;
      mret tt
  end.

(** [func generateKEPLink(opts CommonArgs) string] *)
Definition generateKEPLink (opts : CommonArgs) : string :=
  "https://github.com/kubernetes/enhancements/tree/master/keps/" +:+
  CommonArgs.KEP opts.

(** [func generateIssueLink(opts CommonArgs) string] *)
Definition generateIssueLink (opts : CommonArgs) : string :=
  "https://github.com/kubernetes/enhancements/issues/" +:+
  CommonArgs.Number opts.

(** The record [proposeKEP] writes. *)
Definition proposal_of (opts : ReleaseOpts) : releaseContent :=
  {| releaseContent.Number := "";
     releaseContent.SIG := CommonArgs.SIG (ReleaseOpts.CommonArgs opts);
     releaseContent.Stage := ReleaseOpts.Stage opts;
     releaseContent.Issue := generateIssueLink (ReleaseOpts.CommonArgs opts);
     releaseContent.Link := generateKEPLink (ReleaseOpts.CommonArgs opts) |}.

(** [fmt.Sprintf("%s.yaml", opts.Number)] *)
Definition proposal_fileName (opts : ReleaseOpts) : string :=
  CommonArgs.Number (ReleaseOpts.CommonArgs opts) +:+ ".yaml".

(** [func (c *Client) proposeKEP(opts *ReleaseOpts) error] *)
Definition proposeKEP (opts : ReleaseOpts) : M unit :=
  match findEnhancementsRepo (ReleaseOpts.CommonArgs opts) with
  | Err e => fail (Errorf "unable to propose KEP for release" (Repo e))
  | Ok repoPath =>
      let releasePath :=
        filepath.Join repoPath ["releases"; ReleaseOpts.Release opts] in
      err ← capture (os.Stat releasePath);
      if os.IsNotExist err then
        fail (Errorf
          "unable to propose KEP for release: release directory does not exist"
          (Sys ENOENT))
      else
        let proposal := proposal_of opts in
        let fileName := proposal_fileName opts in
        let proposedPath := filepath.Join releasePath ["proposed"; fileName] in
        let b := yaml.Marshal_releaseContent proposal in
        discard (ioutil.WriteFile proposedPath b);;
        Fprintf ("Generated release proposal for " +:+
                 CommonArgs.Name (ReleaseOpts.CommonArgs opts) +:+ " at " +:+
                 filepath.render proposedPath +:+ nl);;
        mret tt
  end.

(** [strings.Split(file.Name(), ".")[0]] *)
Definition kep_number (fileName : string) : string :=
  hd "" (strings.Split fileName "."%char).

(** The loop over the listing of one stage directory. The three loops of
    [GenerateRelease] differ in the stage name only; [content] is the one
    variable all of them decode into, [keps] the slice being built. *)
Fixpoint scanFiles (stage : string) (stagePath : path) (files : list string)
    (content : releaseContent) (keps : list releaseContent) :
    M (releaseContent * list releaseContent) :=
  match files with
  | [] => mret (content, keps)
  | file :: files =>
      if negb (strings.HasSuffix file ".yaml") then
        scanFiles stage stagePath files content keps
      else
        b ← try (ioutil.ReadFile (filepath.Join stagePath [file]))
              ("error reading " +:+ stage +:+ " KEP");
        match yaml.Unmarshal b content with
        | Err e => fail (Errorf ("error loading " +:+ stage +:+ " KEP") e)
        | Ok content =>
            let num := kep_number file in
            let content := releaseContent.set releaseContent.FNumber num content in
            scanFiles stage stagePath files content (keps ++ [content])
        end
  end.

(** The header of the manifest file, as the three [buf.WriteString] calls
    write it. *)
Definition manifest_header : string :=
  "### THIS FILE IS AUTOGENERATED ###" +:+ nl +:+
  "# To regenerate run kepctl release generate" +:+ nl +:+
  nl.

(** [func (c *Client) GenerateRelease(opts *ReleaseManifestOpts) error] *)
Definition GenerateRelease (opts : ReleaseManifestOpts) : M unit :=
  match findEnhancementsRepo (ReleaseManifestOpts.CommonArgs opts) with
  | Err e => fail (Errorf "unable to generate release manifest" (Repo e))
  | Ok repoPath =>
      let releasePath :=
        filepath.Join repoPath ["releases"; ReleaseManifestOpts.ReleaseVersion opts] in
      err ← capture (os.Stat releasePath);
      if os.IsNotExist err then
        fail (Errorf "release directory does not exist" (Sys ENOENT))
      else
        let manifest := releaseManifest.zero in
        (* get approved *)
        let acceptedPath := filepath.Join releasePath ["accepted"] in
        files ← try (ioutil.ReadDir acceptedPath) "unable to read accepted metadata";
        let content := releaseContent.zero in
        let acceptedKeps := [] in
        '(content, acceptedKeps) ←
          scanFiles "accepted" acceptedPath files content acceptedKeps;
        let manifest := releaseManifest.set_Accepted acceptedKeps manifest in
        (* get at-risk *)
        let atRiskPath := filepath.Join releasePath ["at-risk"] in
        files ← try (ioutil.ReadDir atRiskPath) "unable to read at-risk metadata";
        let atrisk := [] in
        '(content, atrisk) ← scanFiles "at-risk" atRiskPath files content atrisk;
        let manifest := releaseManifest.set_AtRisk atrisk manifest in
        (* get removed *)
        let removedPath := filepath.Join releasePath ["removed"] in
        files ← try (ioutil.ReadDir removedPath) "unable to read removed metadata";
        let removed := [] in
        '(content, removed) ← scanFiles "removed" removedPath files content removed;
        let manifest := releaseManifest.set_Removed removed manifest in
        (* get exceptions *)
        let b := yaml.Marshal_releaseManifest manifest in
        let buf := manifest_header +:+ b in
        let manifestPath := filepath.Join releasePath ["manifest.yaml"] in
        try (ioutil.WriteFile manifestPath buf)
          "unable to generate release manifest";;
        mret tt
  end.

End kepctl.

(** ** Validation of the options *)

Module semver.
(** [semver.NewVersion] of [github.com/Masterminds/semver], outside the
    package source: nil for a version, or the text of its error. *)
Class Parser := {
  NewVersion : string → result string unit;
}.
End semver.

(** [validateAndPopulateKEP], declared in another file of the package: it
    may fill in the options from the arguments, and it may fail. The error
    of a [Validate] method is the text it prints as. *)
Class KEPArgs := {
  validateAndPopulateKEP :
    list string → ReleaseOpts → result string unit * ReleaseOpts;
}.

(** [i.ReleaseSemver = v], and the like. *)
Definition set_ReleaseSemver (v : string) (i : InitReleaseOpts) : InitReleaseOpts :=
  {| InitReleaseOpts.CommonArgs := InitReleaseOpts.CommonArgs i;
     InitReleaseOpts.EnhancementTeam := InitReleaseOpts.EnhancementTeam i;
     InitReleaseOpts.ReleaseLeads := InitReleaseOpts.ReleaseLeads i;
     InitReleaseOpts.ReleaseSemver := v |}.

Definition set_ReleaseVersion (v : string) (r : ReleaseManifestOpts) :
    ReleaseManifestOpts :=
  {| ReleaseManifestOpts.CommonArgs := ReleaseManifestOpts.CommonArgs r;
     ReleaseManifestOpts.ReleaseVersion := v |}.

Definition set_Link (l : string) (r : ReleaseOpts) : ReleaseOpts :=
  {| ReleaseOpts.CommonArgs := ReleaseOpts.CommonArgs r;
     ReleaseOpts.Release := ReleaseOpts.Release r;
     ReleaseOpts.Stage := ReleaseOpts.Stage r;
     ReleaseOpts.Link := l |}.

Section Validate.
Context `{semver.Parser, KEPArgs}.

(** [func (i *InitReleaseOpts) Validate(args []string) error]; the options
    are returned as the method leaves them. *)
Definition InitReleaseOpts_Validate (args : list string) (i : InitReleaseOpts) :
    result string unit * InitReleaseOpts :=
  match args with
  | [] => (Err "must provide a release version", i)
  | arg0 :: _ =>
      let i := set_ReleaseSemver arg0 i in
      match semver.NewVersion (InitReleaseOpts.ReleaseSemver i) with
      | Err err => (Err ("invalid release version: " +:+ err), i)
      | Ok _ =>
          if decide (length (InitReleaseOpts.EnhancementTeam i) = 0) then
            (Err "at least one enhancement team member must be provided", i)
          else if decide (length (InitReleaseOpts.ReleaseLeads i) = 0) then
            (Err "at least one releae lead must be provided", i)
          else (Ok tt, i)
      end
  end.

(** [func (r *ReleaseOpts) Validate(args []string) error] *)
Definition ReleaseOpts_Validate (args : list string) (r : ReleaseOpts) :
    result string unit * ReleaseOpts :=
  match validateAndPopulateKEP args r with
  | (Err err, r) => (Err err, r)
  | (Ok _, r) =>
      if decide (ReleaseOpts.Release r = "") then
        (Err "target release is required to propose a KEP for a release", r)
      else if decide (ReleaseOpts.Stage r = "") then
        (Err "stage required to target the release", r)
      else
        let r := set_Link (generateKEPLink (ReleaseOpts.CommonArgs r)) r in
        (Ok tt, r)
  end.

(** [func (r *ReleaseManifestOpts) Validate(args []string) error] *)
Definition ReleaseManifestOpts_Validate (args : list string)
    (r : ReleaseManifestOpts) : result string unit * ReleaseManifestOpts :=
  match args with
  | [] => (Err "must provide a release version", r)
  | arg0 :: _ =>
      let r := set_ReleaseVersion arg0 r in
      match semver.NewVersion (ReleaseManifestOpts.ReleaseVersion r) with
      | Err err => (Err ("invalid release version: " +:+ err), r)
      | Ok _ => (Ok tt, r)
      end
  end.

End Validate.

(** ** The commands of [kepctl generate] *)

(** How a command ends in an error: its [PreRunE] refused the arguments,
    or its [RunE] failed. *)
Inductive failure :=
| Rejected (why : string)
| Failed (e : error).

(** A [cobra.Command] that is run: [PreRunE] first and, if it returned
    nil, [RunE], on the options [PreRunE] left behind the pointer. *)
Definition run_command {O} (PreRunE : list string → O → result string unit * O)
    (RunE : O → M unit) (opts : O) (args : list string) :
    world → result failure unit * world :=
  λ w, match PreRunE args opts with
       | (Err why, _) => (Err (Rejected why), w)
       | (Ok _, opts) =>
           match RunE opts w with
           | (Ok _, w') => (Ok tt, w')
           | (Err e, w') => (Err (Failed e), w')
           end
       end.

Section commands.
Context `{YamlText, RepoFinder, semver.Parser}.

(** The command [buildReleaseInitCommand] builds; [opts] holds the flags. *)
Definition buildReleaseInitCommand (opts : InitReleaseOpts) :
    list string → world → result failure unit * world :=
  run_command InitReleaseOpts_Validate InitRelease opts.

(** The command [buildGenerateReleaseCommand] builds. *)
Definition buildGenerateReleaseCommand (opts : ReleaseManifestOpts) :
    list string → world → result failure unit * world :=
  run_command ReleaseManifestOpts_Validate GenerateRelease opts.

End commands.

(** ** A reference text layer

    JSON text, which is YAML in flow style: enough to run the commands on
    concrete worlds. Objects of text and [null] members are read back;
    anything else is refused. *)

Module flow.

(** The double quote and the backslash. *)
Definition dq : ascii := "034"%char.
Definition bs : ascii := "092"%char.

(** Writers take the text that follows as [k].

    The rest of a quoted string after its opening quote: quotes and
    backslashes are escaped with a backslash. *)
Fixpoint quoted (s k : string) : string :=
  match s with
  | EmptyString => String dq k
  | String a s' =>
      if Ascii.eqb a dq || Ascii.eqb a bs then String bs (String a (quoted s' k))
      else String a (quoted s' k)
  end.

(** The items of an array after [[], and the members of an object after
    [{], separated by commas. *)
Definition items (emit : json → string → string) : list json → string → string :=
  fix go l k :=
    match l with
    | [] => String "]" k
    | x :: l' => emit x (match l' with [] => go l' k | _ => String "," (go l' k) end)
    end.

Definition members (emit : json → string → string) :
    list (string * json) → string → string :=
  fix go fs k :=
    match fs with
    | [] => String "}" k
    | (key, v) :: fs' =>
        String dq (quoted key (String ":"
          (emit v (match fs' with [] => go fs' k | _ => String "," (go fs' k) end))))
    end.

Fixpoint emit (j : json) (k : string) : string :=
  match j with
  | JNull => "null" +:+ k
  | JString s => String dq (quoted s k)
  | JArray l => String "[" (items emit l k)
  | JObject fs => String "{" (members emit fs k)
  end.

(** Readers return what they read and the text that follows.

    A quoted string after its opening quote. *)
Fixpoint read_quoted (s : string) : option (string * string) :=
  match s with
  | EmptyString => None
  | String a s' =>
      if Ascii.eqb a dq then Some (EmptyString, s')
      else if Ascii.eqb a bs then
        match s' with
        | EmptyString => None
        | String b s'' => '(x, r) ← read_quoted s''; Some (String b x, r)
        end
      else '(x, r) ← read_quoted s'; Some (String a x, r)
  end.

(** A value: a quoted string or [null]. *)
Definition read_value (s : string) : option (json * string) :=
  match s with
  | String a s' =>
      if Ascii.eqb a dq then '(v, r) ← read_quoted s'; Some (JString v, r)
      else if String.prefix "null" s then
        Some (JNull, substring 4 (String.length s - 4) s)
      else None
  | EmptyString => None
  end.

(** The members of an object after [{], one per unit of [fuel]. *)
Fixpoint read_members (fuel : nat) (s : string) : option (list (string * json)) :=
  match fuel, s with
  | S fuel, String a s1 =>
      if Ascii.eqb a dq then
        '(key, s2) ← read_quoted s1;
        match s2 with
        | String c s3 =>
            if Ascii.eqb c ":" then
              '(v, s4) ← read_value s3;
              match s4 with
              | String d s5 =>
                  if Ascii.eqb d "}" then
                    if decide (s5 = "") then Some [(key, v)] else None
                  else if Ascii.eqb d "," then
                    rest ← read_members fuel s5; Some ((key, v) :: rest)
                  else None
              | EmptyString => None
              end
            else None
        | EmptyString => None
        end
      else None
  | _, _ => None
  end.

(** A document: nothing or [null], or an object. *)
Definition parse (s : string) : option json :=
  if decide (s = "" ∨ s = "null") then Some JNull
  else match s with
       | String "{" (String "}" EmptyString) => Some (JObject [])
       | String "{" rest => JObject <$> read_members (String.length rest) rest
       | _ => None
       end.

End flow.

(** The repository is where [--repo-path] says it is. *)
Definition repo_at_RepoPath (opts : CommonArgs) : result string path :=
  Ok (filepath.Join [] [CommonArgs.RepoPath opts]).

(** A version parser for the runs: an optional [v] and one to three
    numbers separated by dots. *)
Definition is_digit (a : ascii) : bool :=
  let n := nat_of_ascii a in (48 <=? n)%nat && (n <=? 57)%nat.

Definition numeric (s : string) : bool :=
  negb (String.eqb s "") && forallb is_digit (list_ascii_of_string s).

Definition dotted_version (s : string) : result string unit :=
  let s := match s with String "v" rest => rest | _ => s end in
  let parts := strings.Split s "." in
  if (length parts <=? 3)%nat && forallb numeric parts then Ok tt
  else Err "Invalid Semantic Version".

(** For the runs the first argument is the KEP, and nothing else is filled
    in. *)
Definition kep_from_first (args : list string) (r : ReleaseOpts) :
    result string unit * ReleaseOpts :=
  match args with
  | [] => (Err "must provide a path for the new KEP", r)
  | kep :: _ =>
      (Ok tt,
       {| ReleaseOpts.CommonArgs :=
            {| CommonArgs.RepoPath := CommonArgs.RepoPath (ReleaseOpts.CommonArgs r);
               CommonArgs.KEP := kep;
               CommonArgs.Number := CommonArgs.Number (ReleaseOpts.CommonArgs r);
               CommonArgs.SIG := CommonArgs.SIG (ReleaseOpts.CommonArgs r);
               CommonArgs.Name := CommonArgs.Name (ReleaseOpts.CommonArgs r) |};
          ReleaseOpts.Release := ReleaseOpts.Release r;
          ReleaseOpts.Stage := ReleaseOpts.Stage r;
          ReleaseOpts.Link := ReleaseOpts.Link r |})
  end.

(** ** Notions the statements use *)

(** A name a directory entry can have. *)
Definition plain_name (c : string) : bool :=
  negb (String.eqb c "") && negb (String.eqb c ".") && negb (String.eqb c "..")
  && negb (strings.ContainsByte c "/").

(** [resolve] from a node that may be missing. *)
Definition resolve_opt (p : path) (o : option node) : result errno node :=
  match o with
  | None => Err ENOENT
  | Some n => resolve p n
  end.

(** What was found, if anything. *)
Definition found {E A} (r : result E A) : option A :=
  match r with Ok a => Some a | Err _ => None end.

Definition is_dir (p : path) (n : node) : Prop :=
  ∃ es, resolve p n = Ok (Dir es).

(** [f] never puts something in the place of a directory. *)
Definition spares_dirs (f : option node → result errno node) : Prop :=
  ∀ es, is_ok (f (Some (Dir es))) = false.

(** A computation that removes no directory. *)
Definition keeps_dirs {A} (m : M A) : Prop :=
  ∀ w r w' q, m w = (r, w') → is_dir q (disk w) → is_dir q (disk w').

(** The listing of [p] holds names only. *)
Definition plain_listing (n : node) (p : path) : Prop :=
  ∀ files, read_dir p n = Ok files → Forall (λ file, plain_name file = true) files.

(** A member whose value is text. *)
Definition text_valued (kv : string * json) : Prop := ∃ s, kv.2 = JString s.

(** A member whose key, if it names a field at all, is the tag of the field
    as the struct writes it. *)
Definition exact_key (kv : string * json) : Prop :=
  ∀ f, releaseContent.field_of_key kv.1 = Some f → kv.1 = releaseContent.key f.

(** The five stage directories of a release, in the order [InitRelease]
    makes them. *)
Definition release_stages : list string :=
  ["accepted"; "exception"; "proposed"; "at-risk"; "removed"].

(** The stages [GenerateRelease] scans, in the order it scans them. *)
Definition scanned_stages : list string := ["accepted"; "at-risk"; "removed"].

Definition releasePath_of (repoPath : path) (version : string) : path :=
  filepath.Join repoPath ["releases"; version].

Definition manifestPath_of (releasePath : path) : path :=
  filepath.Join releasePath ["manifest.yaml"].

Definition proposedPath_of (releasePath : path) (opts : ReleaseOpts) : path :=
  filepath.Join releasePath ["proposed"; proposal_fileName opts].

(** The approver entries before they are sorted. *)
Definition rendered_approvers (team leads : list string) : list string :=
  ((λ person, person +:+ " // Enhancement Team") <$> team) ++
  ((λ person, person +:+ " // Release Lead") <$> leads).

(** The manifest of a release without metadata files. *)
Definition empty_manifest : releaseManifest :=
  {| releaseManifest.Proposed := None;
     releaseManifest.Accepted := Some [];
     releaseManifest.AtRisk := Some [];
     releaseManifest.Removed := Some [] |}.

(** A stage of a manifest read back from the disk: the listing it was made
    from is in ascending order of the file names, and the identifiers of
    the entries are those of its metadata files, in that order. *)
Definition follows_listing (n : node) (releasePath : path) (stage : string)
    (entries : option (list releaseContent)) : Prop :=
  ∃ files keps,
    entries = Some keps ∧
    read_dir (filepath.Join releasePath [stage]) n = Ok files ∧
    StronglySorted String.le files ∧
    releaseContent.Number <$> keps =
    kep_number <$> filter (λ file, strings.HasSuffix file ".yaml" = true) files.

(** The metadata files of a stage, in the order of the listing: the path
    the file is read from, and its name. *)
Definition stage_metadata (n : node) (releasePath : path) (stage : string) :
    list (path * string) :=
  let stagePath := filepath.Join releasePath [stage] in
  match read_dir stagePath n with
  | Ok files =>
      (λ file, (filepath.Join stagePath [file], file)) <$>
      filter (λ file, strings.HasSuffix file ".yaml" = true) files
  | Err _ => []
  end.

(** The metadata files of a run, in the order they are decoded. *)
Definition run_metadata (n : node) (releasePath : path) : list (path * string) :=
  stage ← scanned_stages; stage_metadata n releasePath stage.

(** The entries of a manifest, in the order they were appended. *)
Definition run_entries (m : releaseManifest) : list releaseContent :=
  default [] (releaseManifest.Accepted m) ++
  default [] (releaseManifest.AtRisk m) ++
  default [] (releaseManifest.Removed m).

(** The entry appended before the [i]-th one; the fresh record before the
    first. *)
Definition entry_before (entries : list releaseContent) (i : nat) : releaseContent :=
  match i with
  | 0 => releaseContent.zero
  | S j => default releaseContent.zero (entries !! j)
  end.

(** The disk [d'] is the disk [d] but for the file at [p]: every other
    file reads as before, and the directories are the same. *)
Definition differs_at_file (p : path) (d d' : node) : Prop :=
  (∀ q, q ≠ p → found (read_file q d') = found (read_file q d)) ∧
  (∀ q, is_dir q d' ↔ is_dir q d).

(** The disk [d'] is the disk [d] wherever a path leaves [base]: a path
    that has another element where [base] has [c2] leads to the same. *)
Definition same_outside (base : path) (d d' : node) : Prop :=
  ∀ p c1 c2 r1 r2, base = p ++ c2 :: r2 → c1 ≠ c2 →
    resolve (p ++ c1 :: r1) d' = resolve (p ++ c1 :: r1) d.

(** A computation that changes the disk only at [base] and below. *)
Definition confined {A} (base : path) (m : M A) : Prop :=
  ∀ w r w', m w = (r, w') → same_outside base (disk w) (disk w').

(** What is read at [q], and whether [q] is a directory, where there may
    be no node. *)
Definition file_at (q : path) (o : option node) : option string :=
  match o with Some n => found (read_file q n) | None => None end.

Definition dir_at (q : path) (o : option node) : Prop :=
  match o with Some n => is_dir q n | None => False end.

(** The words [InitRelease] prints for a stage, and the name of the
    directory of the stage, in the order of the five blocks. *)
Definition stage_blocks : list (string * string * string) :=
  [("===>", "accepted", "accepted"); ("===>", "exception", "exception");
   ("===>", "proposed", "proposed"); ("===> ", "at risk", "at-risk");
   ("===> ", "removed", "removed")].

Section notions.
Context `{YamlText, RepoFinder}.

(** *** The commands, stage by stage

    [InitRelease] and [GenerateRelease] repeat one block of statements for
    each stage. The blocks are named here, and the commands are written
    again in terms of them; [InitRelease_by_stage_eq] and
    [GenerateRelease_by_stage_eq] show that nothing changed. *)

(** One stage directory of [InitRelease]: announce, [os.Mkdir], seed the
    OWNERS file. [arrow] and [label] are the words of the message, [stage]
    the directory name. *)
Definition initStage (opts : InitReleaseOpts) (owners : ownersFile)
    (releasePath : path) (arrow label stage : string) : M unit :=
  let stagePath := filepath.Join releasePath [stage] in
  Fprintf (arrow +:+ " creating " +:+ InitReleaseOpts.ReleaseSemver opts +:+
           " " +:+ label +:+ " directory: " +:+ filepath.render stagePath +:+ nl);;
  try (os.Mkdir stagePath) ("unable to create " +:+ stage +:+ " directory");;
  discard (save owners (filepath.Join stagePath ["OWNERS"])).

Definition InitRelease_by_stage (opts : InitReleaseOpts) : M unit :=
  match findEnhancementsRepo (InitReleaseOpts.CommonArgs opts) with
  | Err e =>
      fail (Errorf "unable to initalize release: unable to find enhancements repo"
              (Repo e))
  | Ok repoPath =>
      let releasePath :=
        filepath.Join repoPath ["releases"; InitReleaseOpts.ReleaseSemver opts] in
      try (os.MkdirAll releasePath) "unable to create release directory";;
      let owners := owners_of opts in
      initStage opts owners releasePath "===>" "accepted" "accepted";;
      initStage opts owners releasePath "===>" "exception" "exception";;
      initStage opts owners releasePath "===>" "proposed" "proposed";;
      initStage opts owners releasePath "===> " "at risk" "at-risk";;
      initStage opts owners releasePath "===> " "removed" "removed";;
      mret tt
  end.

(** One stage of [GenerateRelease]: list the directory, then the loop. *)
Definition scanStage (releasePath : path) (stage : string)
    (content : releaseContent) : M (releaseContent * list releaseContent) :=
  let stagePath := filepath.Join releasePath [stage] in
  files ← try (ioutil.ReadDir stagePath)
            ("unable to read " +:+ stage +:+ " metadata");
  scanFiles stage stagePath files content [].

(** The manifest [GenerateRelease] assembles before it marshals it (from
    [manifest := &releaseManifest{}] to [manifest.Removed = removed]). *)
Definition collectManifest (releasePath : path) : M releaseManifest :=
  let manifest := releaseManifest.zero in
  let content := releaseContent.zero in
  '(content, acceptedKeps) ← scanStage releasePath "accepted" content;
  '(content, atrisk) ← scanStage releasePath "at-risk" content;
  '(content, removed) ← scanStage releasePath "removed" content;
  mret {| releaseManifest.Proposed := releaseManifest.Proposed manifest;
          releaseManifest.Accepted := Some acceptedKeps;
          releaseManifest.AtRisk := Some atrisk;
          releaseManifest.Removed := Some removed |}.

Definition GenerateRelease_by_stage (opts : ReleaseManifestOpts) : M unit :=
  match findEnhancementsRepo (ReleaseManifestOpts.CommonArgs opts) with
  | Err e => fail (Errorf "unable to generate release manifest" (Repo e))
  | Ok repoPath =>
      let releasePath :=
        filepath.Join repoPath ["releases"; ReleaseManifestOpts.ReleaseVersion opts] in
      err ← capture (os.Stat releasePath);
      if os.IsNotExist err then
        fail (Errorf "release directory does not exist" (Sys ENOENT))
      else
        manifest ← collectManifest releasePath;
        let b := yaml.Marshal_releaseManifest manifest in
        let buf := manifest_header +:+ b in
        let manifestPath := filepath.Join releasePath ["manifest.yaml"] in
        try (ioutil.WriteFile manifestPath buf)
          "unable to generate release manifest";;
        mret tt
  end.

(** What seeding a stage leaves in its directory. *)
Definition seeded (w : world) (owners : ownersFile) (p : path) : gmap string node :=
  if refused w p then ∅ else {[ "OWNERS" := File (yaml.Marshal_ownersFile owners) ]}.

(** The manifest file [GenerateRelease] writes for a manifest. *)
Definition manifest_file (m : releaseManifest) : string :=
  manifest_header +:+ yaml.Marshal_releaseManifest m.

(** The write [proposeKEP] attempts. *)
Definition proposal_write (releasePath : path) (opts : ReleaseOpts) : syscall unit :=
  ioutil.WriteFile (proposedPath_of releasePath opts)
    (yaml.Marshal_releaseContent (proposal_of opts)).

(** What went wrong in stage [stage], told by the error [e]: the directory
    could not be listed, or one of its metadata files could not be read, or
    one of them does not decode. *)
Definition offends (w : world) (releasePath : path) (stage : string)
    (e : error) : Prop :=
  let stagePath := filepath.Join releasePath [stage] in
  (∃ x, read_dir stagePath (disk w) = Err x ∧
        e = Errorf ("unable to read " +:+ stage +:+ " metadata") (Sys x)) ∨
  (∃ files file,
      read_dir stagePath (disk w) = Ok files ∧ file ∈ files ∧
      strings.HasSuffix file ".yaml" = true ∧
      ((∃ x, read_file (filepath.Join stagePath [file]) (disk w) = Err x ∧
             e = Errorf ("error reading " +:+ stage +:+ " KEP") (Sys x)) ∨
       (∃ b ce, read_file (filepath.Join stagePath [file]) (disk w) = Ok b ∧
                yaml.Unmarshal b releaseContent.zero = Err ce ∧
                e = Errorf ("error loading " +:+ stage +:+ " KEP") ce))).

(** [entries] are what decoding [files] one after the other gives, each
    into the record the one before left, starting from [prev]. *)
Fixpoint decoded_in_turn (n : node) (prev : releaseContent)
    (files : list (path * string)) (entries : list releaseContent) : Prop :=
  match files, entries with
  | [], [] => True
  | (p, name) :: files, entry :: entries =>
      (∃ b content,
          read_file p n = Ok b ∧
          yaml.Unmarshal b prev = Ok content ∧
          entry = releaseContent.set releaseContent.FNumber (kep_number name) content) ∧
      decoded_in_turn n entry files entries
  | _, _ => False
  end.

(** The stage blocks of [InitRelease], one after the other. *)
Fixpoint initStages (opts : InitReleaseOpts) (owners : ownersFile)
    (releasePath : path) (blocks : list (string * string * string)) : M unit :=
  match blocks with
  | [] => mret tt
  | (arrow, label, stage) :: blocks =>
      initStage opts owners releasePath arrow label stage;;
      initStages opts owners releasePath blocks
  end.

(** A stage that can be scanned: its directory can be listed, and every
    metadata file in it can be read and decodes. *)
Definition stage_readable (n : node) (releasePath : path) (stage : string) : Prop :=
  ∃ files,
    read_dir (filepath.Join releasePath [stage]) n = Ok files ∧
    ∀ file, file ∈ files → strings.HasSuffix file ".yaml" = true →
      ∃ b, read_file (filepath.Join (filepath.Join releasePath [stage]) [file]) n = Ok b ∧
           is_ok (yaml.Unmarshal b releaseContent.zero) = true.

(** The line [proposeKEP] prints. *)
Definition proposal_line (releasePath : path) (opts : ReleaseOpts) : string :=
  "Generated release proposal for " +:+
  CommonArgs.Name (ReleaseOpts.CommonArgs opts) +:+ " at " +:+
  filepath.render (proposedPath_of releasePath opts) +:+ nl.

End notions.

(** ** Tactics *)

(** Membership in a list that is written out. *)
Ltac in_list :=
  repeat first [apply list_elem_of_here | apply list_elem_of_further].

Ltac not_in_list :=
  let Hin := fresh "Hin" in
  intros Hin;
  repeat (apply elem_of_cons in Hin as [Hin|Hin]; [discriminate Hin|]);
  by apply elem_of_nil in Hin.

Ltac nodup_list :=
  repeat (apply NoDup_cons; split; [not_in_list|]); apply NoDup_nil_2.

(** Both sides are closed: compute them. *)
Ltac run := vm_compute; reflexivity.

(** * The reference text layer reads back what it writes *)

Module flow_facts.
Import flow.

Lemma read_quoted_quoted s k : read_quoted (quoted s k) = Some (s, k).
Proof.
  induction s as [|a s IH]; simpl; [done|].
  destruct (Ascii.eqb a dq) eqn:E1; simpl.
  { by rewrite IH. }
  destruct (Ascii.eqb a bs) eqn:E2; simpl.
  - by rewrite IH.
  - by rewrite E1, E2, IH.
Qed.

Lemma quoted_length s k : String.length k < String.length (quoted s k).
Proof.
  induction s as [|a s IH]; simpl; [lia|].
  destruct (Ascii.eqb a dq || Ascii.eqb a bs); simpl; lia.
Qed.

Lemma members_length fs k :
  Forall text_valued fs →
  length fs + String.length k ≤ String.length (members emit fs k).
Proof.
  induction 1 as [|[key v] fs [s Hs] _ IH]; simpl in *; [lia|]. subst v. simpl.
  pose proof (quoted_length key
    (String ":" (String dq (quoted s
       match fs with [] => members emit fs k | _ :: _ => String "," (members emit fs k) end)))).
  pose proof (quoted_length s
    match fs with [] => members emit fs k | _ :: _ => String "," (members emit fs k) end).
  simpl in *. destruct fs; simpl in *; lia.
Qed.

Lemma read_members_members fs fuel :
  fs ≠ [] → Forall text_valued fs → length fs ≤ fuel →
  read_members fuel (members emit fs "") = Some fs.
Proof.
  revert fuel. induction fs as [|[key v] fs IH]; intros fuel Hne Hall Hfuel; [done|].
  apply Forall_cons in Hall as [[s Hs] Hall]. simpl in Hs. subst v.
  destruct fuel as [|fuel]; [simpl in Hfuel; lia|].
  simpl. rewrite read_quoted_quoted. simpl.
  rewrite read_quoted_quoted. simpl.
  destruct fs as [|kv fs]; [done|].
  simpl length in *. rewrite IH; [done|done|done|lia].
Qed.

Lemma parse_emit fields :
  Forall text_valued fields →
  parse (emit (JObject fields) "") = Some (JObject fields).
Proof.
  intros Hall. destruct fields as [|[key v] fields]; [done|].
  pose proof (members_length _ "" Hall) as Hlen.
  assert ((key, v) :: fields ≠ []) as Hne by done.
  pose proof (read_members_members _
                (String.length (members emit ((key, v) :: fields) "")) Hne Hall)
    as Hread.
  unfold parse. rewrite decide_False by (intros [Hx|Hx]; simpl in Hx; discriminate Hx).
  simpl in *. rewrite Hread by lia. done.
Qed.

End flow_facts.

Lemma flow_roundtrip (fields : list (string * json)) :
  NoDup fields.*1 →
  Forall (text_member (λ _, True)) fields →
  ∃ fields',
    flow.parse (flow.emit (JObject fields) "") = Some (JObject fields') ∧
    fields' ≡ₚ fields.
Proof.
  intros _ Hall. exists fields. split; [|done].
  apply flow_facts.parse_emit. eapply Forall_impl; [done|].
  intros kv (_ & s & Hs & _). by exists s.
Qed.

(** The reference text layer carries every string. *)
Definition flow_text : YamlText := {|
  representable := λ _, True;
  JSONToYAML := λ j, flow.emit j "";
  YAMLToJSON := flow.parse;
  YAMLToJSON_JSONToYAML := flow_roundtrip;
|}.

Definition repo_by_path : RepoFinder := {|
  findEnhancementsRepo := repo_at_RepoPath;
|}.

Definition dotted_versions : semver.Parser := {|
  semver.NewVersion := dotted_version;
|}.

Definition kep_from_first_argument : KEPArgs := {|
  validateAndPopulateKEP := kep_from_first;
|}.

(** ** Sample runs *)

Module sample.

#[local] Existing Instances flow_text repo_by_path.

Definition args : CommonArgs :=
  {| CommonArgs.RepoPath := "repo";
     CommonArgs.KEP := "sig-api/123-foo";
     CommonArgs.Number := "123";
     CommonArgs.SIG := "sig-api";
     CommonArgs.Name := "123-foo" |}.

Definition init : InitReleaseOpts :=
  {| InitReleaseOpts.CommonArgs := args;
     InitReleaseOpts.EnhancementTeam := ["zed"; "alice"];
     InitReleaseOpts.ReleaseLeads := ["bob"];
     InitReleaseOpts.ReleaseSemver := "v1.21" |}.

Definition init' : InitReleaseOpts :=
  {| InitReleaseOpts.CommonArgs := args;
     InitReleaseOpts.EnhancementTeam := ["alice"; "zed"];
     InitReleaseOpts.ReleaseLeads := ["bob"];
     InitReleaseOpts.ReleaseSemver := "v1.21" |}.

Definition receipt : ReleaseOpts :=
  {| ReleaseOpts.CommonArgs := args;
     ReleaseOpts.Release := "v1.21";
     ReleaseOpts.Stage := "alpha";
     ReleaseOpts.Link := "" |}.

Definition generate : ReleaseManifestOpts :=
  {| ReleaseManifestOpts.CommonArgs := args;
     ReleaseManifestOpts.ReleaseVersion := "v1.21" |}.

Definition releasePath : path := ["repo"; "releases"; "v1.21"].

(** A repository without releases. *)
Definition fresh : world :=
  {| disk := Dir {[ "repo" := Dir ∅ ]}; out := []; refused := λ _, false |}.

(** The same, where no file can be written. *)
Definition readonly : world :=
  {| disk := Dir {[ "repo" := Dir ∅ ]}; out := []; refused := λ _, true |}.

(** After [kepctl generate release v1.21]. *)
Definition initialized : world := (InitRelease init fresh).2.

(** After a receipt for KEP 123 was placed. *)
Definition proposed : world := (proposeKEP receipt initialized).2.

(** After the manifest was generated. *)
Definition generated : world := (GenerateRelease generate proposed).2.

(** A release directory without its stage directories. *)
Definition bare : world :=
  {| disk := Dir {[ "repo" := Dir {[ "releases" := Dir {[ "v1.21" := Dir ∅ ]} ]} ]};
     out := []; refused := λ _, false |}.

(** A release whose [accepted] stage holds the given metadata files. *)
Definition accepted_with (files : gmap string node) : world :=
  {| disk :=
       Dir {[ "repo" := Dir {[ "releases" := Dir {[ "v1.21" :=
         Dir (<[ "accepted" := Dir files ]>
               (<[ "at-risk" := Dir ∅ ]> {[ "removed" := Dir ∅ ]})) ]} ]} ]};
     out := []; refused := λ _, false |}.

Definition record (sig stage : string) : string :=
  flow.emit (JObject [("sig", JString sig); ("stage", JString stage)]) "".

(** A metadata file that says its stage and nothing else. *)
Definition stage_only : string :=
  flow.emit (JObject [("stage", JString "beta")]) "".

Definition corrupted : world :=
  accepted_with {[ "1.yaml" := File "{sig" ]}.

Definition after_auth : world :=
  accepted_with (<[ "1.yaml" := File (record "sig-auth" "alpha") ]>
                   {[ "2.yaml" := File stage_only ]}).

Definition after_node : world :=
  accepted_with (<[ "1.yaml" := File (record "sig-node" "alpha") ]>
                   {[ "2.yaml" := File stage_only ]}).

(** The flags of [kepctl generate release] and of [kepctl generate
    manifest], before the arguments are looked at. *)
Definition init_flags : InitReleaseOpts :=
  {| InitReleaseOpts.CommonArgs := args;
     InitReleaseOpts.EnhancementTeam := ["zed"; "alice"];
     InitReleaseOpts.ReleaseLeads := ["bob"];
     InitReleaseOpts.ReleaseSemver := "" |}.

Definition generate_flags : ReleaseManifestOpts :=
  {| ReleaseManifestOpts.CommonArgs := args;
     ReleaseManifestOpts.ReleaseVersion := "" |}.

(** A release in which the name [proposed] is taken. *)
Definition half_made : world :=
  {| disk := Dir {[ "repo" := Dir {[ "releases" := Dir {[ "v1.21" :=
       Dir {[ "proposed" := Dir ∅ ]} ]} ]} ]};
     out := []; refused := λ _, false |}.


(** A release whose [accepted] stage holds a metadata file and, after it
    in the listing, the receipt of KEP 123 as [proposeKEP] writes it. *)
Definition with_receipt : world :=
  accepted_with (<[ "1.yaml" := File (record "sig-auth" "beta") ]>
                   {[ "123.yaml" := File (yaml.Marshal_releaseContent (proposal_of receipt)) ]}).

End sample.

(** * Properties *)

(** ** Strings and paths *)

Lemma Split_no_sep s sep :
  strings.ContainsByte s sep = false → strings.Split s sep = [s].
Proof.
  induction s as [|a s IH]; simpl; [done|].
  destruct (Ascii.eqb a sep); simpl; [done|].
  intros Hs. by rewrite IH.
Qed.

Lemma Join_plain p c : plain_name c = true → filepath.Join p [c] = p ++ [c].
Proof.
  unfold plain_name. rewrite !andb_true_iff, !negb_true_iff, !String.eqb_neq.
  intros [[[H1 H2] H3] H4].
  unfold filepath.Join. simpl. rewrite app_nil_r, Split_no_sep by done.
  simpl. unfold filepath.push.
  rewrite decide_False by (intros [?|?]; done).
  by rewrite decide_False.
Qed.

(** ** The file system *)

Lemma resolve_cons c p es :
  resolve (c :: p) (Dir es) = resolve_opt p (es !! c).
Proof. simpl. by destruct (es !! c). Qed.

Lemma resolve_app p q n :
  resolve (p ++ q) n =
  match resolve p n with Ok m => resolve q m | Err e => Err e end.
Proof.
  revert n. induction p as [|c p IH]; intros n; simpl; [done|].
  destruct n as [|es]; [done|]. destruct (es !! c); [apply IH|done].
Qed.

(** What a successful [modify] leaves at the path. *)
Lemma resolve_modify f p o n' :
  modify f p o = Ok n' → ∃ old v, f old = Ok v ∧ resolve p n' = Ok v.
Proof.
  revert o n'. induction p as [|c p IH]; intros o n' Hm; simpl in *.
  - eauto.
  - destruct o as [[|es]|]; try done.
    destruct (modify f p (es !! c)) as [child|] eqn:Hc; [|done].
    injection Hm as <-. simpl. rewrite lookup_insert_eq. eauto.
Qed.

Lemma resolve_write p data o n' :
  modify (write_at data) p o = Ok n' → resolve p n' = Ok (File data).
Proof.
  intros (old & v & Hf & ->)%resolve_modify.
  destruct old as [[|?]|]; simpl in Hf; congruence.
Qed.

Lemma resolve_mkdir p o n' :
  modify mkdir_at p o = Ok n' → resolve p n' = Ok (Dir ∅).
Proof.
  intros (old & v & Hf & ->)%resolve_modify.
  destruct old as [[|?]|]; simpl in Hf; congruence.
Qed.

(** A change at [p ++ c2 :: _] is not seen along [p ++ c1 :: _]. *)
Lemma resolve_modify_other f p c1 c2 r1 r2 n n' :
  c1 ≠ c2 →
  modify f (p ++ c2 :: r2) (Some n) = Ok n' →
  resolve (p ++ c1 :: r1) n' = resolve (p ++ c1 :: r1) n.
Proof.
  intros Hne. revert n n'. induction p as [|c p IH]; intros n n' Hm; simpl in *.
  - destruct n as [|es]; [done|].
    destruct (modify f r2 (es !! c2)) as [child|]; [|done].
    injection Hm as <-. simpl. by rewrite lookup_insert_ne.
  - destruct n as [|es]; [done|].
    destruct (modify f (p ++ c2 :: r2) (es !! c)) as [child|] eqn:Hc; [|done].
    injection Hm as <-. simpl. rewrite lookup_insert_eq.
    destruct (es !! c) as [m|] eqn:Hes.
    + by apply IH.
    + destruct p; simpl in Hc; done.
Qed.

(** Writing the same data to the same place twice changes nothing more. *)
Lemma modify_write_twice data p o n' :
  modify (write_at data) p o = Ok n' →
  modify (write_at data) p (Some n') = Ok n'.
Proof.
  revert o n'. induction p as [|c p IH]; intros o n' Hm; simpl in *.
  - destruct o as [[|?]|]; simpl in Hm; by simplify_eq.
  - destruct o as [[|es]|]; try done.
    destruct (modify _ p (es !! c)) as [child|] eqn:Hc; [|done].
    injection Hm as <-. rewrite lookup_insert_eq.
    rewrite (IH _ _ Hc). by rewrite insert_insert_eq.
Qed.

Lemma mkdir_at_spares : spares_dirs mkdir_at.
Proof. done. Qed.

Lemma write_at_spares data : spares_dirs (write_at data).
Proof. done. Qed.

Lemma modify_keeps_dir f p q o n' es :
  spares_dirs f →
  modify f p o = Ok n' →
  resolve_opt q o = Ok (Dir es) →
  is_dir q n'.
Proof.
  intros Hf. revert q o n' es.
  induction p as [|c p IH]; intros q o n' es Hm Hq; simpl in Hm.
  - destruct o as [[|es0]|]; simpl in Hq.
    + destruct q; done.
    + specialize (Hf es0). by rewrite Hm in Hf.
    + done.
  - destruct o as [[|es0]|]; try done.
    destruct (modify f p (es0 !! c)) as [child|] eqn:Hc; [|done].
    injection Hm as <-. destruct q as [|c' q]; [by eexists|].
    simpl in Hq. unfold is_dir. rewrite resolve_cons.
    destruct (decide (c = c')) as [->|Hne].
    + rewrite lookup_insert_eq. simpl.
      destruct (es0 !! c') as [m|] eqn:Hes; [|done].
      by eapply (IH q (Some m)).
    + rewrite lookup_insert_ne by done.
      destruct (es0 !! c'); [|done]. by eexists.
Qed.

Lemma modify_mkdir_exists p n :
  is_ok (resolve p n) = true → modify mkdir_at p (Some n) = Err EEXIST.
Proof.
  revert n. induction p as [|c p IH]; intros n Hn; simpl in *; [done|].
  destruct n as [|es]; [done|].
  destruct (es !! c) as [m|] eqn:Hes; [|done].
  by rewrite (IH m Hn).
Qed.

(** After [os.MkdirAll] the path is a directory: the one that was there, or
    an empty one. *)
Lemma resolve_mkdir_all p o n' :
  mkdir_all p o = Ok n' →
  resolve p n' = Ok (Dir (entries_of (found (resolve_opt p o)))).
Proof.
  revert o n'. induction p as [|c p IH]; intros o n' Hm.
  - destruct o as [[|es]|]; simpl in *; by simplify_eq.
  - assert (∃ es,
      entries_of o = es ∧
      resolve_opt (c :: p) o = resolve_opt p (es !! c) ∧
      mkdir_all (c :: p) o =
        match mkdir_all p (es !! c) with
        | Ok child => Ok (Dir (<[c:=child]> es))
        | Err e => Err e
        end) as (es & Hes & Hr & Hmk).
    { destruct o as [[|es]|]; simpl in *; try done.
      - eexists; split; [done|]. split; [|done]. by destruct (es !! c).
      - eexists; split; [done|]. by rewrite lookup_empty. }
    rewrite Hmk in Hm. rewrite Hr.
    destruct (mkdir_all p (es !! c)) as [child|] eqn:Hc; [|done].
    injection Hm as <-. simpl. rewrite lookup_insert_eq. by apply IH.
Qed.

Lemma mkdir_all_dir p n :
  is_dir p n → mkdir_all p (Some n) = Ok n.
Proof.
  revert n. induction p as [|c p IH]; intros n [es Hes]; simpl in *.
  - by simplify_eq.
  - destruct n as [|es0]; [done|]. simpl.
    destruct (es0 !! c) as [m|] eqn:Hm; [|done].
    rewrite IH by by eexists. by rewrite insert_id.
Qed.

(** ** Computations *)

Lemma bind_Ok {A B} (m : M A) (k : A → M B) w a w1 :
  m w = (Ok a, w1) → (m ≫= k) w = k a w1.
Proof. intros Hm. unfold mbind, M_bind, bind. by rewrite Hm. Qed.

Lemma bind_Err {A B} (m : M A) (k : A → M B) w e w1 :
  m w = (Err e, w1) → (m ≫= k) w = (Err e, w1).
Proof. intros Hm. unfold mbind, M_bind, bind. by rewrite Hm. Qed.

Lemma bind_assoc {A B C} (m : M A) (k : A → M B) (k' : B → M C) w :
  ((m ≫= k) ≫= k') w = (m ≫= λ a, k a ≫= k') w.
Proof. unfold mbind, M_bind, bind. by destruct (m w) as [[a|e] w']. Qed.

Lemma bind_ext {A B} (m : M A) (k k' : A → M B) w :
  (∀ a w', k a w' = k' a w') → (m ≫= k) w = (m ≫= k') w.
Proof. intros Hk. unfold mbind, M_bind, bind. by destruct (m w) as [[a|e] w']. Qed.

Lemma bind_inv {A B} (m : M A) (k : A → M B) w r w2 :
  (m ≫= k) w = (r, w2) →
  (∃ a w1, m w = (Ok a, w1) ∧ k a w1 = (r, w2)) ∨
  (∃ e, m w = (Err e, w2) ∧ r = Err e).
Proof.
  unfold mbind, M_bind, bind. destruct (m w) as [[a|e] w1]; intros Hk.
  - left. eauto.
  - right. simplify_eq. eauto.
Qed.

Lemma capture_Stat p w :
  capture (os.Stat p) w =
  (Ok (match resolve p (disk w) with Ok _ => None | Err e => Some e end), w).
Proof. unfold capture, os.Stat. by destruct (resolve p (disk w)). Qed.

Lemma with_disk_id w : with_disk w (disk w) = w.
Proof. by destruct w. Qed.

Lemma keeps_dirs_bind {A B} (m : M A) (k : A → M B) :
  keeps_dirs m → (∀ a, keeps_dirs (k a)) → keeps_dirs (m ≫= k).
Proof.
  intros Hm Hk w r w' q Hrun Hq.
  apply bind_inv in Hrun as [(a & w1 & Hm1 & Hk1)|(e & Hm1 & _)].
  - eapply Hk; [done|]. by eapply Hm.
  - by eapply Hm.
Qed.

Lemma keeps_dirs_Fprintf line : keeps_dirs (Fprintf line).
Proof. intros w r w' q Hrun Hq. unfold Fprintf in Hrun. by simplify_eq. Qed.

Lemma Mkdir_inv p w r w' :
  os.Mkdir p w = (r, w') →
  (∃ d, modify mkdir_at p (Some (disk w)) = Ok d ∧ r = Ok tt ∧ w' = with_disk w d) ∨
  (∃ e, modify mkdir_at p (Some (disk w)) = Err e ∧ r = Err e ∧ w' = w).
Proof.
  unfold os.Mkdir.
  destruct (modify _ _ _) as [d|e]; intros; simplify_eq; [left|right]; eauto.
Qed.

Lemma WriteFile_inv p data w r w' :
  ioutil.WriteFile p data w = (r, w') →
  (∃ d, refused w p = false ∧ modify (write_at data) p (Some (disk w)) = Ok d ∧
        r = Ok tt ∧ w' = with_disk w d) ∨
  (∃ e, r = Err e ∧ w' = w).
Proof.
  unfold ioutil.WriteFile. destruct (refused w p) eqn:Hr.
  { intros; simplify_eq; eauto. }
  destruct (modify _ _ _) as [d|e]; intros; simplify_eq; [left|right]; eauto.
Qed.

Lemma keeps_dirs_try_Mkdir p msg : keeps_dirs (try (os.Mkdir p) msg).
Proof.
  intros w r w' q Hrun Hq. unfold try in Hrun.
  destruct (os.Mkdir p w) as [r0 w0] eqn:Hmk.
  assert (is_dir q (disk w0)) as Hq0.
  { apply Mkdir_inv in Hmk as [(d & Hd & _ & ->)|(e & _ & _ & ->)]; [|done].
    destruct Hq as [es Hes]. by eapply modify_keeps_dir; [apply mkdir_at_spares|..]. }
  destruct r0; by simplify_eq.
Qed.

Lemma keeps_dirs_discard_WriteFile p data :
  keeps_dirs (discard (ioutil.WriteFile p data)).
Proof.
  intros w r w' q Hrun Hq. unfold discard in Hrun. simplify_eq.
  destruct (ioutil.WriteFile p data w) as [r0 w0] eqn:Hwr. simpl.
  apply WriteFile_inv in Hwr as [(d & _ & Hd & _ & ->)|(e & _ & ->)]; [|done].
  destruct Hq as [es Hes]. by eapply modify_keeps_dir; [apply write_at_spares|..].
Qed.

Section kepctl_props.
Context `{YamlText, RepoFinder}.

(** The commands written stage by stage are the commands. *)
Lemma InitRelease_by_stage_eq opts w :
  InitRelease opts w = InitRelease_by_stage opts w.
Proof.
  unfold InitRelease, InitRelease_by_stage.
  destruct (findEnhancementsRepo _) as [repoPath|]; [|done].
  apply bind_ext. intros _ w1. unfold initStage.
  repeat (cbv beta; rewrite ?bind_assoc; apply bind_ext; intros ? ?).
  done.
Qed.

Lemma GenerateRelease_by_stage_eq opts w :
  GenerateRelease opts w = GenerateRelease_by_stage opts w.
Proof.
  unfold GenerateRelease, GenerateRelease_by_stage.
  destruct (findEnhancementsRepo _) as [repoPath|]; [|done].
  apply bind_ext. intros err w1. destruct (os.IsNotExist err); [done|].
  unfold collectManifest, scanStage.
  repeat (cbv beta zeta; rewrite ?bind_assoc; apply bind_ext;
          let a := fresh in intros a ?; try destruct a as [? ?]).
  done.
Qed.

Lemma keeps_dirs_initStage opts owners rel arrow label stage :
  keeps_dirs (initStage opts owners rel arrow label stage).
Proof.
  unfold initStage.
  apply keeps_dirs_bind; [apply keeps_dirs_Fprintf|intros _].
  apply keeps_dirs_bind; [apply keeps_dirs_try_Mkdir|intros _].
  apply keeps_dirs_discard_WriteFile.
Qed.

(** A stage that was set up is a directory afterwards. *)
Lemma initStage_Ok_dir opts owners rel arrow label stage w w' :
  initStage opts owners rel arrow label stage w = (Ok tt, w') →
  is_dir (filepath.Join rel [stage]) (disk w').
Proof.
  unfold initStage. intros Hrun.
  apply bind_inv in Hrun as [(? & w1 & Hpr & Hrun)|(e & _ & ?)]; [|done].
  apply bind_inv in Hrun as [([] & w2 & Hmk & Hrun)|(e & _ & ?)]; [|done].
  eapply keeps_dirs_discard_WriteFile; [done|].
  unfold try in Hmk. destruct (os.Mkdir _ w1) as [r0 w0] eqn:Hmk0.
  apply Mkdir_inv in Hmk0 as [(d & Hd & -> & ->)|(e & _ & -> & ->)]; [|done].
  simplify_eq. simpl. eexists. by eapply resolve_mkdir.
Qed.

(** A stage that exists already stops the set-up at [os.Mkdir], with the
    disk as it was. *)
Lemma initStage_exists opts owners rel arrow label stage w :
  is_dir (filepath.Join rel [stage]) (disk w) →
  ∃ w', initStage opts owners rel arrow label stage w =
          (Err (Errorf ("unable to create " +:+ stage +:+ " directory") (Sys EEXIST)), w') ∧
        disk w' = disk w.
Proof.
  intros [es Hes]. unfold initStage.
  eexists. split.
  - erewrite bind_Ok by (unfold Fprintf; reflexivity).
    erewrite bind_Err; [done|].
    unfold try, os.Mkdir. simpl.
    rewrite modify_mkdir_exists; [done|]. by rewrite Hes.
  - done.
Qed.

End kepctl_props.

(** A change below [p] is a change of the subtree at [p]. *)
Lemma modify_app f p q n m m' :
  resolve p n = Ok m →
  modify f q (Some m) = Ok m' →
  ∃ n', modify f (p ++ q) (Some n) = Ok n' ∧ resolve p n' = Ok m'.
Proof.
  revert n. induction p as [|c p IH]; intros n Hp Hq; simpl in *.
  - simplify_eq. eauto.
  - destruct n as [|es]; [done|].
    destruct (es !! c) as [child|] eqn:Hc; [|done].
    destruct (IH child Hp Hq) as (child' & -> & Hr).
    eexists. split; [done|]. simpl. by rewrite lookup_insert_eq.
Qed.

Section init.
Context `{YamlText, RepoFinder}.

(** Setting up a stage that is not there yet. *)
Lemma initStage_fresh opts owners rel arrow label stage w es :
  plain_name stage = true →
  resolve rel (disk w) = Ok (Dir es) →
  es !! stage = None →
  ∃ w', initStage opts owners rel arrow label stage w = (Ok tt, w') ∧
        refused w' = refused w ∧
        resolve rel (disk w') =
          Ok (Dir (<[stage := Dir (seeded w owners (rel ++ [stage; "OWNERS"]))]> es)).
Proof.
  intros Hplain Hrel Hfresh. unfold initStage.
  rewrite !Join_plain by done. rewrite <-app_assoc. simpl.
  erewrite bind_Ok by (unfold Fprintf; reflexivity).
  destruct (modify_app mkdir_at rel [stage] (disk w) (Dir es)
              (Dir (<[stage:=Dir ∅]> es)) Hrel) as (d1 & Hd1 & Hrel1).
  { simpl. by rewrite Hfresh. }
  erewrite bind_Ok; last first.
  { unfold try, os.Mkdir. simpl. by rewrite Hd1. }
  unfold discard, save, ioutil.WriteFile, seeded. simpl.
  destruct (refused w (rel ++ [stage; "OWNERS"])) eqn:Hr; simpl.
  { eexists. split; [done|]. by split. }
  destruct (modify_app (write_at (yaml.Marshal_ownersFile owners)) rel
              [stage; "OWNERS"] d1 _
              (Dir (<[stage:=Dir {["OWNERS" := File (yaml.Marshal_ownersFile owners)]}]> es))
              Hrel1) as (d2 & Hd2 & Hrel2).
  { simpl. rewrite lookup_insert_eq. simpl. rewrite lookup_empty. simpl.
    by rewrite insert_insert_eq, insert_empty. }
  rewrite Hd2. simpl. eexists. split; [done|]. by split.
Qed.

Lemma MkdirAll_inv p w r w' :
  os.MkdirAll p w = (r, w') →
  (∃ d, mkdir_all p (Some (disk w)) = Ok d ∧ r = Ok tt ∧ w' = with_disk w d) ∨
  (∃ e, r = Err e ∧ w' = w).
Proof.
  unfold os.MkdirAll.
  destruct (mkdir_all _ _) as [d|e]; intros; simplify_eq; [left|right]; eauto.
Qed.

(** After a successful [InitRelease] the release root and its [accepted]
    stage are directories. *)
Lemma InitRelease_Ok_dirs opts repoPath w w' :
  findEnhancementsRepo (InitReleaseOpts.CommonArgs opts) = Ok repoPath →
  InitRelease opts w = (Ok tt, w') →
  let releasePath := releasePath_of repoPath (InitReleaseOpts.ReleaseSemver opts) in
  is_dir releasePath (disk w') ∧
  is_dir (filepath.Join releasePath ["accepted"]) (disk w').
Proof.
  intros Hrepo Hrun releasePath.
  rewrite InitRelease_by_stage_eq in Hrun.
  unfold InitRelease_by_stage in Hrun. rewrite Hrepo in Hrun.
  fold releasePath in Hrun.
  apply bind_inv in Hrun as [([] & w1 & Hmk & Hrun)|(e & _ & ?)]; [|done].
  apply bind_inv in Hrun as [([] & w2 & Hacc & Hrun)|(e & _ & ?)]; [|done].
  assert (is_dir releasePath (disk w2) ∧
          is_dir (filepath.Join releasePath ["accepted"]) (disk w2)) as [Hr2 Ha2].
  { split; [|by eapply initStage_Ok_dir].
    eapply keeps_dirs_initStage; [done|].
    unfold try in Hmk. destruct (os.MkdirAll _ w) as [r0 w0] eqn:Hmk0.
    apply MkdirAll_inv in Hmk0 as [(d & Hd & -> & ->)|(e & -> & ->)]; [|done].
    simplify_eq. simpl. eexists. by eapply resolve_mkdir_all. }
  assert (keeps_dirs
    (initStage opts (owners_of opts) releasePath "===>" "exception" "exception";;
     initStage opts (owners_of opts) releasePath "===>" "proposed" "proposed";;
     initStage opts (owners_of opts) releasePath "===> " "at risk" "at-risk";;
     initStage opts (owners_of opts) releasePath "===> " "removed" "removed";;
     (mret tt : M unit))) as Hrest.
  { repeat (apply keeps_dirs_bind; [apply keeps_dirs_initStage|intros _]).
    intros ???? Hret ?. unfold mret, M_ret, ret in Hret. by simplify_eq. }
  split; by eapply Hrest.
Qed.

(** ** Re-initialising a release *)

(** C5. On a release that [InitRelease] has set up, [InitRelease] for the
    same version returns an error (the [accepted] directory exists already)
    and leaves the whole disk, hence every stage directory and its
    contents, as it was. *)
Theorem InitRelease_again opts opts' repoPath w w' :
  findEnhancementsRepo (InitReleaseOpts.CommonArgs opts) = Ok repoPath →
  findEnhancementsRepo (InitReleaseOpts.CommonArgs opts') = Ok repoPath →
  InitReleaseOpts.ReleaseSemver opts' = InitReleaseOpts.ReleaseSemver opts →
  InitRelease opts w = (Ok tt, w') →
  ∃ w'', InitRelease opts' w' =
           (Err (Errorf "unable to create accepted directory" (Sys EEXIST)), w'') ∧
         disk w'' = disk w'.
Proof.
  intros Hrepo Hrepo' Hver Hrun.
  destruct (InitRelease_Ok_dirs _ _ _ _ Hrepo Hrun) as [Hrel Hacc].
  rewrite InitRelease_by_stage_eq. unfold InitRelease_by_stage.
  rewrite Hrepo', Hver.
  fold (releasePath_of repoPath (InitReleaseOpts.ReleaseSemver opts)).
  set (releasePath := releasePath_of _ _) in *.
  erewrite bind_Ok; last first.
  { unfold try, os.MkdirAll. rewrite mkdir_all_dir by done.
    by rewrite with_disk_id. }
  destruct (initStage_exists opts' (owners_of opts') releasePath "===>" "accepted"
              "accepted" w' Hacc) as (w'' & Hstage & Hdisk).
  exists w''. split; [|done]. by erewrite bind_Err.
Qed.

Lemma seeded_refused w w' owners p :
  refused w' = refused w → seeded w' owners p = seeded w owners p.
Proof. unfold seeded. by intros ->. Qed.

Lemma read_dir_seeded w owners p q d es :
  resolve q d = Ok (Dir es) →
  ∀ stage, es !! stage = Some (Dir (seeded w owners p)) →
  read_dir (q ++ [stage]) d = Ok (if refused w p then [] else ["OWNERS"]).
Proof.
  intros Hq stage Hs. unfold read_dir. rewrite resolve_app, Hq. simpl.
  rewrite Hs. unfold seeded. destruct (refused w p).
  - by rewrite map_to_list_empty.
  - by rewrite map_to_list_singleton.
Qed.

(** ** Ownership files that cannot be written *)

(** C9. [InitRelease] on a release whose stage directories do not exist yet
    returns success whatever becomes of the OWNERS files: a stage whose
    OWNERS file the environment refuses to write is left as an empty
    directory, and the layout is completed all the same. *)
Theorem InitRelease_swallows_save_failure opts repoPath w :
  findEnhancementsRepo (InitReleaseOpts.CommonArgs opts) = Ok repoPath →
  let releasePath := releasePath_of repoPath (InitReleaseOpts.ReleaseSemver opts) in
  is_ok (mkdir_all releasePath (Some (disk w))) = true →
  (∀ stage, stage ∈ release_stages →
     is_ok (resolve (releasePath ++ [stage]) (disk w)) = false) →
  ∃ w', InitRelease opts w = (Ok tt, w') ∧
        ∀ stage, stage ∈ release_stages →
          read_dir (releasePath ++ [stage]) (disk w') =
          Ok (if refused w (releasePath ++ [stage; "OWNERS"]) then [] else ["OWNERS"]).
Proof.
  intros Hrepo releasePath Hmk Hfresh.
  destruct (mkdir_all releasePath (Some (disk w))) as [d0|] eqn:Hd0; [|done].
  pose proof (resolve_mkdir_all _ _ _ Hd0) as Hrel0. simpl in Hrel0.
  set (es0 := entries_of _) in Hrel0.
  assert (∀ stage, stage ∈ release_stages → es0 !! stage = None) as Hes0.
  { intros stage Hin. specialize (Hfresh stage Hin).
    rewrite resolve_app in Hfresh. subst es0.
    destruct (resolve releasePath (disk w)) as [[|es]|]; simpl in *;
      try apply lookup_empty.
    by destruct (es !! stage). }
  rewrite InitRelease_by_stage_eq. unfold InitRelease_by_stage. rewrite Hrepo.
  fold (releasePath_of repoPath (InitReleaseOpts.ReleaseSemver opts)).
  fold releasePath.
  erewrite bind_Ok; last first.
  { unfold try, os.MkdirAll. by rewrite Hd0. }
  set (owners := owners_of opts).
  destruct (initStage_fresh opts owners releasePath "===>" "accepted" "accepted"
              (with_disk w d0) es0) as (w1 & Hrun1 & Hr1 & Hrel1);
    [done|done|apply Hes0; set_solver|].
  erewrite bind_Ok by exact Hrun1.
  destruct (initStage_fresh opts owners releasePath "===>" "exception" "exception"
              w1 _ eq_refl Hrel1) as (w2 & Hrun2 & Hr2 & Hrel2).
  { rewrite lookup_insert_ne by done. apply Hes0; set_solver. }
  erewrite bind_Ok by exact Hrun2.
  destruct (initStage_fresh opts owners releasePath "===>" "proposed" "proposed"
              w2 _ eq_refl Hrel2) as (w3 & Hrun3 & Hr3 & Hrel3).
  { rewrite !lookup_insert_ne by done. apply Hes0; set_solver. }
  erewrite bind_Ok by exact Hrun3.
  destruct (initStage_fresh opts owners releasePath "===> " "at risk" "at-risk"
              w3 _ eq_refl Hrel3) as (w4 & Hrun4 & Hr4 & Hrel4).
  { rewrite !lookup_insert_ne by done. apply Hes0; set_solver. }
  erewrite bind_Ok by exact Hrun4.
  destruct (initStage_fresh opts owners releasePath "===> " "removed" "removed"
              w4 _ eq_refl Hrel4) as (w5 & Hrun5 & Hr5 & Hrel5).
  { rewrite !lookup_insert_ne by done. apply Hes0; set_solver. }
  erewrite bind_Ok by exact Hrun5.
  exists w5. split; [done|].
  rewrite Hr4, Hr3, Hr2 in *. simpl in Hr1.
  rewrite (seeded_refused w w4), (seeded_refused w w3), (seeded_refused w w2),
    (seeded_refused w w1), (seeded_refused w (with_disk w d0)) in Hrel5
    by (done || congruence).
  intros stage Hin. eapply read_dir_seeded; [exact Hrel5|].
  unfold release_stages in Hin.
  repeat (apply elem_of_cons in Hin as [->|Hin]);
    [by simplify_map_eq..|by apply elem_of_nil in Hin].
Qed.

End init.

(** ** Decoding a record *)

Module content_facts.
Import releaseContent.

Example field_of_key_folds :
  field_of_key "sig" = Some FSIG ∧ field_of_key "SIG" = Some FSIG ∧
  field_of_key "Stage" = Some FStage ∧ field_of_key "KEP" = Some FNumber ∧
  field_of_key "owner" = None ∧ field_of_key "" = None.
Proof. by repeat split. Qed.

Lemma field_of_key_key f : field_of_key (key f) = Some f.
Proof. by destruct f. Qed.

Lemma key_inj f g : key f = key g → f = g.
Proof.
  intros Hk. pose proof (field_of_key_key f) as Hf.
  rewrite Hk, field_of_key_key in Hf. congruence.
Qed.

Lemma get_set f v r : get f (set f v r) = v.
Proof. by destruct f. Qed.

Lemma get_set_ne f g v r : f ≠ g → get f (set g v r) = get f r.
Proof. by destruct f, g. Qed.

(** A record is its five fields. *)
Lemma content_ext r1 r2 : (∀ f, get f r1 = get f r2) → r1 = r2.
Proof.
  intros Hget. destruct r1, r2.
  pose proof (Hget FNumber). pose proof (Hget FLink). pose proof (Hget FSIG).
  pose proof (Hget FStage). pose proof (Hget FIssue). simpl in *. congruence.
Qed.

(** Whether the members decode does not depend on the record decoded into. *)
Lemma decode_fields_error fields c c' e :
  decode_fields fields c = Err e → decode_fields fields c' = Err e.
Proof.
  revert c c'. induction fields as [|[k v] fields IH]; intros c c'; simpl; [done|].
  destruct (field_of_key k) as [f|]; [|apply IH].
  destruct v; try done; apply IH.
Qed.

Lemma from_json_error j c c' e :
  from_json j c = Err e → from_json j c' = Err e.
Proof. destruct j; simpl; try done. apply decode_fields_error. Qed.

(** A field that no member names keeps its value, whatever the other
    members are. *)
Lemma decode_fields_absent fields c r f :
  decode_fields fields c = Ok r →
  Forall (λ k, field_of_key k ≠ Some f) fields.*1 →
  get f r = get f c.
Proof.
  revert c. induction fields as [|[k v] fields IH]; intros c Hd Hf; simpl in *.
  { by simplify_eq. }
  apply Forall_cons in Hf as [Hne Hf].
  destruct (field_of_key k) as [f0|] eqn:Hk; [|by apply IH].
  destruct v; try done; [by apply IH|].
  rewrite (IH _ Hd Hf). apply get_set_ne. congruence.
Qed.

(** Decoding text members whose keys are tags as written: a field whose
    tag is absent keeps its value, a field whose tag is there (once) takes
    the value given. *)
Lemma decode_fields_text fields c :
  Forall text_valued fields →
  Forall exact_key fields →
  ∃ r, decode_fields fields c = Ok r ∧
       (∀ f, key f ∉ fields.*1 → get f r = get f c) ∧
       (NoDup fields.*1 → ∀ f s, (key f, JString s) ∈ fields → get f r = s).
Proof.
  intros Hall Hexact. revert c.
  induction Hall as [|[k v] fields [s0 Hv] Hall IH]; intros c; simpl in *.
  { exists c. split; [done|]. split; [done|].
    intros _ f s Hin. by apply elem_of_nil in Hin. }
  apply Forall_cons in Hexact as [Hk0 Hexact]. specialize (IH Hexact).
  subst v. destruct (field_of_key k) as [f0|] eqn:Hk.
  - pose proof (Hk0 f0 Hk) as Hkey. simpl in Hkey. subst k.
    destruct (IH (set f0 s0 c)) as (r & Hr & Habs & Hpres).
    exists r. split; [done|]. split.
    + intros f Hf. apply not_elem_of_cons in Hf as [Hne Hf].
      rewrite Habs by done. apply get_set_ne. congruence.
    + intros Hnd f s Hin. apply NoDup_cons in Hnd as [Hfresh Hnd].
      apply elem_of_cons in Hin as [Heq|Hin]; [|by apply Hpres].
      injection Heq as Hkey ->. apply key_inj in Hkey as ->.
      rewrite Habs by done. apply get_set.
  - destruct (IH c) as (r & Hr & Habs & Hpres).
    exists r. split; [done|]. split.
    + intros f Hf. apply not_elem_of_cons in Hf as [_ Hf]. by apply Habs.
    + intros Hnd f s Hin. apply NoDup_cons in Hnd as [_ Hnd].
      apply elem_of_cons in Hin as [Heq|Hin]; [|by apply Hpres].
      injection Heq as <- _. by rewrite field_of_key_key in Hk.
Qed.

(** The members [json.Marshal] writes for a record are text, under the
    tags as written, each tag once. *)
Lemma to_json_members r :
  ∃ fields, to_json r = JObject fields ∧
            NoDup fields.*1 ∧ Forall text_valued fields ∧ Forall exact_key fields ∧
            Forall (λ kv, tag_like kv.1 = true) fields ∧
            (∀ f, f ≠ FNumber → (key f, JString (get f r)) ∈ fields) ∧
            (Number r ≠ "" → (key FNumber, JString (Number r)) ∈ fields) ∧
            (Number r = "" → key FNumber ∉ fields.*1).
Proof.
  assert (∀ k, k ∈ ["kep"; "link"; "sig"; "stage"; "issue"] →
               ∀ v, exact_key (k, v)) as Hexact.
  { intros k Hin v f Hf. simpl in *.
    repeat (apply elem_of_cons in Hin as [->|Hin]);
      [vm_compute in Hf; by injection Hf as <-..|].
    by apply elem_of_nil in Hin. }
  unfold to_json, omitempty_string. eexists. split; [done|].
  destruct (decide (Number r = "")) as [Hn|Hn]; simpl.
  - split; [nodup_list|].
    split; [repeat (apply Forall_cons; split; [by eexists|]); apply Forall_nil_2|].
    split; [repeat (apply Forall_cons; split; [apply Hexact; in_list|]);
            apply Forall_nil_2|].
    split; [by repeat constructor|].
    split; [intros [] Hf; try done; in_list|]. split; [done|].
    intros _. not_in_list.
  - split; [nodup_list|].
    split; [repeat (apply Forall_cons; split; [by eexists|]); apply Forall_nil_2|].
    split; [repeat (apply Forall_cons; split; [apply Hexact; in_list|]);
            apply Forall_nil_2|].
    split; [by repeat constructor|].
    split; [intros [] Hf; try done; in_list|]. split; [intros _; in_list|done].
Qed.

End content_facts.

Section scan.
Context `{YamlText, RepoFinder}.

Lemma Unmarshal_error b c c' e :
  yaml.Unmarshal b c = Err e → yaml.Unmarshal b c' = Err e.
Proof.
  unfold yaml.Unmarshal. destruct (YAMLToJSON b); [|done].
  apply content_facts.from_json_error.
Qed.

(** One turn of the loop, spelled out. *)
Lemma scanFiles_cons stage stagePath file files content keps w :
  scanFiles stage stagePath (file :: files) content keps w =
  if strings.HasSuffix file ".yaml" then
    match read_file (filepath.Join stagePath [file]) (disk w) with
    | Err x => (Err (Errorf ("error reading " +:+ stage +:+ " KEP") (Sys x)), w)
    | Ok b =>
        match yaml.Unmarshal b content with
        | Err e => (Err (Errorf ("error loading " +:+ stage +:+ " KEP") e), w)
        | Ok content =>
            let content :=
              releaseContent.set releaseContent.FNumber (kep_number file) content in
            scanFiles stage stagePath files content (keps ++ [content]) w
        end
    end
  else scanFiles stage stagePath files content keps w.
Proof.
  simpl. destruct (strings.HasSuffix file ".yaml"); simpl; [|done].
  unfold mbind, M_bind, bind, try, ioutil.ReadFile.
  destruct (read_file _ _) as [b|x]; [|done].
  by destruct (yaml.Unmarshal b content).
Qed.

Lemma scanStage_unfold releasePath stage content w :
  scanStage releasePath stage content w =
  match read_dir (filepath.Join releasePath [stage]) (disk w) with
  | Err x => (Err (Errorf ("unable to read " +:+ stage +:+ " metadata") (Sys x)), w)
  | Ok files => scanFiles stage (filepath.Join releasePath [stage]) files content [] w
  end.
Proof.
  unfold scanStage, mbind, M_bind, bind, try, ioutil.ReadDir.
  by destruct (read_dir _ _).
Qed.

(** Scanning only reads. *)
Lemma scanFiles_world stage stagePath files content keps w :
  (scanFiles stage stagePath files content keps w).2 = w.
Proof.
  revert content keps. induction files as [|file files IH]; intros content keps.
  { done. }
  rewrite scanFiles_cons.
  destruct (strings.HasSuffix _ _); [|apply IH].
  destruct (read_file _ _) as [b|x]; [|done].
  destruct (yaml.Unmarshal b content); [apply IH|done].
Qed.

Lemma scanStage_world releasePath stage content w :
  (scanStage releasePath stage content w).2 = w.
Proof.
  rewrite scanStage_unfold. destruct (read_dir _ _); [|done].
  apply scanFiles_world.
Qed.

Lemma collectManifest_world releasePath w :
  (collectManifest releasePath w).2 = w.
Proof.
  unfold collectManifest, mbind, M_bind, bind.
  pose proof (scanStage_world releasePath "accepted" releaseContent.zero w) as H1.
  destruct (scanStage releasePath "accepted" _ w) as [[[c1 k1]|e1] w1];
    simpl in H1; subst w1; [|done].
  pose proof (scanStage_world releasePath "at-risk" c1 w) as H2.
  destruct (scanStage releasePath "at-risk" _ w) as [[[c2 k2]|e2] w2];
    simpl in H2; subst w2; [|done].
  pose proof (scanStage_world releasePath "removed" c2 w) as H3.
  destruct (scanStage releasePath "removed" _ w) as [[[c3 k3]|e3] w3];
    simpl in H3; subst w3; done.
Qed.

Lemma scanFiles_Err_inv stage stagePath files content keps w e w' :
  scanFiles stage stagePath files content keps w = (Err e, w') →
  ∃ file, file ∈ files ∧ strings.HasSuffix file ".yaml" = true ∧
    ((∃ x, read_file (filepath.Join stagePath [file]) (disk w) = Err x ∧
           e = Errorf ("error reading " +:+ stage +:+ " KEP") (Sys x)) ∨
     (∃ b ce, read_file (filepath.Join stagePath [file]) (disk w) = Ok b ∧
              yaml.Unmarshal b releaseContent.zero = Err ce ∧
              e = Errorf ("error loading " +:+ stage +:+ " KEP") ce)).
Proof.
  revert content keps. induction files as [|file files IH]; intros content keps.
  { done. }
  rewrite scanFiles_cons.
  assert (∀ c k, scanFiles stage stagePath files c k w = (Err e, w') →
    ∃ file0, file0 ∈ file :: files ∧ strings.HasSuffix file0 ".yaml" = true ∧
    ((∃ x, read_file (filepath.Join stagePath [file0]) (disk w) = Err x ∧
           e = Errorf ("error reading " +:+ stage +:+ " KEP") (Sys x)) ∨
     (∃ b ce, read_file (filepath.Join stagePath [file0]) (disk w) = Ok b ∧
              yaml.Unmarshal b releaseContent.zero = Err ce ∧
              e = Errorf ("error loading " +:+ stage +:+ " KEP") ce))) as Hrest.
  { intros c k (file0 & Hin & Hrest)%IH. exists file0. split; [by right|done]. }
  destruct (strings.HasSuffix file ".yaml") eqn:Hyaml; [|apply Hrest].
  destruct (read_file _ _) as [b|x] eqn:Hread.
  - destruct (yaml.Unmarshal b content) as [c1|ce] eqn:Hdec; [apply Hrest|].
    intros [= <- <-]. exists file. split; [by left|]. split; [done|].
    right. exists b, ce. split; [done|]. split; [|done].
    by eapply Unmarshal_error.
  - intros [= <- <-]. exists file. split; [by left|]. split; [done|].
    left. by exists x.
Qed.

Lemma scanFiles_Ok_inv stage stagePath files content keps w r w' file :
  scanFiles stage stagePath files content keps w = (Ok r, w') →
  file ∈ files → strings.HasSuffix file ".yaml" = true →
  ∃ b, read_file (filepath.Join stagePath [file]) (disk w) = Ok b ∧
       is_ok (yaml.Unmarshal b releaseContent.zero) = true.
Proof.
  revert content keps. induction files as [|file0 files IH]; intros content keps.
  { intros _ Hin. by apply elem_of_nil in Hin. }
  rewrite scanFiles_cons. intros Hrun Hin Hyaml. revert Hrun.
  apply elem_of_cons in Hin as [->|Hin].
  - rewrite Hyaml.
    destruct (read_file _ _) as [b|x]; [|done].
    intros Hrun. exists b. split; [done|].
    destruct (yaml.Unmarshal b releaseContent.zero) as [c0|ce] eqn:Hdec; [done|].
    rewrite (Unmarshal_error _ _ content _ Hdec) in Hrun. discriminate Hrun.
  - destruct (strings.HasSuffix file0 ".yaml"); [|intros; by eapply IH].
    destruct (read_file (filepath.Join stagePath [file0]) (disk w)) as [b|x];
      [|done].
    destruct (yaml.Unmarshal b content); [intros; by eapply IH|done].
Qed.

Lemma scanStage_Err_inv releasePath stage content w e w' :
  scanStage releasePath stage content w = (Err e, w') →
  offends w releasePath stage e.
Proof.
  rewrite scanStage_unfold. unfold offends.
  destruct (read_dir _ _) as [files|x].
  - intros (file & Hin & Hrest)%scanFiles_Err_inv. right. by exists files, file.
  - intros [= <- <-]. left. by exists x.
Qed.

(** What [collectManifest] returns, stage by stage. *)
Lemma collectManifest_inv releasePath w r w' :
  collectManifest releasePath w = (r, w') →
  w' = w ∧
  match r with
  | Ok m =>
      ∃ c1 k1 c2 k2 c3 k3,
        scanStage releasePath "accepted" releaseContent.zero w = (Ok (c1, k1), w) ∧
        scanStage releasePath "at-risk" c1 w = (Ok (c2, k2), w) ∧
        scanStage releasePath "removed" c2 w = (Ok (c3, k3), w) ∧
        m = {| releaseManifest.Proposed := None;
               releaseManifest.Accepted := Some k1;
               releaseManifest.AtRisk := Some k2;
               releaseManifest.Removed := Some k3 |}
  | Err e =>
      ∃ stage content, stage ∈ scanned_stages ∧
        scanStage releasePath stage content w = (Err e, w)
  end.
Proof.
  intros Hrun. split.
  { pose proof (collectManifest_world releasePath w) as Hw. by rewrite Hrun in Hw. }
  revert Hrun. unfold collectManifest, mbind, M_bind, bind.
  pose proof (scanStage_world releasePath "accepted" releaseContent.zero w) as H1.
  destruct (scanStage releasePath "accepted" _ w) as [[[c1 k1]|e1] w1] eqn:E1;
    simpl in H1; subst w1.
  2:{ intros [= <- <-]. exists "accepted", releaseContent.zero.
      split; [set_solver|done]. }
  pose proof (scanStage_world releasePath "at-risk" c1 w) as H2.
  destruct (scanStage releasePath "at-risk" _ w) as [[[c2 k2]|e2] w2] eqn:E2;
    simpl in H2; subst w2.
  2:{ intros [= <- <-]. exists "at-risk", c1. split; [set_solver|done]. }
  pose proof (scanStage_world releasePath "removed" c2 w) as H3.
  destruct (scanStage releasePath "removed" _ w) as [[[c3 k3]|e3] w3] eqn:E3;
    simpl in H3; subst w3.
  2:{ intros [= <- <-]. exists "removed", c2. split; [set_solver|done]. }
  intros [= <- <-]. by exists c1, k1, c2, k2, c3, k3.
Qed.

Lemma scanned_stage_plain stage :
  stage ∈ scanned_stages → plain_name stage = true.
Proof.
  unfold scanned_stages. intros Hin.
  repeat (apply elem_of_cons in Hin as [->|Hin]); try done.
  by apply elem_of_nil in Hin.
Qed.

Lemma read_dir_is_dir p n files : read_dir p n = Ok files → is_dir p n.
Proof.
  unfold read_dir, is_dir. destruct (resolve p n) as [[|es]|]; try done. eauto.
Qed.

Lemma is_dir_parent p q n : is_dir (p ++ q) n → is_dir p n.
Proof.
  intros [es Hes]. rewrite resolve_app in Hes. unfold is_dir.
  destruct (resolve p n) as [[|es0]|]; try done; [|by eauto].
  destruct q; done.
Qed.

(** [GenerateRelease] up to the point where it has the manifest. *)
Lemma GenerateRelease_unfold opts repoPath w :
  findEnhancementsRepo (ReleaseManifestOpts.CommonArgs opts) = Ok repoPath →
  let releasePath := releasePath_of repoPath (ReleaseManifestOpts.ReleaseVersion opts) in
  is_dir releasePath (disk w) →
  GenerateRelease opts w =
  match collectManifest releasePath w with
  | (Ok manifest, _) =>
      match ioutil.WriteFile (filepath.Join releasePath ["manifest.yaml"])
              (manifest_header +:+ yaml.Marshal_releaseManifest manifest) w with
      | (Ok _, w') => (Ok tt, w')
      | (Err x, w') => (Err (Errorf "unable to generate release manifest" (Sys x)), w')
      end
  | (Err e, _) => (Err e, w)
  end.
Proof.
  intros Hrepo releasePath [es Hes].
  rewrite GenerateRelease_by_stage_eq. unfold GenerateRelease_by_stage. rewrite Hrepo.
  fold (releasePath_of repoPath (ReleaseManifestOpts.ReleaseVersion opts)).
  fold releasePath.
  erewrite bind_Ok; last first.
  { unfold capture, os.Stat. rewrite Hes. reflexivity. }
  simpl. unfold mbind, M_bind, bind.
  pose proof (collectManifest_world releasePath w) as Hw.
  destruct (collectManifest releasePath w) as [[m|e] w1]; simpl in Hw; subst w1;
    [|done].
  unfold try. by destruct (ioutil.WriteFile _ _ w) as [[[]|x] w'].
Qed.

(** A [GenerateRelease] that fails has changed nothing: it has one write,
    its last step. *)
Lemma GenerateRelease_Err_world opts w e w' :
  GenerateRelease opts w = (Err e, w') → w' = w.
Proof.
  rewrite GenerateRelease_by_stage_eq. unfold GenerateRelease_by_stage.
  destruct (findEnhancementsRepo _) as [repoPath|msg]; [|by intros [= _ <-]].
  intros [(err & w0 & Hstat & Hrun)|(e0 & Hstat & _)]%bind_inv; last first.
  { rewrite capture_Stat in Hstat. by simplify_eq. }
  rewrite capture_Stat in Hstat. injection Hstat as <- <-.
  destruct (os.IsNotExist _); [by injection Hrun as _ <-|].
  apply bind_inv in Hrun as [(m & w1 & Hcol & Hrun)|(e0 & Hcol & _)]; last first.
  { by apply collectManifest_inv in Hcol as [-> _]. }
  apply collectManifest_inv in Hcol as [-> _].
  apply bind_inv in Hrun as [([] & w2 & Hwr & Hret)|(e0 & Hwr & _)]; [done|].
  unfold try in Hwr.
  destruct (ioutil.WriteFile _ _ w) as [[[]|x] w3] eqn:Hwr0; [done|].
  apply WriteFile_inv in Hwr0 as [(d & _ & _ & ? & _)|(e1 & _ & ->)]; [done|].
  by injection Hwr as _ <-.
Qed.

(** ** A record that does not decode *)

(** C2. When a metadata file in one of the scanned stage directories does
    not decode, [GenerateRelease] returns an error and leaves the world as
    it was: no manifest is written and a manifest that was there stays as
    it is. The error tells a stage in which the scan failed, and how. *)
Theorem GenerateRelease_decode_failure opts repoPath w stage files file b ce :
  findEnhancementsRepo (ReleaseManifestOpts.CommonArgs opts) = Ok repoPath →
  let releasePath := releasePath_of repoPath (ReleaseManifestOpts.ReleaseVersion opts) in
  let stagePath := filepath.Join releasePath [stage] in
  stage ∈ scanned_stages →
  read_dir stagePath (disk w) = Ok files →
  file ∈ files →
  strings.HasSuffix file ".yaml" = true →
  read_file (filepath.Join stagePath [file]) (disk w) = Ok b →
  yaml.Unmarshal b releaseContent.zero = Err ce →
  ∃ e, GenerateRelease opts w = (Err e, w) ∧
       ∃ stage', stage' ∈ scanned_stages ∧ offends w releasePath stage' e.
Proof.
  intros Hrepo releasePath stagePath Hstage Hfiles Hin Hyaml Hread Hdec.
  assert (is_dir releasePath (disk w)) as Hroot.
  { apply read_dir_is_dir in Hfiles. subst stagePath.
    rewrite Join_plain in Hfiles by by apply scanned_stage_plain.
    by eapply is_dir_parent. }
  rewrite (GenerateRelease_unfold _ _ _ Hrepo Hroot). fold releasePath.
  destruct (collectManifest releasePath w) as [[m|e] w1] eqn:Hcol;
    apply collectManifest_inv in Hcol as [-> Hcol].
  - exfalso. destruct Hcol as (c1 & k1 & c2 & k2 & c3 & k3 & H1 & H2 & H3 & _).
    assert (∃ c r, scanStage releasePath stage c w = (Ok r, w)) as (c & r & Hs).
    { unfold scanned_stages in Hstage.
      repeat (apply elem_of_cons in Hstage as [->|Hstage]); eauto.
      by apply elem_of_nil in Hstage. }
    rewrite scanStage_unfold in Hs. fold stagePath in Hs. rewrite Hfiles in Hs.
    destruct (scanFiles_Ok_inv _ _ _ _ _ _ _ _ file Hs Hin Hyaml) as (b' & Hb' & Hok).
    rewrite Hread in Hb'. injection Hb' as <-. by rewrite Hdec in Hok.
  - exists e. split; [done|].
    destruct Hcol as (stage' & c & Hin' & Herr).
    exists stage'. split; [done|]. by eapply scanStage_Err_inv.
Qed.

End scan.

Section generate.
Context `{YamlText, RepoFinder}.

Lemma collectManifest_dir releasePath w m w' :
  collectManifest releasePath w = (Ok m, w') → is_dir releasePath (disk w).
Proof.
  intros (-> & c1 & k1 & _ & _ & _ & _ & H1 & _)%collectManifest_inv.
  rewrite scanStage_unfold, Join_plain in H1 by done.
  destruct (read_dir _ _) as [files|] eqn:Hfiles; [|done].
  eapply is_dir_parent, read_dir_is_dir, Hfiles.
Qed.

(** A successful run: the manifest collected from the disk is what the
    manifest file holds afterwards, and nothing else changed. *)
Lemma GenerateRelease_Ok_inv opts repoPath w w' :
  findEnhancementsRepo (ReleaseManifestOpts.CommonArgs opts) = Ok repoPath →
  GenerateRelease opts w = (Ok tt, w') →
  let releasePath := releasePath_of repoPath (ReleaseManifestOpts.ReleaseVersion opts) in
  ∃ m d,
    collectManifest releasePath w = (Ok m, w) ∧
    refused w (manifestPath_of releasePath) = false ∧
    modify (write_at (manifest_file m)) (manifestPath_of releasePath)
      (Some (disk w)) = Ok d ∧
    w' = with_disk w d.
Proof.
  intros Hrepo Hrun releasePath. rewrite GenerateRelease_by_stage_eq in Hrun.
  unfold GenerateRelease_by_stage in Hrun.
  rewrite Hrepo in Hrun.
  fold (releasePath_of repoPath (ReleaseManifestOpts.ReleaseVersion opts)) in Hrun.
  fold releasePath in Hrun.
  apply bind_inv in Hrun as [(err & w0 & Hstat & Hrun)|(e & _ & ?)]; [|done].
  assert (w0 = w) as ->.
  { unfold capture, os.Stat in Hstat. destruct (resolve _ _); by simplify_eq. }
  destruct (os.IsNotExist err); [done|].
  apply bind_inv in Hrun as [(m & w1 & Hcol & Hrun)|(e & _ & ?)]; [|done].
  pose proof Hcol as [-> _]%collectManifest_inv.
  apply bind_inv in Hrun as [([] & w2 & Hwr & Hret)|(e & _ & ?)]; [|done].
  unfold mret, M_ret, ret in Hret. simplify_eq.
  unfold try in Hwr.
  destruct (ioutil.WriteFile _ _ w) as [[[]|x] w3] eqn:Hwr0; simplify_eq.
  apply WriteFile_inv in Hwr0 as [(d & Href & Hd & _ & ->)|(e & ? & _)]; [|done].
  by exists m, d.
Qed.

Lemma scanFiles_no_yaml stage stagePath files content keps w :
  Forall (λ file, strings.HasSuffix file ".yaml" = false) files →
  scanFiles stage stagePath files content keps w = (Ok (content, keps), w).
Proof.
  induction 1 as [|file files Hfile _ IH]; [done|].
  by rewrite scanFiles_cons, Hfile.
Qed.

(** Writing a file into a directory that is there, at a name that is not a
    directory, goes through. *)
Lemma modify_write_child data p c n :
  is_dir p n → ¬ is_dir (p ++ [c]) n →
  ∃ n', modify (write_at data) (p ++ [c]) (Some n) = Ok n'.
Proof.
  intros [es Hes] Hnd.
  destruct (modify_app (write_at data) p [c] n (Dir es)
              (Dir (<[c:=File data]> es)) Hes) as (n' & Hn' & _); [|by eauto].
  simpl. destruct (es !! c) as [[|es']|] eqn:Hc; try done.
  destruct Hnd. unfold is_dir. rewrite resolve_app, Hes. simpl. rewrite Hc. eauto.
Qed.

(** On a release whose scanned stage directories hold no metadata file,
    [GenerateRelease] succeeds and writes the header followed by the
    manifest whose [proposed] is the nil slice and whose other three lists
    are empty. *)
Lemma GenerateRelease_no_metadata opts repoPath w :
  findEnhancementsRepo (ReleaseManifestOpts.CommonArgs opts) = Ok repoPath →
  let releasePath := releasePath_of repoPath (ReleaseManifestOpts.ReleaseVersion opts) in
  (∀ stage, stage ∈ scanned_stages →
     ∃ files, read_dir (filepath.Join releasePath [stage]) (disk w) = Ok files ∧
              Forall (λ file, strings.HasSuffix file ".yaml" = false) files) →
  refused w (manifestPath_of releasePath) = false →
  ¬ is_dir (manifestPath_of releasePath) (disk w) →
  ∃ w', GenerateRelease opts w = (Ok tt, w') ∧
        read_file (manifestPath_of releasePath) (disk w') =
          Ok (manifest_file empty_manifest).
Proof.
  intros Hrepo releasePath Hstages Href Hnd.
  assert (∀ stage c, stage ∈ scanned_stages →
            scanStage releasePath stage c w = (Ok (c, []), w)) as Hscan.
  { intros stage c (files & Hfiles & Hno)%Hstages.
    rewrite scanStage_unfold, Hfiles. by apply scanFiles_no_yaml. }
  assert (collectManifest releasePath w = (Ok empty_manifest, w)) as Hcol.
  { unfold collectManifest.
    erewrite bind_Ok by (apply Hscan; set_solver). simpl.
    erewrite bind_Ok by (apply Hscan; set_solver). simpl.
    erewrite bind_Ok by (apply Hscan; set_solver). done. }
  pose proof (collectManifest_dir _ _ _ _ Hcol) as Hroot.
  rewrite (GenerateRelease_unfold _ _ _ Hrepo Hroot). fold releasePath.
  rewrite Hcol. unfold manifestPath_of in *. rewrite Join_plain in * by done.
  destruct (modify_write_child (manifest_file empty_manifest) releasePath
              "manifest.yaml" (disk w) Hroot Hnd) as (d & Hd).
  unfold ioutil.WriteFile. rewrite Href. fold (manifest_file empty_manifest).
  rewrite Hd. eexists. split; [done|].
  unfold read_file. simpl. by erewrite resolve_write.
Qed.

(** The [proposed] list of the manifest stays the nil slice, whatever the
    [proposed] directory holds. *)
Lemma collectManifest_Proposed releasePath w m w' :
  collectManifest releasePath w = (Ok m, w') → releaseManifest.Proposed m = None.
Proof.
  by intros (_ & ? & ? & ? & ? & ? & ? & _ & _ & _ & ->)%collectManifest_inv.
Qed.

End generate.

Lemma read_dir_sorted p n files :
  read_dir p n = Ok files → StronglySorted String.le files.
Proof.
  unfold read_dir. destruct (resolve p n) as [[|es]|]; try done.
  intros [= <-]. apply (StronglySorted_merge_sort _).
Qed.

Section generate.
Context `{YamlText, RepoFinder}.

(** The scan of a stage sees the disk only through the files it reads. *)
Lemma scanFiles_frame stage stagePath files content keps w1 w2 :
  (∀ file, file ∈ files →
     read_file (filepath.Join stagePath [file]) (disk w1) =
     read_file (filepath.Join stagePath [file]) (disk w2)) →
  (scanFiles stage stagePath files content keps w1).1 =
  (scanFiles stage stagePath files content keps w2).1.
Proof.
  revert content keps. induction files as [|file files IH]; intros content keps Hsame.
  { done. }
  rewrite !scanFiles_cons.
  assert (∀ c k, (scanFiles stage stagePath files c k w1).1 =
                 (scanFiles stage stagePath files c k w2).1) as Hrest.
  { intros c k. apply IH. intros file0 Hin. apply Hsame. by right. }
  destruct (strings.HasSuffix file ".yaml"); [|apply Hrest].
  rewrite (Hsame file) by by left.
  destruct (read_file _ (disk w2)) as [b|x]; [|done].
  destruct (yaml.Unmarshal b content); [apply Hrest|done].
Qed.

(** The identifiers of a stage follow its listing. *)
Lemma scanFiles_Number stage stagePath files content keps w c' keps' w' :
  scanFiles stage stagePath files content keps w = (Ok (c', keps'), w') →
  releaseContent.Number <$> keps' =
  (releaseContent.Number <$> keps) ++
  (kep_number <$> filter (λ file, strings.HasSuffix file ".yaml" = true) files).
Proof.
  revert content keps. induction files as [|file files IH]; intros content keps.
  { intros [= <- <- <-]. by rewrite app_nil_r. }
  rewrite scanFiles_cons, filter_cons.
  destruct (strings.HasSuffix file ".yaml") eqn:Hyaml.
  - rewrite decide_True by done.
    destruct (read_file _ _) as [b|x]; [|done].
    destruct (yaml.Unmarshal b content) as [c1|]; [|done].
    intros Hrun%IH. rewrite Hrun, fmap_app, <-app_assoc.
    by destruct c1.
  - rewrite decide_False by done. apply IH.
Qed.

Lemma scanned_stage_not_manifest stage :
  stage ∈ scanned_stages → stage ≠ "manifest.yaml".
Proof.
  unfold scanned_stages. intros Hin ->.
  repeat (apply elem_of_cons in Hin as [?|Hin]; [done|]).
  by apply elem_of_nil in Hin.
Qed.

(** A change of the manifest file is not seen by the scan of a stage. *)
Lemma scanStage_frame releasePath stage content f w d :
  stage ∈ scanned_stages →
  plain_listing (disk w) (filepath.Join releasePath [stage]) →
  modify f (manifestPath_of releasePath) (Some (disk w)) = Ok d →
  scanStage releasePath stage content w = 
  ((scanStage releasePath stage content (with_disk w d)).1, w).
Proof.
  intros Hstage Hplain Hd.
  rewrite !scanStage_unfold.
  unfold manifestPath_of in Hd.
  rewrite !Join_plain in * by (done || by apply scanned_stage_plain).
  pose proof (scanned_stage_not_manifest _ Hstage) as Hne.
  cbn [disk with_disk].
  assert (∀ r, resolve (releasePath ++ stage :: r) d =
               resolve (releasePath ++ stage :: r) (disk w)) as Hsame.
  { intros r. by eapply resolve_modify_other. }
  assert (read_dir (releasePath ++ [stage]) d =
          read_dir (releasePath ++ [stage]) (disk w)) as ->.
  { unfold read_dir. by rewrite Hsame. }
  destruct (read_dir _ (disk w)) as [files|x] eqn:Hfiles; [|done].
  rewrite (scanFiles_frame _ _ _ _ _ (with_disk w d) w).
  { pose proof (scanFiles_world stage (releasePath ++ [stage]) files content [] w) as Hw.
    destruct (scanFiles _ _ _ _ _ w). simpl in Hw. by subst. }
  intros file Hin. specialize (Hplain files Hfiles).
  rewrite Forall_forall in Hplain. rewrite Join_plain by by apply Hplain.
  simpl. unfold read_file. rewrite <-app_assoc. simpl. by rewrite Hsame.
Qed.

Lemma scanStage_follows releasePath stage content w c' keps w' :
  scanStage releasePath stage content w = (Ok (c', keps), w') →
  follows_listing (disk w) releasePath stage (Some keps).
Proof.
  rewrite scanStage_unfold.
  destruct (read_dir _ _) as [files|] eqn:Hfiles; [|done].
  intros Hrun%scanFiles_Number. exists files, keps.
  split; [done|]. split; [done|]. split; [|done].
  by eapply read_dir_sorted.
Qed.

(** ** Generating the manifest twice *)

(** C8. After a successful [GenerateRelease], a second [GenerateRelease]
    on the world it left succeeds and leaves that world, and so every byte
    of the manifest file, as it is. The manifest file holds the manifest
    collected from the stage directories, and within each stage the entries
    follow the directory listing, which is in ascending order of the file
    names. *)
Theorem GenerateRelease_twice opts repoPath w w' :
  findEnhancementsRepo (ReleaseManifestOpts.CommonArgs opts) = Ok repoPath →
  let releasePath := releasePath_of repoPath (ReleaseManifestOpts.ReleaseVersion opts) in
  (∀ stage, stage ∈ scanned_stages →
     plain_listing (disk w) (filepath.Join releasePath [stage])) →
  GenerateRelease opts w = (Ok tt, w') →
  GenerateRelease opts w' = (Ok tt, w') ∧
  ∃ m, read_file (manifestPath_of releasePath) (disk w') = Ok (manifest_file m) ∧
       follows_listing (disk w') releasePath "accepted" (releaseManifest.Accepted m) ∧
       follows_listing (disk w') releasePath "at-risk" (releaseManifest.AtRisk m) ∧
       follows_listing (disk w') releasePath "removed" (releaseManifest.Removed m).
Proof.
  intros Hrepo releasePath Hplain Hrun.
  destruct (GenerateRelease_Ok_inv _ _ _ _ Hrepo Hrun) as (m & d & Hcol & Href & Hd & ->).
  fold releasePath in Hcol, Href, Hd.
  pose proof (collectManifest_dir _ _ _ _ Hcol) as Hroot.
  assert (is_dir releasePath d) as Hroot'.
  { destruct Hroot as [es Hes].
    by eapply modify_keeps_dir; [apply write_at_spares|..]. }
  pose proof Hcol
    as (_ & c1 & k1 & c2 & k2 & c3 & k3 & H1 & H2 & H3 & ->)%collectManifest_inv.
  erewrite scanStage_frame in H1; [|set_solver|apply Hplain; set_solver|exact Hd].
  erewrite scanStage_frame in H2; [|set_solver|apply Hplain; set_solver|exact Hd].
  erewrite scanStage_frame in H3; [|set_solver|apply Hplain; set_solver|exact Hd].
  set (w' := with_disk w d) in *.
  assert (∀ stage c r, (scanStage releasePath stage c w').1 = r →
                       scanStage releasePath stage c w' = (r, w')) as Hsw.
  { intros stage c r <-. pose proof (scanStage_world releasePath stage c w') as Hw.
    destruct (scanStage releasePath stage c w') as [r0 w0] eqn:E.
    simpl in *. by rewrite Hw. }
  apply (f_equal fst) in H1, H2, H3. simpl in H1, H2, H3.
  apply Hsw in H1, H2, H3.
  assert (collectManifest releasePath w' =
          (Ok {| releaseManifest.Proposed := None;
                 releaseManifest.Accepted := Some k1;
                 releaseManifest.AtRisk := Some k2;
                 releaseManifest.Removed := Some k3 |}, w')) as Hcol'.
  { unfold collectManifest.
    erewrite bind_Ok by exact H1. simpl.
    erewrite bind_Ok by exact H2. simpl.
    erewrite bind_Ok by exact H3. done. }
  split.
  - rewrite (GenerateRelease_unfold opts repoPath w' Hrepo Hroot'). fold releasePath.
    rewrite Hcol'. unfold ioutil.WriteFile.
    fold (manifestPath_of releasePath). simpl. rewrite Href.
    fold (manifest_file {| releaseManifest.Proposed := None;
                 releaseManifest.Accepted := Some k1;
                 releaseManifest.AtRisk := Some k2;
                 releaseManifest.Removed := Some k3 |}).
    by rewrite (modify_write_twice _ _ _ _ Hd).
  - eexists. split.
    { unfold read_file. simpl. by erewrite resolve_write. }
    split; [exact (scanStage_follows _ _ _ w' _ _ _ H1)|].
    split; [exact (scanStage_follows _ _ _ w' _ _ _ H2)|].
    exact (scanStage_follows _ _ _ w' _ _ _ H3).
Qed.

End generate.

(** ** More on strings *)

Lemma string_app_nil t : "" +:+ t = t.
Proof. done. Qed.

Lemma string_app_cons a s t : String a s +:+ t = String a (s +:+ t).
Proof. done. Qed.

Lemma length_app_string s t :
  String.length (s +:+ t) = String.length s + String.length t.
Proof.
  induction s as [|a s IH]; [done|].
  rewrite string_app_cons. simpl. by rewrite IH.
Qed.

Lemma substring_all s : substring 0 (String.length s) s = s.
Proof. induction s as [|a s IH]; simpl; [done|]. by rewrite IH. Qed.

Lemma substring_app_l s t : substring 0 (String.length s) (s +:+ t) = s.
Proof.
  induction s as [|a s IH].
  - rewrite string_app_nil. by destruct t.
  - rewrite string_app_cons. simpl. by rewrite IH.
Qed.

Lemma substring_app_r s t :
  substring (String.length s) (String.length t) (s +:+ t) = t.
Proof.
  induction s as [|a s IH].
  - rewrite string_app_nil. apply substring_all.
  - rewrite string_app_cons. apply IH.
Qed.

Lemma HasSuffix_app s t : strings.HasSuffix (s +:+ t) t = true.
Proof.
  unfold strings.HasSuffix. rewrite length_app_string.
  replace (String.length s + String.length t - String.length t)
    with (String.length s) by lia.
  rewrite substring_app_r, String.eqb_refl, andb_true_r.
  apply Nat.leb_le. lia.
Qed.

Lemma TrimSuffix_app s t : strings.TrimSuffix (s +:+ t) t = s.
Proof.
  unfold strings.TrimSuffix. rewrite HasSuffix_app, length_app_string.
  replace (String.length s + String.length t - String.length t)
    with (String.length s) by lia.
  apply substring_app_l.
Qed.

Lemma Split_nonempty s sep : strings.Split s sep ≠ [].
Proof.
  induction s as [|a s IH]; simpl; [done|].
  destruct (Ascii.eqb a sep); [done|]. by destruct (strings.Split s sep).
Qed.

(** The part of [<number>.yaml] before the first dot is the number, when
    the number has no dot of its own. *)
Lemma kep_number_fileName s :
  strings.ContainsByte s "." = false → kep_number (s +:+ ".yaml") = s.
Proof.
  unfold kep_number. induction s as [|a s IH]; [done|].
  rewrite string_app_cons. simpl. intros [Ha Hs]%orb_false_iff.
  rewrite Ha. specialize (IH Hs).
  pose proof (Split_nonempty (s +:+ ".yaml") ".") as Hne.
  destruct (strings.Split (s +:+ ".yaml") "."); [done|]. simpl in *. by subst.
Qed.

(** ** The ownership record *)

Lemma foldl_snoc_fmap {A B} (f : A → B) (init : list B) (l : list A) :
  foldl (λ acc x, acc ++ [f x]) init l = init ++ (f <$> l).
Proof.
  revert init. induction l as [|x l IH]; intros init; simpl.
  - by rewrite app_nil_r.
  - by rewrite IH, <-app_assoc.
Qed.

Lemma approvers_of_sorted team leads :
  approvers_of team leads = sort_Strings (rendered_approvers team leads).
Proof.
  unfold approvers_of, rendered_approvers.
  by rewrite !foldl_snoc_fmap.
Qed.

Lemma sort_Strings_Permutation l1 l2 :
  l1 ≡ₚ l2 → sort_Strings l1 = sort_Strings l2.
Proof.
  intros Hperm. apply (StronglySorted_unique String.le).
  - apply (StronglySorted_merge_sort _).
  - apply (StronglySorted_merge_sort _).
  - unfold sort_Strings. by rewrite !merge_sort_Permutation.
Qed.

Section props.
Context `{YamlText, RepoFinder}.

(** C7. The approvers of the ownership record are the team members
    rendered with [// Enhancement Team] followed by the leads rendered with
    [// Release Lead], sorted in ascending order of the rendered strings;
    the reviewers are [release-team] alone; and two option sets that list
    the same people in any order give the same record and the same encoded
    bytes. *)
Theorem owners_of_sorted_deterministic (opts opts' : InitReleaseOpts) :
  InitReleaseOpts.EnhancementTeam opts' ≡ₚ InitReleaseOpts.EnhancementTeam opts →
  InitReleaseOpts.ReleaseLeads opts' ≡ₚ InitReleaseOpts.ReleaseLeads opts →
  let rendered :=
    rendered_approvers (InitReleaseOpts.EnhancementTeam opts)
      (InitReleaseOpts.ReleaseLeads opts) in
  ownersFile.Approvers (owners_of opts) = sort_Strings rendered ∧
  ownersFile.Approvers (owners_of opts) ≡ₚ rendered ∧
  StronglySorted String.le (ownersFile.Approvers (owners_of opts)) ∧
  ownersFile.Reviewers (owners_of opts) = ["release-team"] ∧
  owners_of opts' = owners_of opts ∧
  yaml.Marshal_ownersFile (owners_of opts') = yaml.Marshal_ownersFile (owners_of opts).
Proof.
  intros Hteam Hleads rendered. simpl. rewrite approvers_of_sorted. fold rendered.
  split; [done|]. split; [apply merge_sort_Permutation|].
  split; [apply (StronglySorted_merge_sort _)|]. split; [done|].
  assert (owners_of opts' = owners_of opts) as ->; [|done].
  unfold owners_of. f_equal. rewrite !approvers_of_sorted.
  apply sort_Strings_Permutation. unfold rendered_approvers.
  by rewrite Hteam, Hleads.
Qed.

(** ** Placing a proposal *)

(** When the release directory is there, [proposeKEP] returns [nil]
    whatever the write did. *)
Lemma proposeKEP_unfold opts repoPath w :
  findEnhancementsRepo (ReleaseOpts.CommonArgs opts) = Ok repoPath →
  let releasePath := releasePath_of repoPath (ReleaseOpts.Release opts) in
  resolve releasePath (disk w) ≠ Err ENOENT →
  ∃ line,
    proposeKEP opts w =
    (Ok tt, with_out (proposal_write releasePath opts w).2 (out w ++ [line])).
Proof.
  intros Hrepo releasePath Hthere. unfold proposeKEP. rewrite Hrepo.
  fold (releasePath_of repoPath (ReleaseOpts.Release opts)). fold releasePath.
  eexists.
  erewrite bind_Ok by apply capture_Stat.
  assert (os.IsNotExist
    match resolve releasePath (disk w) with Ok _ => None | Err e => Some e end
    = false) as ->.
  { destruct (resolve releasePath (disk w)) as [|[]]; done. }
  unfold mbind, M_bind, bind, discard, Fprintf, mret, M_ret, ret. simpl.
  fold (proposedPath_of releasePath opts). fold (proposal_write releasePath opts).
  assert (out (proposal_write releasePath opts w).2 = out w) as ->; [|done].
  unfold proposal_write, ioutil.WriteFile.
  destruct (refused w _); [done|]. by destruct (modify _ _ _).
Qed.

(** [proposeKEP] has no error return after the check of the release
    directory. *)
Lemma proposeKEP_returns_nil opts repoPath w :
  findEnhancementsRepo (ReleaseOpts.CommonArgs opts) = Ok repoPath →
  resolve (releasePath_of repoPath (ReleaseOpts.Release opts)) (disk w) ≠ Err ENOENT →
  (proposeKEP opts w).1 = Ok tt ∧
  ((proposal_write (releasePath_of repoPath (ReleaseOpts.Release opts)) opts w).1 ≠ Ok tt →
   disk (proposeKEP opts w).2 = disk w).
Proof.
  intros Hrepo Hthere.
  destruct (proposeKEP_unfold _ _ _ Hrepo Hthere) as (line & ->).
  split; [done|]. simpl. intros Hfail.
  destruct (proposal_write _ opts w) as [r0 w0] eqn:Hwr.
  apply WriteFile_inv in Hwr as [(d & _ & _ & -> & _)|(e & _ & ->)]; done.
Qed.

(** The codec of a record: what was encoded is what decodes. A record
    without identifier is written without the [kep] member, and decoding
    leaves the identifier of the receiving record as it is. *)
Lemma Unmarshal_Marshal r c :
  (∀ f, releaseContent.get f r ≠ "" ∨ f ≠ releaseContent.FNumber →
        representable (releaseContent.get f r)) →
  yaml.Unmarshal (yaml.Marshal_releaseContent r) c =
  Ok (if decide (releaseContent.Number r = "")
      then releaseContent.set releaseContent.FNumber (releaseContent.Number c) r
      else r).
Proof.
  intros Hrep.
  destruct (content_facts.to_json_members r)
    as (fields & Hjson & Hnd & Htext & Hexact & Htags & Hin & Hkep & Hnokep).
  destruct (YAMLToJSON_JSONToYAML fields Hnd) as (fields' & Hparse & Hperm).
  { apply Forall_forall. intros [k v] Hkv. split.
    { by apply (proj1 (Forall_forall _ _) Htags (k, v)). }
    assert (∃ f, (k, v) = (releaseContent.key f, JString (releaseContent.get f r)) ∧
                 (releaseContent.get f r ≠ "" ∨ f ≠ releaseContent.FNumber))
      as (f & [= -> ->] & Hf).
    { revert Hkv. unfold releaseContent.to_json, omitempty_string in Hjson.
      injection Hjson as <-.
      destruct (decide (releaseContent.Number r = "")) as [Hn|Hn]; simpl; intros Hkv;
        repeat (apply elem_of_cons in Hkv as [->|Hkv]);
        try (by apply elem_of_nil in Hkv).
      - by exists releaseContent.FLink; split; [|right].
      - by exists releaseContent.FSIG; split; [|right].
      - by exists releaseContent.FStage; split; [|right].
      - by exists releaseContent.FIssue; split; [|right].
      - by exists releaseContent.FNumber; split; [|left].
      - by exists releaseContent.FLink; split; [|right].
      - by exists releaseContent.FSIG; split; [|right].
      - by exists releaseContent.FStage; split; [|right].
      - by exists releaseContent.FIssue; split; [|right]. }
    simpl. eexists. split; [done|]. by apply Hrep. }
  unfold yaml.Unmarshal, yaml.Marshal_releaseContent.
  rewrite Hjson, Hparse. simpl.
  destruct (content_facts.decode_fields_text fields' c) as (r' & -> & Habs & Hpres).
  { by rewrite Hperm. }
  { by rewrite Hperm. }
  f_equal. apply content_facts.content_ext. intros f.
  assert (NoDup fields'.*1) as Hnd' by by rewrite Hperm.
  destruct (decide (f = releaseContent.FNumber)) as [->|Hf].
  - destruct (decide (releaseContent.Number r = "")) as [Hn|Hn].
    + rewrite Habs by (rewrite Hperm; by apply Hnokep). by destruct r.
    + apply (Hpres Hnd'). rewrite Hperm. by apply Hkep.
  - rewrite (Hpres Hnd' f (releaseContent.get f r)) by (rewrite Hperm; by apply Hin).
    destruct (decide (releaseContent.Number r = "")); [|done].
    by destruct f.
Qed.

(** C6. When the write of [proposeKEP] goes through, the file it wrote
    decodes, into a fresh record, to the record that was written: the SIG,
    the stage, the issue link and the proposal link of the call, with an
    empty identifier. The identifier of the call is the file name without
    its extension (it is also what [GenerateRelease] takes from the file
    name, the part before the first dot, when the identifier has no dot). *)
Theorem proposeKEP_roundtrip opts repoPath w :
  findEnhancementsRepo (ReleaseOpts.CommonArgs opts) = Ok repoPath →
  let releasePath := releasePath_of repoPath (ReleaseOpts.Release opts) in
  let number := CommonArgs.Number (ReleaseOpts.CommonArgs opts) in
  resolve releasePath (disk w) ≠ Err ENOENT →
  (proposal_write releasePath opts w).1 = Ok tt →
  representable (CommonArgs.SIG (ReleaseOpts.CommonArgs opts)) →
  representable (ReleaseOpts.Stage opts) →
  representable (generateIssueLink (ReleaseOpts.CommonArgs opts)) →
  representable (generateKEPLink (ReleaseOpts.CommonArgs opts)) →
  ∃ w' b r,
    proposeKEP opts w = (Ok tt, w') ∧
    read_file (proposedPath_of releasePath opts) (disk w') = Ok b ∧
    yaml.Unmarshal b releaseContent.zero = Ok r ∧
    r = proposal_of opts ∧
    releaseContent.SIG r = CommonArgs.SIG (ReleaseOpts.CommonArgs opts) ∧
    releaseContent.Stage r = ReleaseOpts.Stage opts ∧
    releaseContent.Issue r = generateIssueLink (ReleaseOpts.CommonArgs opts) ∧
    releaseContent.Link r = generateKEPLink (ReleaseOpts.CommonArgs opts) ∧
    releaseContent.Number r = "" ∧
    strings.TrimSuffix (proposal_fileName opts) ".yaml" = number ∧
    (strings.ContainsByte number "." = false →
     kep_number (proposal_fileName opts) = number).
Proof.
  intros Hrepo releasePath number Hthere Hwrite Hsig Hstage Hissue Hlink.
  destruct (proposeKEP_unfold _ _ _ Hrepo Hthere) as (line & Hrun).
  fold releasePath in Hrun.
  set (b := yaml.Marshal_releaseContent (proposal_of opts)).
  destruct (proposal_write releasePath opts w) as [r0 w0] eqn:Hwr.
  simpl in Hwrite. subst r0.
  apply WriteFile_inv in Hwr as [(d & _ & Hd & _ & ->)|(e & ? & _)]; [|done].
  fold b in Hd.
  exists (with_out (with_disk w d) (out w ++ [line])), b, (proposal_of opts).
  split; [done|]. split.
  { unfold read_file. simpl. by erewrite resolve_write. }
  split.
  { subst b. rewrite Unmarshal_Marshal; [done|].
    intros [] [Hne|Hne]; done. }
  do 6 (split; [done|]).
  split; [apply TrimSuffix_app|apply kep_number_fileName].
Qed.

End props.

Section shared.
Context `{YamlText, RepoFinder}.

(** The loop over a listing is the loop over its first part followed by
    the loop over the rest, with the record and the slice handed on. *)
Lemma scanFiles_app stage stagePath pre rest content keps w :
  scanFiles stage stagePath (pre ++ rest) content keps w =
  match scanFiles stage stagePath pre content keps w with
  | (Ok (c1, k1), _) => scanFiles stage stagePath rest c1 k1 w
  | (Err e, w') => (Err e, w')
  end.
Proof.
  revert content keps. induction pre as [|file pre IH]; intros content keps.
  { done. }
  rewrite <-app_comm_cons, !scanFiles_cons.
  destruct (strings.HasSuffix file ".yaml"); [|apply IH].
  destruct (read_file _ _) as [b|x]; [|done].
  destruct (yaml.Unmarshal b content); [apply IH|done].
Qed.

Lemma scanFiles_last_kept stage stagePath files content keps w c1 k1 w1 :
  last keps = Some content →
  scanFiles stage stagePath files content keps w = (Ok (c1, k1), w1) →
  last k1 = Some c1.
Proof.
  revert content keps. induction files as [|file files IH]; intros content keps Hl.
  { by intros [= <- <- <-]. }
  rewrite scanFiles_cons.
  destruct (strings.HasSuffix file ".yaml"); [|by apply IH].
  destruct (read_file _ _) as [b|x]; [|done].
  destruct (yaml.Unmarshal b content); [|done].
  apply IH. by rewrite last_snoc.
Qed.

(** The record in hand is the entry appended last, once there is one. *)
Lemma scanFiles_last stage stagePath files content keps w c1 k1 w1 :
  scanFiles stage stagePath files content keps w = (Ok (c1, k1), w1) →
  (k1 = keps ∧ c1 = content) ∨ last k1 = Some c1.
Proof.
  revert content keps. induction files as [|file files IH]; intros content keps.
  { intros [= <- <- <-]. by left. }
  rewrite scanFiles_cons.
  destruct (strings.HasSuffix file ".yaml"); [|by apply IH].
  destruct (read_file _ _) as [b|x]; [|done].
  destruct (yaml.Unmarshal b content); [|done].
  intros Hrun. right. eapply scanFiles_last_kept; [|done]. by rewrite last_snoc.
Qed.

(** Entries are only ever appended. *)
Lemma scanFiles_prefix stage stagePath files content keps w c1 k1 w1 :
  scanFiles stage stagePath files content keps w = (Ok (c1, k1), w1) →
  keps `prefix_of` k1.
Proof.
  revert content keps. induction files as [|file files IH]; intros content keps.
  { by intros [= <- <- <-]. }
  rewrite scanFiles_cons.
  destruct (strings.HasSuffix file ".yaml"); [|by apply IH].
  destruct (read_file _ _) as [b|x]; [|done].
  destruct (yaml.Unmarshal b content); [|done].
  intros Hrun%IH. etrans; [|done]. by apply prefix_app_r.
Qed.

(** Within a loop: when the document of a file has no member that names a
    field, the entry appended for the file has in that field what the
    record held when the loop reached the file, which is the entry appended
    just before or, before the first entry of the stage, what the stage was
    entered with. *)
Lemma scanFiles_shares_content
    stage stagePath pre file post content keps w c2 k2 w2 b fields f :
  scanFiles stage stagePath (pre ++ file :: post) content keps w = (Ok (c2, k2), w2) →
  strings.HasSuffix file ".yaml" = true →
  read_file (filepath.Join stagePath [file]) (disk w) = Ok b →
  YAMLToJSON b = Some (JObject fields) →
  Forall (λ k, releaseContent.field_of_key k ≠ Some f) fields.*1 →
  f ≠ releaseContent.FNumber →
  ∃ c1 k1 entry,
    scanFiles stage stagePath pre content keps w = (Ok (c1, k1), w) ∧
    ((k1 = keps ∧ c1 = content) ∨ last k1 = Some c1) ∧
    k2 !! length k1 = Some entry ∧
    releaseContent.Number entry = kep_number file ∧
    releaseContent.get f entry = releaseContent.get f c1.
Proof.
  intros Hrun Hyaml Hread Hparse Habsent Hf.
  rewrite scanFiles_app in Hrun.
  pose proof (scanFiles_world stage stagePath pre content keps w) as Hw.
  destruct (scanFiles stage stagePath pre content keps w) as [[[c1 k1]|e] w1] eqn:Hpre;
    [|done].
  simpl in Hw. subst w1.
  rewrite scanFiles_cons, Hyaml, Hread in Hrun.
  destruct (yaml.Unmarshal b c1) as [c|] eqn:Hdec; [|done].
  simpl in Hrun.
  set (entry := releaseContent.set releaseContent.FNumber (kep_number file) c) in *.
  exists c1, k1, entry. split; [done|].
  split; [by eapply scanFiles_last|].
  split.
  { apply scanFiles_prefix in Hrun as [rest ->].
    rewrite <-app_assoc. by rewrite lookup_app_r, Nat.sub_diag. }
  split; [done|].
  unfold entry. rewrite content_facts.get_set_ne by done.
  unfold yaml.Unmarshal in Hdec. rewrite Hparse in Hdec. simpl in Hdec.
  by eapply content_facts.decode_fields_absent.
Qed.

Lemma default_last_cons {A} (a x : A) l :
  default a (last (x :: l)) = default x (last l).
Proof. rewrite last_cons. by destruct (last l). Qed.

Lemma decoded_in_turn_app n prev files1 entries1 files2 entries2 :
  decoded_in_turn n prev files1 entries1 →
  decoded_in_turn n (default prev (last entries1)) files2 entries2 →
  decoded_in_turn n prev (files1 ++ files2) (entries1 ++ entries2).
Proof.
  revert prev entries1.
  induction files1 as [|[p name] files1 IH]; intros prev [|entry entries1]; simpl;
    try done.
  intros [Hentry Hrest] Hnext. split; [done|]. apply IH; [done|].
  by rewrite default_last_cons in Hnext.
Qed.

Lemma decoded_in_turn_lookup n prev files entries i p name :
  decoded_in_turn n prev files entries →
  files !! i = Some (p, name) →
  ∃ b content entry,
    read_file p n = Ok b ∧
    yaml.Unmarshal b (match i with
                      | 0 => prev
                      | S j => default prev (entries !! j)
                      end) = Ok content ∧
    entries !! i = Some entry ∧
    entry = releaseContent.set releaseContent.FNumber (kep_number name) content.
Proof.
  revert prev entries i.
  induction files as [|[p0 name0] files IH]; intros prev [|entry entries] i; simpl;
    try done.
  intros [(b & content & Hb & Hdec & Hentry) Hrest] Hi.
  destruct i as [|i]; simpl in Hi.
  { simplify_eq. by eexists b, content, _. }
  destruct (IH _ _ _ Hrest Hi) as (b' & content' & entry' & Hb' & Hdec' & Hentry' & ->).
  eexists b', content', _.
  split; [done|]. split; [|done].
  destruct i as [|i]; [done|]. simpl.
  destruct (entries !! i) eqn:Hi'; [done|].
  apply lookup_ge_None in Hi'. apply lookup_lt_Some in Hentry'. lia.
Qed.

(** The loop of a stage decodes its metadata files in turn. *)
Lemma scanFiles_decoded_in_turn stage stagePath files content keps w c' keps' w' :
  scanFiles stage stagePath files content keps w = (Ok (c', keps'), w') →
  ∃ entries,
    keps' = keps ++ entries ∧
    c' = default content (last entries) ∧
    decoded_in_turn (disk w) content
      ((λ file, (filepath.Join stagePath [file], file)) <$>
       filter (λ file, strings.HasSuffix file ".yaml" = true) files)
      entries.
Proof.
  revert content keps. induction files as [|file files IH]; intros content keps.
  { intros [= <- <- <-]. exists []. by rewrite app_nil_r. }
  rewrite scanFiles_cons, filter_cons.
  destruct (strings.HasSuffix file ".yaml") eqn:Hyaml.
  2:{ rewrite decide_False by done. apply IH. }
  rewrite decide_True by done.
  destruct (read_file _ _) as [b|x] eqn:Hread; [|done].
  destruct (yaml.Unmarshal b content) as [c1|] eqn:Hdec; [|done].
  intros (entries & -> & -> & Hrest)%IH.
  eexists (_ :: entries). rewrite <-app_assoc. split; [done|]. split.
  { by rewrite default_last_cons. }
  simpl. split; [by eauto|done].
Qed.

Lemma scanStage_decoded_in_turn releasePath stage content w c' keps w' :
  scanStage releasePath stage content w = (Ok (c', keps), w') →
  c' = default content (last keps) ∧
  decoded_in_turn (disk w) content (stage_metadata (disk w) releasePath stage) keps.
Proof.
  rewrite scanStage_unfold. unfold stage_metadata.
  destruct (read_dir _ _) as [files|]; [|done].
  by intros (entries & -> & -> & Hturn)%scanFiles_decoded_in_turn.
Qed.

(** The entries of the manifest are the metadata files of the run decoded
    in turn, starting from the fresh record. *)
Lemma collectManifest_decoded_in_turn releasePath w m w' :
  collectManifest releasePath w = (Ok m, w') →
  decoded_in_turn (disk w) releaseContent.zero
    (run_metadata (disk w) releasePath) (run_entries m).
Proof.
  intros (_ & c1 & k1 & c2 & k2 & c3 & k3 & H1 & H2 & H3 & ->)%collectManifest_inv.
  apply scanStage_decoded_in_turn in H1 as [-> H1].
  apply scanStage_decoded_in_turn in H2 as [-> H2].
  apply scanStage_decoded_in_turn in H3 as [_ H3].
  unfold run_metadata, run_entries, scanned_stages. simpl. rewrite app_nil_r.
  apply decoded_in_turn_app; [done|].
  by apply decoded_in_turn_app.
Qed.

(** An entry whose file names no member for a field has the field of the
    entry before it. *)
Lemma collectManifest_entry_inherits releasePath w m w' i p name b fields f :
  collectManifest releasePath w = (Ok m, w') →
  run_metadata (disk w) releasePath !! i = Some (p, name) →
  read_file p (disk w) = Ok b →
  YAMLToJSON b = Some (JObject fields) →
  Forall (λ k, releaseContent.field_of_key k ≠ Some f) fields.*1 →
  f ≠ releaseContent.FNumber →
  ∃ entry,
    run_entries m !! i = Some entry ∧
    releaseContent.Number entry = kep_number name ∧
    releaseContent.get f entry =
    releaseContent.get f (entry_before (run_entries m) i).
Proof.
  intros Hrun Hi Hread Hparse Habsent Hf.
  apply collectManifest_decoded_in_turn in Hrun.
  destruct (decoded_in_turn_lookup _ _ _ _ _ _ _ Hrun Hi)
    as (b' & content & entry & Hb' & Hdec & Hentry & ->).
  rewrite Hread in Hb'. injection Hb' as <-.
  eexists. split; [done|]. split; [done|].
  rewrite content_facts.get_set_ne by done.
  unfold yaml.Unmarshal in Hdec. rewrite Hparse in Hdec. simpl in Hdec.
  by rewrite (content_facts.decode_fields_absent _ _ _ _ Hdec Habsent).
Qed.

(** ** One record for all files *)

(** C10. All metadata files of a run of [GenerateRelease] are decoded into
    the one record [content], which is not reset between files or between
    stages. When the document of a file has no member that names a field
    (other than the identifier, which is set from the file name), the entry
    of that file in the manifest written has in that field the value of the
    entry appended before it in the run, the one of the file decoded just
    before (the empty string if the file is the first of the run). So the
    entry is not settled by the bytes and the name of its own file. *)
Theorem manifest_entry_inherits opts repoPath w w' :
  findEnhancementsRepo (ReleaseManifestOpts.CommonArgs opts) = Ok repoPath →
  GenerateRelease opts w = (Ok tt, w') →
  let releasePath := releasePath_of repoPath (ReleaseManifestOpts.ReleaseVersion opts) in
  ∃ m,
    read_file (manifestPath_of releasePath) (disk w') = Ok (manifest_file m) ∧
    ∀ i p name b fields f,
      run_metadata (disk w) releasePath !! i = Some (p, name) →
      read_file p (disk w) = Ok b →
      YAMLToJSON b = Some (JObject fields) →
      Forall (λ k, releaseContent.field_of_key k ≠ Some f) fields.*1 →
      f ≠ releaseContent.FNumber →
      ∃ entry,
        run_entries m !! i = Some entry ∧
        releaseContent.Number entry = kep_number name ∧
        releaseContent.get f entry =
        releaseContent.get f (entry_before (run_entries m) i).
Proof.
  intros Hrepo Hrun releasePath.
  destruct (GenerateRelease_Ok_inv _ _ _ _ Hrepo Hrun) as (m & d & Hcol & _ & Hd & ->).
  fold releasePath in Hcol, Hd.
  exists m. split.
  { unfold read_file. simpl. by erewrite resolve_write. }
  intros i p name b fields f. by eapply collectManifest_entry_inherits.
Qed.

End shared.

(** * Further properties of the commands *)

(** ** What a change of the disk leaves alone *)

Lemma file_at_write_other data p q o n' :
  modify (write_at data) p o = Ok n' → q ≠ p →
  found (read_file q n') = file_at q o.
Proof.
  revert q o n'. induction p as [|c p IH]; intros q o n' Hm Hq; simpl in Hm.
  - destruct o as [[d|es]|]; simpl in Hm; simplify_eq; destruct q; done.
  - destruct o as [[d|es]|]; try done.
    destruct (modify _ p (es !! c)) as [child|] eqn:Hc; [|done].
    injection Hm as <-. destruct q as [|c' q]; [done|].
    unfold file_at, read_file. rewrite !resolve_cons.
    destruct (decide (c' = c)) as [->|Hne].
    + rewrite lookup_insert_eq. simpl.
      assert (q ≠ p) as Hqp by congruence.
      specialize (IH q _ _ Hc Hqp). unfold read_file in IH. rewrite IH.
      by destruct (es !! c).
    + by rewrite lookup_insert_ne.
Qed.

(** A write makes no directory. *)
Lemma dir_at_write data p q o n' :
  modify (write_at data) p o = Ok n' → is_dir q n' → dir_at q o.
Proof.
  revert q o n'. induction p as [|c p IH]; intros q o n' Hm Hq; simpl in Hm.
  - destruct o as [[d|es]|]; simpl in Hm; simplify_eq;
      destruct Hq as [es' Hes']; destruct q; done.
  - destruct o as [[d|es]|]; try done.
    destruct (modify _ p (es !! c)) as [child|] eqn:Hc; [|done].
    injection Hm as <-. destruct q as [|c' q]; [by eexists|].
    simpl. unfold is_dir in *. rewrite resolve_cons in *.
    destruct (decide (c' = c)) as [->|Hne].
    + rewrite lookup_insert_eq in Hq. simpl in Hq.
      specialize (IH q _ _ Hc Hq). by destruct (es !! c).
    + by rewrite lookup_insert_ne in Hq.
Qed.

Lemma differs_at_file_write data p n n' :
  modify (write_at data) p (Some n) = Ok n' → differs_at_file p n n'.
Proof.
  intros Hm. split.
  - intros q Hq. by rewrite (file_at_write_other _ _ _ _ _ Hm Hq).
  - intros q. split.
    + intros Hq. by apply (dir_at_write _ _ _ _ _ Hm Hq).
    + intros [es Hes]. by eapply modify_keeps_dir; [apply write_at_spares|..].
Qed.

Lemma differs_at_file_refl p d : differs_at_file p d d.
Proof. by split. Qed.

Lemma same_outside_refl base d : same_outside base d d.
Proof. by intros ???????. Qed.

Lemma same_outside_trans base d1 d2 d3 :
  same_outside base d1 d2 → same_outside base d2 d3 → same_outside base d1 d3.
Proof.
  intros H12 H23 p c1 c2 r1 r2 Hb Hne.
  by rewrite (H23 _ _ _ _ _ Hb Hne), (H12 _ _ _ _ _ Hb Hne).
Qed.

Lemma same_outside_modify f base q d d' :
  modify f (base ++ q) (Some d) = Ok d' → same_outside base d d'.
Proof.
  intros Hm p c1 c2 r1 r2 -> Hne. rewrite <-app_assoc in Hm. simpl in Hm.
  by eapply resolve_modify_other.
Qed.

Lemma resolve_mkdir_all_other p c1 c2 r1 r2 o n' :
  c1 ≠ c2 →
  mkdir_all (p ++ c2 :: r2) o = Ok n' →
  resolve (p ++ c1 :: r1) n' = resolve_opt (p ++ c1 :: r1) o.
Proof.
  intros Hne. revert o n'. induction p as [|c p IH]; intros o n' Hm.
  - destruct o as [[d|es]|]; simpl in *; try done.
    + destruct (mkdir_all r2 (es !! c2)) as [child|]; [|done].
      injection Hm as <-. simpl. by rewrite lookup_insert_ne.
    + destruct (mkdir_all r2 (∅ !! c2)) as [child|]; [|done].
      injection Hm as <-. simpl. rewrite lookup_insert_ne by done.
      by rewrite lookup_empty.
  - destruct o as [[d|es]|]; simpl in *; try done.
    + destruct (mkdir_all (p ++ c2 :: r2) (es !! c)) as [child|] eqn:Hc; [|done].
      injection Hm as <-. simpl. rewrite lookup_insert_eq.
      rewrite (IH _ _ Hc). by destruct (es !! c).
    + destruct (mkdir_all (p ++ c2 :: r2) (∅ !! c)) as [child|] eqn:Hc; [|done].
      injection Hm as <-. simpl. rewrite lookup_insert_eq.
      rewrite (IH _ _ Hc). by rewrite lookup_empty.
Qed.

Lemma same_outside_mkdir_all base d d' :
  mkdir_all base (Some d) = Ok d' → same_outside base d d'.
Proof.
  intros Hm p c1 c2 r1 r2 -> Hne.
  by rewrite (resolve_mkdir_all_other _ _ _ _ _ _ _ Hne Hm).
Qed.

(** What [os.MkdirAll] finds in the directory it was asked for is what was
    there. *)
Lemma resolve_mkdir_all_child p c n n' :
  mkdir_all p (Some n) = Ok n' →
  is_ok (resolve (p ++ [c]) n') = is_ok (resolve (p ++ [c]) n).
Proof.
  intros Hm. apply resolve_mkdir_all in Hm. rewrite !resolve_app, Hm. simpl.
  destruct (resolve p n) as [[d|es]|e]; simpl; try by rewrite lookup_empty.
  done.
Qed.


(** A write makes nothing go missing. *)
Lemma resolve_write_not_missing data p q o n' :
  modify (write_at data) p o = Ok n' →
  resolve_opt q o ≠ Err ENOENT → resolve q n' ≠ Err ENOENT.
Proof.
  revert q o n'. induction p as [|c p IH]; intros q o n' Hm Hq; simpl in Hm.
  - destruct o as [[d|es]|]; simpl in *; simplify_eq; by destruct q.
  - destruct o as [[d|es]|]; try done.
    destruct (modify _ p (es !! c)) as [child|] eqn:Hc; [|done].
    injection Hm as <-. destruct q as [|c' q]; [done|].
    simpl in Hq. rewrite resolve_cons in *.
    destruct (decide (c' = c)) as [->|Hne].
    + rewrite lookup_insert_eq. simpl. by eapply IH.
    + by rewrite lookup_insert_ne.
Qed.

(** A successful write found no directory in its place. *)
Lemma modify_write_not_dir data p n n' :
  modify (write_at data) p (Some n) = Ok n' → ¬ is_dir p n.
Proof.
  revert n n'. induction p as [|c p IH]; intros n n' Hm [es Hes]; simpl in *.
  - by simplify_eq.
  - destruct n as [|es0]; [done|].
    destruct (es0 !! c) as [m|] eqn:Hc; [|done].
    destruct (modify _ p (Some m)) as [child|] eqn:Hchild; [|done].
    eapply IH; [done|by eexists].
Qed.

Lemma resolve_child_is_ok rel c n :
  is_ok (resolve (rel ++ [c]) n) = true →
  ∃ es, resolve rel n = Ok (Dir es) ∧ is_Some (es !! c).
Proof.
  rewrite resolve_app. destruct (resolve rel n) as [[d|es]|]; simpl; try done.
  destruct (es !! c) eqn:Hc; [|done]. eauto.
Qed.

Lemma resolve_child_missing rel c n es :
  resolve rel n = Ok (Dir es) →
  is_ok (resolve (rel ++ [c]) n) = false → es !! c = None.
Proof.
  intros Hrel. rewrite resolve_app, Hrel. simpl. by destruct (es !! c).
Qed.

Lemma WriteFile_same p data w1 w2 :
  disk w1 = disk w2 → refused w1 = refused w2 →
  (ioutil.WriteFile p data w1).1 = (ioutil.WriteFile p data w2).1 ∧
  disk (ioutil.WriteFile p data w1).2 = disk (ioutil.WriteFile p data w2).2.
Proof.
  intros Hd Hr. unfold ioutil.WriteFile. rewrite Hd, Hr.
  destruct (refused w2 p); [done|]. by destruct (modify _ _ _).
Qed.

Lemma missing_or_not {A} (r : result errno A) : r = Err ENOENT ∨ r ≠ Err ENOENT.
Proof. destruct r as [a|[]]; (by left) || by right. Qed.

(** ** Names and paths *)

Lemma Join_cons p c cs :
  filepath.Join p (c :: cs) = filepath.Join (filepath.Join p [c]) cs.
Proof. unfold filepath.Join. simpl. by rewrite app_nil_r, foldl_app. Qed.

Lemma ContainsByte_app s t c :
  strings.ContainsByte (s +:+ t) c =
  strings.ContainsByte s c || strings.ContainsByte t c.
Proof.
  induction s as [|a s IH]; [done|].
  rewrite string_app_cons. simpl. by rewrite IH, orb_assoc.
Qed.

(** A name with the extension, made from text without a separator, is a
    name a directory entry can have. *)
Lemma plain_name_yaml s :
  strings.ContainsByte s "/" = false → plain_name (s +:+ ".yaml") = true.
Proof.
  intros Hs. unfold plain_name. rewrite ContainsByte_app, Hs. simpl.
  rewrite andb_true_r, !andb_true_iff, !negb_true_iff, !String.eqb_neq.
  assert (5 ≤ String.length (s +:+ ".yaml")) as Hlen.
  { rewrite length_app_string. simpl. lia. }
  repeat split; intros Heq; rewrite Heq in Hlen; simpl in Hlen; lia.
Qed.

(** The first piece of a split has no separator in it. *)
Lemma Split_hd_no_sep s sep :
  strings.ContainsByte (hd "" (strings.Split s sep)) sep = false.
Proof.
  induction s as [|a s IH]; simpl; [done|].
  destruct (Ascii.eqb a sep) eqn:Ha; [done|].
  pose proof (Split_nonempty s sep) as Hne.
  destruct (strings.Split s sep) as [|x xs]; [done|]. simpl in *.
  by rewrite Ha.
Qed.

(** Text after a separator does not change the first piece. *)
Lemma Split_hd_app s t sep :
  hd "" (strings.Split (s +:+ String sep t) sep) = hd "" (strings.Split s sep).
Proof.
  induction s as [|a s IH].
  - rewrite string_app_nil. simpl. by rewrite Ascii.eqb_refl.
  - rewrite string_app_cons. simpl.
    destruct (Ascii.eqb a sep); [done|].
    pose proof (Split_nonempty (s +:+ String sep t) sep) as Hne1.
    pose proof (Split_nonempty s sep) as Hne2.
    destruct (strings.Split (s +:+ String sep t) sep); [done|].
    destruct (strings.Split s sep); [done|]. simpl in *. by subst.
Qed.

Lemma stage_blocks_plain : Forall (λ b, plain_name b.2 = true) stage_blocks.
Proof. by repeat constructor. Qed.

Lemma stage_blocks_stages : stage_blocks.*2 = release_stages.
Proof. done. Qed.

(** ** Decoding, member by member *)

Lemma decode_fields_app l1 l2 c :
  releaseContent.decode_fields (l1 ++ l2) c =
  match releaseContent.decode_fields l1 c with
  | Ok c1 => releaseContent.decode_fields l2 c1
  | Err e => Err e
  end.
Proof.
  revert c. induction l1 as [|[k v] l1 IH]; intros c; simpl; [done|].
  destruct (releaseContent.field_of_key k); [|apply IH].
  destruct v; try done; apply IH.
Qed.

(** The last member that names a field settles it. *)
Lemma decode_fields_last pre k s post c r f :
  releaseContent.decode_fields (pre ++ (k, JString s) :: post) c = Ok r →
  releaseContent.field_of_key k = Some f →
  Forall (λ k', releaseContent.field_of_key k' ≠ Some f) post.*1 →
  releaseContent.get f r = s.
Proof.
  rewrite decode_fields_app.
  destruct (releaseContent.decode_fields pre c) as [c1|]; [|done].
  simpl. intros Hd Hk Hpost. rewrite Hk in Hd.
  rewrite (content_facts.decode_fields_absent _ _ _ _ Hd Hpost).
  apply content_facts.get_set.
Qed.

(** ** Setting up a release *)

Section release_layout.
Context `{YamlText, RepoFinder}.

Lemma InitRelease_by_stages opts repoPath w :
  findEnhancementsRepo (InitReleaseOpts.CommonArgs opts) = Ok repoPath →
  let releasePath := releasePath_of repoPath (InitReleaseOpts.ReleaseSemver opts) in
  InitRelease opts w =
  (try (os.MkdirAll releasePath) "unable to create release directory";;
   initStages opts (owners_of opts) releasePath stage_blocks) w.
Proof.
  intros Hrepo releasePath. rewrite InitRelease_by_stage_eq.
  unfold InitRelease_by_stage. by rewrite Hrepo.
Qed.

Lemma confined_bind {A B} base (m : M A) (k : A → M B) :
  confined base m → (∀ a, confined base (k a)) → confined base (m ≫= k).
Proof.
  intros Hm Hk w r w' Hrun.
  apply bind_inv in Hrun as [(a & w1 & Hm1 & Hk1)|(e & Hm1 & _)].
  - eapply same_outside_trans; [by eapply Hm|by eapply Hk].
  - by eapply Hm.
Qed.

Lemma confined_Fprintf base line : confined base (Fprintf line).
Proof.
  intros w r w' Hrun. unfold Fprintf in Hrun. simplify_eq. apply same_outside_refl.
Qed.

Lemma confined_ret {A} base (a : A) : confined base (mret a : M A).
Proof.
  intros w r w' Hrun. unfold mret, M_ret, ret in Hrun. simplify_eq.
  apply same_outside_refl.
Qed.

Lemma confined_try_Mkdir base q msg : confined base (try (os.Mkdir (base ++ q)) msg).
Proof.
  intros w r w' Hrun. unfold try in Hrun.
  destruct (os.Mkdir _ w) as [r0 w0] eqn:Hmk.
  assert (same_outside base (disk w) (disk w0)) as Hsame.
  { apply Mkdir_inv in Hmk as [(d & Hd & _ & ->)|(e & _ & _ & ->)].
    - by eapply same_outside_modify.
    - apply same_outside_refl. }
  destruct r0; by simplify_eq.
Qed.

Lemma confined_discard_WriteFile base q data :
  confined base (discard (ioutil.WriteFile (base ++ q) data)).
Proof.
  intros w r w' Hrun. unfold discard in Hrun. simplify_eq.
  destruct (ioutil.WriteFile _ data w) as [r0 w0] eqn:Hwr. simpl.
  apply WriteFile_inv in Hwr as [(d & _ & Hd & _ & ->)|(e & _ & ->)].
  - by eapply same_outside_modify.
  - apply same_outside_refl.
Qed.

Lemma confined_try_MkdirAll base msg : confined base (try (os.MkdirAll base) msg).
Proof.
  intros w r w' Hrun. unfold try in Hrun.
  destruct (os.MkdirAll _ w) as [r0 w0] eqn:Hmk.
  assert (same_outside base (disk w) (disk w0)) as Hsame.
  { apply MkdirAll_inv in Hmk as [(d & Hd & _ & ->)|(e & _ & ->)].
    - by eapply same_outside_mkdir_all.
    - apply same_outside_refl. }
  destruct r0; by simplify_eq.
Qed.

(** A stage block works in the directory of its stage. *)
Lemma confined_initStage_stage opts owners rel arrow label stage :
  plain_name stage = true →
  confined (rel ++ [stage]) (initStage opts owners rel arrow label stage).
Proof.
  intros Hplain. unfold initStage. rewrite !Join_plain by done.
  apply confined_bind; [apply confined_Fprintf|intros _].
  apply confined_bind.
  { rewrite <-(app_nil_r (rel ++ [stage])) at 2. apply confined_try_Mkdir. }
  intros _. apply confined_discard_WriteFile.
Qed.

Lemma confined_initStage opts owners rel arrow label stage :
  plain_name stage = true →
  confined rel (initStage opts owners rel arrow label stage).
Proof.
  intros Hplain w r w' Hrun p c1 c2 r1 r2 -> Hne.
  apply (confined_initStage_stage opts owners _ arrow label stage Hplain w r w' Hrun
           p c1 c2 r1 (r2 ++ [stage])); [|done].
  by rewrite <-app_assoc.
Qed.

Lemma confined_initStages opts owners rel blocks :
  Forall (λ b, plain_name b.2 = true) blocks →
  confined rel (initStages opts owners rel blocks).
Proof.
  induction 1 as [|[[arrow label] stage] blocks Hb _ IH]; simpl.
  - apply confined_ret.
  - apply confined_bind; [by apply confined_initStage|by intros _].
Qed.

Lemma keeps_dirs_initStages opts owners rel blocks :
  keeps_dirs (initStages opts owners rel blocks).
Proof.
  induction blocks as [|[[arrow label] stage] blocks IH]; simpl.
  - intros ???? Hret ?. unfold mret, M_ret, ret in Hret. by simplify_eq.
  - apply keeps_dirs_bind; [apply keeps_dirs_initStage|by intros _].
Qed.

(** The stage blocks, run where the stages of the first blocks are
    missing: these blocks go through and leave their directories seeded. *)
Lemma initStages_fresh opts owners rel first rest w es :
  Forall (λ b, plain_name b.2 = true) first →
  NoDup first.*2 →
  resolve rel (disk w) = Ok (Dir es) →
  (∀ s, s ∈ first.*2 → es !! s = None) →
  ∃ w' es',
    initStages opts owners rel (first ++ rest) w = initStages opts owners rel rest w' ∧
    refused w' = refused w ∧
    resolve rel (disk w') = Ok (Dir es') ∧
    ∀ s, es' !! s =
         if decide (s ∈ first.*2)
         then Some (Dir (seeded w owners (rel ++ [s; "OWNERS"])))
         else es !! s.
Proof.
  intros Hplain. revert w es.
  induction Hplain as [|[[arrow label] stage] first Hb _ IH]; intros w es Hnd Hrel Hfresh.
  { exists w, es. split; [done|]. split; [done|]. split; [done|].
    intros s. rewrite decide_False; [done|]. apply not_elem_of_nil. }
  simpl in *. apply NoDup_cons in Hnd as [Hnotin Hnd].
  destruct (initStage_fresh opts owners rel arrow label stage w es Hb Hrel)
    as (w1 & Hrun1 & Hr1 & Hrel1).
  { apply Hfresh. by left. }
  destruct (IH w1 _ Hnd Hrel1) as (w' & es' & Hrun & Hr & Hrel' & Hes').
  { intros s Hs. rewrite lookup_insert_ne by (intros ->; done).
    apply Hfresh. by right. }
  exists w', es'. split.
  { erewrite bind_Ok by exact Hrun1. exact Hrun. }
  split; [congruence|]. split; [done|].
  intros s. rewrite Hes'.
  destruct (decide (s = stage)) as [->|Hne].
  - rewrite decide_False by done. rewrite decide_True by by left.
    by rewrite lookup_insert_eq.
  - rewrite lookup_insert_ne by done.
    destruct (decide (s ∈ first.*2)) as [Hin|Hin].
    + rewrite decide_True by by right. by rewrite (seeded_refused w w1).
    + rewrite decide_False; [done|]. intros [?|?]%elem_of_cons; done.
Qed.

(** A stage whose name is taken stops the set-up at [os.Mkdir]. *)
Lemma initStage_occupied opts owners rel arrow label stage w :
  plain_name stage = true →
  is_ok (resolve (rel ++ [stage]) (disk w)) = true →
  ∃ w', initStage opts owners rel arrow label stage w =
          (Err (Errorf ("unable to create " +:+ stage +:+ " directory") (Sys EEXIST)), w') ∧
        disk w' = disk w.
Proof.
  intros Hplain Hthere. unfold initStage. rewrite !Join_plain by done.
  eexists. split.
  - erewrite bind_Ok by (unfold Fprintf; reflexivity).
    erewrite bind_Err; [done|].
    unfold try, os.Mkdir. simpl. by rewrite modify_mkdir_exists.
  - done.
Qed.

(** A stage that was set up was not there before. *)
Lemma initStage_Ok_free opts owners rel arrow label stage w w' :
  plain_name stage = true →
  initStage opts owners rel arrow label stage w = (Ok tt, w') →
  is_ok (resolve (rel ++ [stage]) (disk w)) = false.
Proof.
  intros Hplain. unfold initStage. rewrite !Join_plain by done. intros Hrun.
  apply bind_inv in Hrun as [(? & w1 & Hpr & Hrun)|(e & _ & ?)]; [|done].
  apply bind_inv in Hrun as [([] & w2 & Hmk & Hrun)|(e & _ & ?)]; [|done].
  unfold Fprintf in Hpr. injection Hpr as _ <-.
  unfold try, os.Mkdir in Hmk. simpl in Hmk.
  destruct (is_ok (resolve (rel ++ [stage]) (disk w))) eqn:Hthere; [|done].
  by rewrite modify_mkdir_exists in Hmk.
Qed.

(** Stage blocks that all went through made directories that were not
    there. *)
Lemma initStages_Ok_inv opts owners rel blocks w w' :
  Forall (λ b, plain_name b.2 = true) blocks →
  NoDup blocks.*2 →
  initStages opts owners rel blocks w = (Ok tt, w') →
  ∀ s, s ∈ blocks.*2 →
    is_ok (resolve (rel ++ [s]) (disk w)) = false ∧ is_dir (rel ++ [s]) (disk w').
Proof.
  intros Hplain. revert w.
  induction Hplain as [|[[arrow label] stage] blocks Hb _ IH]; intros w Hnd Hrun s Hs.
  { by apply elem_of_nil in Hs. }
  simpl in *. apply NoDup_cons in Hnd as [Hnotin Hnd].
  apply bind_inv in Hrun as [([] & w1 & Hrun1 & Hrun)|(e & _ & ?)]; [|done].
  apply elem_of_cons in Hs as [->|Hs].
  - split; [by eapply initStage_Ok_free|].
    eapply keeps_dirs_initStages; [done|].
    rewrite <-(Join_plain rel stage) by done. by eapply initStage_Ok_dir.
  - destruct (IH w1 Hnd Hrun s Hs) as [Hfree Hdir]. split; [|done].
    rewrite <-Hfree. f_equal. symmetry.
    apply (confined_initStage_stage opts owners rel arrow label stage Hb _ _ _ Hrun1
             rel s stage [] []); [done|]. by intros ->.
Qed.

(** [InitRelease] where the release path can be made and the stage names
    are free: the five stage directories are made and seeded, and what else
    was in the release directory stays. *)
Lemma InitRelease_fresh opts repoPath w :
  findEnhancementsRepo (InitReleaseOpts.CommonArgs opts) = Ok repoPath →
  let releasePath := releasePath_of repoPath (InitReleaseOpts.ReleaseSemver opts) in
  is_ok (mkdir_all releasePath (Some (disk w))) = true →
  (∀ stage, stage ∈ release_stages →
     is_ok (resolve (releasePath ++ [stage]) (disk w)) = false) →
  ∃ w' es', InitRelease opts w = (Ok tt, w') ∧
    refused w' = refused w ∧
    resolve releasePath (disk w') = Ok (Dir es') ∧
    ∀ s, es' !! s =
         if decide (s ∈ release_stages)
         then Some (Dir (seeded w (owners_of opts) (releasePath ++ [s; "OWNERS"])))
         else entries_of (found (resolve releasePath (disk w))) !! s.
Proof.
  intros Hrepo releasePath Hmk Hfresh.
  destruct (mkdir_all releasePath (Some (disk w))) as [d0|] eqn:Hd0; [|done].
  pose proof (resolve_mkdir_all _ _ _ Hd0) as Hrel0. simpl in Hrel0.
  set (es0 := entries_of _) in *.
  assert (∀ stage, stage ∈ release_stages → es0 !! stage = None) as Hes0.
  { intros stage Hin. eapply resolve_child_missing; [done|].
    rewrite (resolve_mkdir_all_child _ _ _ _ Hd0). by apply Hfresh. }
  rewrite (InitRelease_by_stages _ _ _ Hrepo). fold releasePath.
  erewrite bind_Ok; last first.
  { unfold try, os.MkdirAll. by rewrite Hd0. }
  destruct (initStages_fresh opts (owners_of opts) releasePath stage_blocks []
              (with_disk w d0) es0 stage_blocks_plain)
    as (w' & es' & Hrun & Hr & Hrel' & Hes'); [nodup_list|done|done|].
  rewrite app_nil_r in Hrun. rewrite Hrun. exists w', es'.
  split; [done|]. split; [done|]. split; [done|].
  intros s. rewrite Hes'. rewrite stage_blocks_stages.
  by destruct (decide (s ∈ release_stages)).
Qed.

Lemma InitRelease_Ok_inv opts repoPath w w' :
  findEnhancementsRepo (InitReleaseOpts.CommonArgs opts) = Ok repoPath →
  InitRelease opts w = (Ok tt, w') →
  let releasePath := releasePath_of repoPath (InitReleaseOpts.ReleaseSemver opts) in
  is_ok (mkdir_all releasePath (Some (disk w))) = true ∧
  ∀ stage, stage ∈ release_stages →
    is_ok (resolve (releasePath ++ [stage]) (disk w)) = false ∧
    is_dir (releasePath ++ [stage]) (disk w').
Proof.
  intros Hrepo Hrun releasePath.
  rewrite (InitRelease_by_stages _ _ _ Hrepo) in Hrun. fold releasePath in Hrun.
  apply bind_inv in Hrun as [([] & w1 & Hmk & Hrun)|(e & _ & ?)]; [|done].
  unfold try in Hmk. destruct (os.MkdirAll _ w) as [r0 w0] eqn:Hmk0.
  apply MkdirAll_inv in Hmk0 as [(d & Hd & -> & ->)|(e & -> & ->)]; [|done].
  injection Hmk as <-. split; [by rewrite Hd|].
  intros stage Hin.
  destruct (initStages_Ok_inv _ _ _ _ _ _ stage_blocks_plain ltac:(nodup_list) Hrun
              stage Hin) as [Hfree Hdir].
  split; [|done]. simpl in Hfree. by rewrite <-(resolve_mkdir_all_child _ _ _ _ Hd).
Qed.

(** What a successful [InitRelease] left. *)
Lemma InitRelease_Ok_dir opts repoPath w w' :
  findEnhancementsRepo (InitReleaseOpts.CommonArgs opts) = Ok repoPath →
  InitRelease opts w = (Ok tt, w') →
  let releasePath := releasePath_of repoPath (InitReleaseOpts.ReleaseSemver opts) in
  ∃ es', refused w' = refused w ∧
    resolve releasePath (disk w') = Ok (Dir es') ∧
    ∀ s, es' !! s =
         if decide (s ∈ release_stages)
         then Some (Dir (seeded w (owners_of opts) (releasePath ++ [s; "OWNERS"])))
         else entries_of (found (resolve releasePath (disk w))) !! s.
Proof.
  intros Hrepo Hrun releasePath.
  destruct (InitRelease_Ok_inv _ _ _ _ Hrepo Hrun) as [Hmk Hstages].
  destruct (InitRelease_fresh _ _ w Hrepo Hmk) as (w0 & es' & Hrun0 & Hrest).
  { intros stage Hin. by apply Hstages. }
  rewrite Hrun in Hrun0. injection Hrun0 as <-. by exists es'.
Qed.

Lemma write_at_seeded data w owners p c :
  write_at data (seeded w owners p !! c) = Ok (File data).
Proof.
  unfold seeded. destruct (refused w p).
  - by rewrite lookup_empty.
  - destruct (decide (c = "OWNERS")) as [->|Hne].
    + by rewrite lookup_singleton_eq.
    + by rewrite lookup_singleton_ne.
Qed.

Lemma read_file_seeded w owners p q d es stage :
  resolve q d = Ok (Dir es) →
  es !! stage = Some (Dir (seeded w owners p)) →
  read_file (q ++ [stage; "OWNERS"]) d =
  if refused w p then Err ENOENT else Ok (yaml.Marshal_ownersFile owners).
Proof.
  intros Hq Hs. unfold read_file. rewrite resolve_app, Hq. simpl.
  rewrite Hs. unfold seeded. destruct (refused w p).
  - by rewrite lookup_empty.
  - by rewrite lookup_singleton_eq.
Qed.

(** X1. [InitRelease] succeeds exactly when the release path can be made
    (no file is on the way to it) and none of the five stage names is taken
    in it. Whether the OWNERS files can be written plays no part. *)
Theorem InitRelease_succeeds_iff opts repoPath w :
  findEnhancementsRepo (InitReleaseOpts.CommonArgs opts) = Ok repoPath →
  let releasePath := releasePath_of repoPath (InitReleaseOpts.ReleaseSemver opts) in
  (InitRelease opts w).1 = Ok tt ↔
  is_ok (mkdir_all releasePath (Some (disk w))) = true ∧
  ∀ stage, stage ∈ release_stages →
    is_ok (resolve (releasePath ++ [stage]) (disk w)) = false.
Proof.
  intros Hrepo releasePath. split.
  - intros Hrun. destruct (InitRelease opts w) as [r w'] eqn:Hrun'.
    simpl in Hrun. subst r.
    destruct (InitRelease_Ok_inv _ _ _ _ Hrepo Hrun') as [Hmk Hstages].
    split; [done|]. intros stage Hin. by apply Hstages.
  - intros [Hmk Hfree].
    destruct (InitRelease_fresh _ _ _ Hrepo Hmk Hfree) as (w' & es' & -> & _). done.
Qed.

(** X2. On a release without stage directories [InitRelease] puts the
    same OWNERS file into each of the five: the encoding of the one
    ownership record. A stage whose OWNERS file the environment refuses has
    none. *)
Theorem InitRelease_seeds_every_stage opts repoPath w :
  findEnhancementsRepo (InitReleaseOpts.CommonArgs opts) = Ok repoPath →
  let releasePath := releasePath_of repoPath (InitReleaseOpts.ReleaseSemver opts) in
  is_ok (mkdir_all releasePath (Some (disk w))) = true →
  (∀ stage, stage ∈ release_stages →
     is_ok (resolve (releasePath ++ [stage]) (disk w)) = false) →
  ∃ w', InitRelease opts w = (Ok tt, w') ∧
        ∀ stage, stage ∈ release_stages →
          read_file (releasePath ++ [stage; "OWNERS"]) (disk w') =
          if refused w (releasePath ++ [stage; "OWNERS"]) then Err ENOENT
          else Ok (yaml.Marshal_ownersFile (owners_of opts)).
Proof.
  intros Hrepo releasePath Hmk Hfresh.
  destruct (InitRelease_fresh _ _ _ Hrepo Hmk Hfresh)
    as (w' & es' & Hrun & _ & Hrel & Hes').
  exists w'. split; [done|]. intros stage Hin.
  eapply read_file_seeded; [done|]. rewrite Hes'. by rewrite decide_True.
Qed.

(** X3. [InitRelease] does not undo what it did when a later stage fails:
    on a release where the stages before [stage] are missing and the name
    of [stage] is taken, it fails at [stage], and the directories of the
    stages before it are there, seeded. *)
Theorem InitRelease_keeps_earlier_stages opts repoPath w earlier stage rest :
  findEnhancementsRepo (InitReleaseOpts.CommonArgs opts) = Ok repoPath →
  let releasePath := releasePath_of repoPath (InitReleaseOpts.ReleaseSemver opts) in
  release_stages = earlier ++ stage :: rest →
  (∀ s, s ∈ earlier → is_ok (resolve (releasePath ++ [s]) (disk w)) = false) →
  is_ok (resolve (releasePath ++ [stage]) (disk w)) = true →
  ∃ w', InitRelease opts w =
          (Err (Errorf ("unable to create " +:+ stage +:+ " directory") (Sys EEXIST)), w') ∧
        ∀ s, s ∈ earlier →
          read_dir (releasePath ++ [s]) (disk w') =
          Ok (if refused w (releasePath ++ [s; "OWNERS"]) then [] else ["OWNERS"]).
Proof.
  intros Hrepo releasePath Hsplit Hfresh Htaken.
  destruct (resolve_child_is_ok _ _ _ Htaken) as (es & Hrel & Hstage).
  rewrite <-stage_blocks_stages in Hsplit.
  apply fmap_app_inv in Hsplit as (bdone & brest & -> & Hrest & Hblocks).
  symmetry in Hrest.
  apply fmap_cons_inv in Hrest as ([[arrow label] stage'] & brest' & Hs & -> & ->).
  simpl in Hs. subst stage'.
  pose proof stage_blocks_plain as Hplain. rewrite Hblocks in Hplain.
  apply Forall_app in Hplain as [Hpd Hpr]. apply Forall_cons in Hpr as [Hps _].
  assert (NoDup (bdone ++ (arrow, label, stage) :: brest').*2) as Hnd.
  { rewrite <-Hblocks. nodup_list. }
  rewrite fmap_app in Hnd. apply NoDup_app in Hnd as (Hnd & Hdisj & _).
  rewrite (InitRelease_by_stages _ _ _ Hrepo). fold releasePath.
  erewrite bind_Ok; last first.
  { unfold try, os.MkdirAll. rewrite mkdir_all_dir by by eexists.
    by rewrite with_disk_id. }
  rewrite Hblocks.
  destruct (initStages_fresh opts (owners_of opts) releasePath bdone
              ((arrow, label, stage) :: brest') w es Hpd Hnd Hrel)
    as (w1 & es1 & Hrun & Hr & Hrel1 & Hes1).
  { intros s Hs. by eapply resolve_child_missing; [|apply Hfresh]. }
  rewrite Hrun. simpl.
  destruct (initStage_occupied opts (owners_of opts) releasePath arrow label stage w1 Hps)
    as (w' & Hfail & Hdisk).
  { rewrite resolve_app, Hrel1. simpl. rewrite Hes1.
    rewrite decide_False; [|intros Hin; eapply Hdisj; [done|by left]].
    by destruct Hstage as [? ->]. }
  exists w'. split; [by erewrite bind_Err|].
  intros s Hs. rewrite Hdisk.
  eapply read_dir_seeded; [done|]. rewrite Hes1. by rewrite decide_True.
Qed.

(** X4. Whatever [InitRelease] does and however it ends, it does it at the
    release path and below: a path that leaves the release path at some
    element (another release, the KEPs of the repository) leads to what it
    led to before. *)
Theorem InitRelease_stays_in_release opts repoPath w :
  findEnhancementsRepo (InitReleaseOpts.CommonArgs opts) = Ok repoPath →
  same_outside (releasePath_of repoPath (InitReleaseOpts.ReleaseSemver opts))
    (disk w) (disk (InitRelease opts w).2).
Proof.
  intros Hrepo.
  rewrite (InitRelease_by_stages _ _ _ Hrepo).
  set (releasePath := releasePath_of _ _).
  assert (confined releasePath
    (try (os.MkdirAll releasePath) "unable to create release directory";;
     initStages opts (owners_of opts) releasePath stage_blocks)) as Hconf.
  { apply confined_bind; [apply confined_try_MkdirAll|intros _].
    apply confined_initStages, stage_blocks_plain. }
  eapply Hconf. apply surjective_pairing.
Qed.

End release_layout.

(** ** Placing a proposal: the disk around the receipt *)

Section receipts.
Context `{YamlText, RepoFinder}.

Lemma proposedPath_plain releasePath opts :
  strings.ContainsByte (CommonArgs.Number (ReleaseOpts.CommonArgs opts)) "/" = false →
  proposedPath_of releasePath opts = releasePath ++ ["proposed"; proposal_fileName opts].
Proof.
  intros Hn. unfold proposedPath_of.
  rewrite Join_cons, !Join_plain by (done || by apply plain_name_yaml).
  by rewrite <-app_assoc.
Qed.

Lemma proposeKEP_missing opts repoPath w :
  findEnhancementsRepo (ReleaseOpts.CommonArgs opts) = Ok repoPath →
  resolve (releasePath_of repoPath (ReleaseOpts.Release opts)) (disk w) = Err ENOENT →
  proposeKEP opts w =
  (Err (Errorf "unable to propose KEP for release: release directory does not exist"
          (Sys ENOENT)), w).
Proof.
  intros Hrepo Hmiss. unfold proposeKEP. rewrite Hrepo.
  fold (releasePath_of repoPath (ReleaseOpts.Release opts)).
  erewrite bind_Ok by apply capture_Stat. by rewrite Hmiss.
Qed.

(** [proposeKEP] past the check of the release directory, with the line
    it prints. *)
Lemma proposeKEP_run opts repoPath w :
  findEnhancementsRepo (ReleaseOpts.CommonArgs opts) = Ok repoPath →
  let releasePath := releasePath_of repoPath (ReleaseOpts.Release opts) in
  resolve releasePath (disk w) ≠ Err ENOENT →
  proposeKEP opts w =
  (Ok tt,
   with_out (proposal_write releasePath opts w).2
     (out w ++ [proposal_line releasePath opts])).
Proof.
  intros Hrepo releasePath Hthere. unfold proposeKEP. rewrite Hrepo.
  fold (releasePath_of repoPath (ReleaseOpts.Release opts)). fold releasePath.
  erewrite bind_Ok by apply capture_Stat.
  assert (os.IsNotExist
    match resolve releasePath (disk w) with Ok _ => None | Err e => Some e end
    = false) as ->.
  { destruct (resolve releasePath (disk w)) as [|[]]; done. }
  unfold mbind, M_bind, bind, discard, Fprintf, mret, M_ret, ret. simpl.
  fold (proposedPath_of releasePath opts). fold (proposal_write releasePath opts).
  assert (out (proposal_write releasePath opts w).2 = out w) as ->; [|done].
  unfold proposal_write, ioutil.WriteFile.
  destruct (refused w _); [done|]. by destruct (modify _ _ _).
Qed.


(** X6. [proposeKEP], however it ends, changes nothing on the disk but the
    receipt file: every other file reads as before, and the directories are
    the same. *)
Theorem proposeKEP_changes_only_receipt opts repoPath w :
  findEnhancementsRepo (ReleaseOpts.CommonArgs opts) = Ok repoPath →
  differs_at_file
    (proposedPath_of (releasePath_of repoPath (ReleaseOpts.Release opts)) opts)
    (disk w) (disk (proposeKEP opts w).2).
Proof.
  intros Hrepo. set (releasePath := releasePath_of _ _).
  destruct (missing_or_not (resolve releasePath (disk w))) as [Hmiss|Hthere].
  { rewrite (proposeKEP_missing _ _ _ Hrepo Hmiss). apply differs_at_file_refl. }
  rewrite (proposeKEP_run _ _ _ Hrepo Hthere).
  fold releasePath. simpl.
  destruct (proposal_write releasePath opts w) as [r0 w0] eqn:Hwr. simpl.
  apply WriteFile_inv in Hwr as [(d & _ & Hd & _ & ->)|(e & _ & ->)].
  - by eapply differs_at_file_write.
  - apply differs_at_file_refl.
Qed.

(** X7. Running [proposeKEP] again with the same options gives the same
    result and leaves the disk as the first run left it: a receipt that is
    there is written over with the same bytes. *)
Theorem proposeKEP_again opts w :
  (proposeKEP opts (proposeKEP opts w).2).1 = (proposeKEP opts w).1 ∧
  disk (proposeKEP opts (proposeKEP opts w).2).2 = disk (proposeKEP opts w).2.
Proof.
  destruct (findEnhancementsRepo (ReleaseOpts.CommonArgs opts)) as [repoPath|msg]
    eqn:Hrepo.
  2:{ unfold proposeKEP. by rewrite Hrepo. }
  set (releasePath := releasePath_of repoPath (ReleaseOpts.Release opts)).
  destruct (missing_or_not (resolve releasePath (disk w))) as [Hmiss|Hthere].
  { rewrite (proposeKEP_missing _ _ _ Hrepo Hmiss). simpl.
    by rewrite (proposeKEP_missing _ _ _ Hrepo Hmiss). }
  rewrite (proposeKEP_run _ _ w Hrepo Hthere). fold releasePath. simpl.
  set (w1 := with_out (proposal_write releasePath opts w).2
               (out w ++ [proposal_line releasePath opts])).
  destruct (proposal_write releasePath opts w) as [r0 w0] eqn:Hwr.
  pose proof Hwr as Hwr0.
  apply WriteFile_inv in Hwr0 as [(d & Href & Hd & -> & ->)|(e & -> & ->)].
  - assert (resolve releasePath (disk w1) ≠ Err ENOENT) as Hthere1.
    { subst w1. simpl. by eapply resolve_write_not_missing. }
    rewrite (proposeKEP_run _ _ w1 Hrepo Hthere1).
    fold releasePath. split; [done|]. subst w1. simpl.
    unfold proposal_write, ioutil.WriteFile. simpl. rewrite Href.
    by rewrite (modify_write_twice _ _ _ _ Hd).
  - assert (resolve releasePath (disk w1) ≠ Err ENOENT) as Hthere1 by done.
    rewrite (proposeKEP_run _ _ w1 Hrepo Hthere1).
    fold releasePath. split; [done|]. subst w1. simpl.
    pose proof (WriteFile_same (proposedPath_of releasePath opts)
      (yaml.Marshal_releaseContent (proposal_of opts))
      (with_out w (out w ++ [proposal_line releasePath opts])) w eq_refl eq_refl)
      as [_ Hdisk].
    fold (proposal_write releasePath opts) in Hdisk.
    rewrite Hdisk. by rewrite Hwr.
Qed.

(** X8. The identifier [GenerateRelease] takes from the name of a receipt
    file is the identifier [proposeKEP] named the file after, cut at its
    first dot: it is that identifier exactly when the identifier has no
    dot. *)
Theorem kep_number_of_receipt opts :
  let number := CommonArgs.Number (ReleaseOpts.CommonArgs opts) in
  kep_number (proposal_fileName opts) = kep_number number ∧
  strings.ContainsByte (kep_number (proposal_fileName opts)) "." = false ∧
  (kep_number (proposal_fileName opts) = number ↔
   strings.ContainsByte number "." = false).
Proof.
  intros number. unfold proposal_fileName. fold number.
  assert (kep_number (number +:+ ".yaml") = kep_number number) as Heq.
  { unfold kep_number. apply (Split_hd_app number "yaml" "."). }
  split; [done|]. split.
  { unfold kep_number. apply Split_hd_no_sep. }
  split.
  - intros <-. unfold kep_number. apply Split_hd_no_sep.
  - apply kep_number_fileName.
Qed.

End receipts.

(** ** Generating the manifest: what is read, what is written *)

Section manifest.
Context `{YamlText, RepoFinder}.

(** Whether a file decodes does not depend on the record decoded into. *)
Lemma Unmarshal_is_ok b c c' :
  is_ok (yaml.Unmarshal b c) = true → is_ok (yaml.Unmarshal b c') = true.
Proof.
  destruct (yaml.Unmarshal b c') as [r|e] eqn:Hdec; [done|].
  by rewrite (Unmarshal_error _ _ c _ Hdec).
Qed.

Lemma scanFiles_total stage stagePath files content keps w :
  (∀ file, file ∈ files → strings.HasSuffix file ".yaml" = true →
     ∃ b, read_file (filepath.Join stagePath [file]) (disk w) = Ok b ∧
          is_ok (yaml.Unmarshal b releaseContent.zero) = true) →
  ∃ r, scanFiles stage stagePath files content keps w = (Ok r, w).
Proof.
  revert content keps. induction files as [|file files IH]; intros content keps Hall.
  { by eexists. }
  rewrite scanFiles_cons.
  assert (∀ c k, ∃ r, scanFiles stage stagePath files c k w = (Ok r, w)) as Hrest.
  { intros c k. apply IH. intros file0 Hin. apply Hall. by right. }
  destruct (strings.HasSuffix file ".yaml") eqn:Hyaml; [|apply Hrest].
  destruct (Hall file) as (b & -> & Hok); [by left|done|].
  apply (Unmarshal_is_ok _ _ content) in Hok.
  destruct (yaml.Unmarshal b content); [apply Hrest|done].
Qed.

Lemma scanStage_total releasePath stage content w :
  stage_readable (disk w) releasePath stage →
  ∃ r, scanStage releasePath stage content w = (Ok r, w).
Proof.
  intros (files & Hfiles & Hread).
  rewrite scanStage_unfold, Hfiles. by apply scanFiles_total.
Qed.

Lemma scanStage_Ok_readable releasePath stage content w r w' :
  scanStage releasePath stage content w = (Ok r, w') →
  stage_readable (disk w) releasePath stage.
Proof.
  rewrite scanStage_unfold. unfold stage_readable.
  destruct (read_dir _ _) as [files|] eqn:Hfiles; [|done].
  intros Hrun. exists files. split; [done|].
  intros file Hin Hyaml. by eapply scanFiles_Ok_inv.
Qed.

(** The stages are scanned in their order, and the first that cannot be
    scanned ends the collection. *)
Lemma collectManifest_first_failure releasePath w :
  match (collectManifest releasePath w).1 with
  | Ok _ => ∀ s, s ∈ scanned_stages → stage_readable (disk w) releasePath s
  | Err e =>
      ∃ earlier stage rest,
        scanned_stages = earlier ++ stage :: rest ∧
        (∀ s, s ∈ earlier → stage_readable (disk w) releasePath s) ∧
        offends w releasePath stage e
  end.
Proof.
  unfold collectManifest, mbind, M_bind, bind.
  pose proof (scanStage_world releasePath "accepted" releaseContent.zero w) as Hw1.
  destruct (scanStage releasePath "accepted" _ w) as [[[c1 k1]|e1] w0] eqn:H1;
    simpl in Hw1; subst w0; simpl.
  2:{ exists [], "accepted", ["at-risk"; "removed"]. split; [done|].
      split; [intros s Hs; by apply elem_of_nil in Hs|by eapply scanStage_Err_inv]. }
  apply scanStage_Ok_readable in H1.
  pose proof (scanStage_world releasePath "at-risk" c1 w) as Hw2.
  destruct (scanStage releasePath "at-risk" _ w) as [[[c2 k2]|e2] w0] eqn:H2;
    simpl in Hw2; subst w0; simpl.
  2:{ exists ["accepted"], "at-risk", ["removed"]. split; [done|].
      split; [|by eapply scanStage_Err_inv].
      intros s Hs. apply list_elem_of_singleton in Hs as ->. done. }
  apply scanStage_Ok_readable in H2.
  pose proof (scanStage_world releasePath "removed" c2 w) as Hw3.
  destruct (scanStage releasePath "removed" _ w) as [[[c3 k3]|e3] w0] eqn:H3;
    simpl in Hw3; subst w0; simpl.
  2:{ exists ["accepted"; "at-risk"], "removed", []. split; [done|].
      split; [|by eapply scanStage_Err_inv].
      intros s Hs. repeat (apply elem_of_cons in Hs as [->|Hs]); try done.
      by apply elem_of_nil in Hs. }
  apply scanStage_Ok_readable in H3.
  intros s Hs. unfold scanned_stages in Hs.
  repeat (apply elem_of_cons in Hs as [->|Hs]); try done.
  by apply elem_of_nil in Hs.
Qed.

(** X9. [GenerateRelease] succeeds exactly when the three stage
    directories can be listed, every [.yaml] entry in them is a file that
    decodes, and the manifest file can be written (the write is not refused
    and no directory has its name). *)
Theorem GenerateRelease_succeeds_iff opts repoPath w :
  findEnhancementsRepo (ReleaseManifestOpts.CommonArgs opts) = Ok repoPath →
  let releasePath := releasePath_of repoPath (ReleaseManifestOpts.ReleaseVersion opts) in
  (GenerateRelease opts w).1 = Ok tt ↔
  (∀ stage, stage ∈ scanned_stages → stage_readable (disk w) releasePath stage) ∧
  refused w (manifestPath_of releasePath) = false ∧
  ¬ is_dir (manifestPath_of releasePath) (disk w).
Proof.
  intros Hrepo releasePath. split.
  - intros Hrun.
    destruct (GenerateRelease opts w) as [r w'] eqn:Hrun'. simpl in Hrun. subst r.
    destruct (GenerateRelease_Ok_inv _ _ _ _ Hrepo Hrun') as (m & d & Hcol & Href & Hd & _).
    fold releasePath in Hcol, Href, Hd.
    split; [|split; [done|by eapply modify_write_not_dir]].
    pose proof (collectManifest_first_failure releasePath w) as Hall.
    by rewrite Hcol in Hall.
  - intros (Hall & Href & Hnd).
    destruct (scanStage_total releasePath "accepted" releaseContent.zero w)
      as ([c1 k1] & H1); [apply Hall; in_list|].
    destruct (scanStage_total releasePath "at-risk" c1 w)
      as ([c2 k2] & H2); [apply Hall; in_list|].
    destruct (scanStage_total releasePath "removed" c2 w)
      as ([c3 k3] & H3); [apply Hall; in_list|].
    assert (∃ m, collectManifest releasePath w = (Ok m, w)) as (m & Hcol).
    { eexists. unfold collectManifest.
      erewrite bind_Ok by exact H1. simpl.
      erewrite bind_Ok by exact H2. simpl.
      erewrite bind_Ok by exact H3. done. }
    pose proof (collectManifest_dir _ _ _ _ Hcol) as Hroot.
    rewrite (GenerateRelease_unfold _ _ _ Hrepo Hroot). fold releasePath.
    rewrite Hcol. unfold manifestPath_of in *. rewrite Join_plain in * by done.
    destruct (modify_write_child (manifest_file m) releasePath
                "manifest.yaml" (disk w) Hroot Hnd) as (d & Hd).
    unfold ioutil.WriteFile. rewrite Href. fold (manifest_file m).
    by rewrite Hd.
Qed.

(** X10. A [GenerateRelease] that fails tells the step that failed: the
    release directory is missing; or a stage could not be scanned, and then
    it is the first such stage in the order accepted, at-risk, removed,
    told with what went wrong in it; or all stages were scanned and the
    manifest file could not be written. *)
Theorem GenerateRelease_tells_first_failure opts repoPath w e :
  findEnhancementsRepo (ReleaseManifestOpts.CommonArgs opts) = Ok repoPath →
  (GenerateRelease opts w).1 = Err e →
  let releasePath := releasePath_of repoPath (ReleaseManifestOpts.ReleaseVersion opts) in
  (resolve releasePath (disk w) = Err ENOENT ∧
   e = Errorf "release directory does not exist" (Sys ENOENT)) ∨
  (∃ earlier stage rest,
     scanned_stages = earlier ++ stage :: rest ∧
     (∀ s, s ∈ earlier → stage_readable (disk w) releasePath s) ∧
     offends w releasePath stage e) ∨
  ((∀ s, s ∈ scanned_stages → stage_readable (disk w) releasePath s) ∧
   ∃ x, e = Errorf "unable to generate release manifest" (Sys x)).
Proof.
  intros Hrepo Hrun releasePath. revert Hrun.
  rewrite GenerateRelease_by_stage_eq. unfold GenerateRelease_by_stage. rewrite Hrepo.
  fold (releasePath_of repoPath (ReleaseManifestOpts.ReleaseVersion opts)).
  fold releasePath.
  erewrite bind_Ok by apply capture_Stat.
  destruct (missing_or_not (resolve releasePath (disk w))) as [Hmiss|Hthere].
  { rewrite Hmiss. simpl. intros [= <-]. by left. }
  assert (os.IsNotExist
    match resolve releasePath (disk w) with Ok _ => None | Err e => Some e end
    = false) as ->.
  { destruct (resolve releasePath (disk w)) as [|[]]; done. }
  intros Hrun. right. revert Hrun. unfold mbind, M_bind, bind.
  pose proof (collectManifest_first_failure releasePath w) as Hcol.
  pose proof (collectManifest_world releasePath w) as Hw.
  destruct (collectManifest releasePath w) as [[m|e0] w0]; simpl in *; subst w0.
  - unfold try. destruct (ioutil.WriteFile _ _ w) as [[[]|x] w1]; [done|].
    intros [= <-]. right. split; [done|]. by exists x.
  - intros [= <-]. by left.
Qed.

(** X11. [GenerateRelease], however it ends, prints nothing and changes
    nothing on the disk but the manifest file: every other file reads as
    before, and the directories are the same. *)
Theorem GenerateRelease_changes_only_manifest opts repoPath w :
  findEnhancementsRepo (ReleaseManifestOpts.CommonArgs opts) = Ok repoPath →
  let releasePath := releasePath_of repoPath (ReleaseManifestOpts.ReleaseVersion opts) in
  differs_at_file (manifestPath_of releasePath)
    (disk w) (disk (GenerateRelease opts w).2) ∧
  out (GenerateRelease opts w).2 = out w.
Proof.
  intros Hrepo releasePath.
  destruct (GenerateRelease opts w) as [[[]|e] w'] eqn:Hrun; simpl.
  - destruct (GenerateRelease_Ok_inv _ _ _ _ Hrepo Hrun) as (m & d & _ & _ & Hd & ->).
    split; [|done]. by eapply differs_at_file_write.
  - apply GenerateRelease_Err_world in Hrun as ->.
    split; [apply differs_at_file_refl|done].
Qed.

(** The scan of a stage sees the subtree of the stage and nothing else. *)
Lemma scanStage_agree releasePath stage content w1 w2 :
  plain_name stage = true →
  plain_listing (disk w1) (filepath.Join releasePath [stage]) →
  resolve (releasePath ++ [stage]) (disk w1) = resolve (releasePath ++ [stage]) (disk w2) →
  (scanStage releasePath stage content w1).1 = (scanStage releasePath stage content w2).1.
Proof.
  intros Hstage Hplain Hsame. rewrite !scanStage_unfold.
  rewrite Join_plain in * by done.
  assert (read_dir (releasePath ++ [stage]) (disk w1) =
          read_dir (releasePath ++ [stage]) (disk w2)) as Hdir.
  { unfold read_dir. by rewrite Hsame. }
  rewrite <-Hdir.
  destruct (read_dir _ (disk w1)) as [files|x] eqn:Hfiles; [|done].
  apply scanFiles_frame. intros file Hin.
  specialize (Hplain files Hfiles). rewrite Forall_forall in Hplain.
  rewrite Join_plain by by apply Hplain.
  unfold read_file.
  rewrite (resolve_app (releasePath ++ [stage]) [file] (disk w1)).
  rewrite (resolve_app (releasePath ++ [stage]) [file] (disk w2)).
  by rewrite Hsame.
Qed.

Lemma scanStage_fst releasePath stage content w r :
  (scanStage releasePath stage content w).1 = r →
  scanStage releasePath stage content w = (r, w).
Proof.
  intros <-. pose proof (scanStage_world releasePath stage content w) as Hw.
  destruct (scanStage releasePath stage content w) as [r0 w0]. simpl in *. by subst.
Qed.

Lemma collectManifest_agree releasePath w1 w2 :
  (∀ stage, stage ∈ scanned_stages →
     plain_listing (disk w1) (filepath.Join releasePath [stage])) →
  (∀ stage, stage ∈ scanned_stages →
     resolve (releasePath ++ [stage]) (disk w1) = resolve (releasePath ++ [stage]) (disk w2)) →
  (collectManifest releasePath w1).1 = (collectManifest releasePath w2).1.
Proof.
  intros Hplain Hsame.
  assert (∀ stage c, stage ∈ scanned_stages →
            scanStage releasePath stage c w2 =
            ((scanStage releasePath stage c w1).1, w2)) as Hscan.
  { intros stage c Hin. apply scanStage_fst. symmetry.
    apply scanStage_agree; [by apply scanned_stage_plain|by apply Hplain|by apply Hsame]. }
  unfold collectManifest, mbind, M_bind, bind.
  rewrite (Hscan "accepted") by in_list.
  pose proof (scanStage_world releasePath "accepted" releaseContent.zero w1) as Hw1.
  destruct (scanStage releasePath "accepted" _ w1) as [[[c1 k1]|e1] w0];
    simpl in *; subst w0; [|done].
  rewrite (Hscan "at-risk") by in_list.
  pose proof (scanStage_world releasePath "at-risk" c1 w1) as Hw2.
  destruct (scanStage releasePath "at-risk" _ w1) as [[[c2 k2]|e2] w0];
    simpl in *; subst w0; [|done].
  rewrite (Hscan "removed") by in_list.
  pose proof (scanStage_world releasePath "removed" c2 w1) as Hw3.
  by destruct (scanStage releasePath "removed" _ w1) as [[[c3 k3]|e3] w0];
    simpl in *; subst w0.
Qed.

(** X12. The manifest is made from the [accepted], [at-risk] and
    [removed] directories and from nothing else: on two disks that agree on
    these three, [GenerateRelease] writes the same manifest file, whatever
    the [proposed] and [exception] directories hold. *)
Theorem GenerateRelease_reads_scanned_stages_only opts repoPath w1 w2 w1' w2' :
  findEnhancementsRepo (ReleaseManifestOpts.CommonArgs opts) = Ok repoPath →
  let releasePath := releasePath_of repoPath (ReleaseManifestOpts.ReleaseVersion opts) in
  (∀ stage, stage ∈ scanned_stages →
     plain_listing (disk w1) (filepath.Join releasePath [stage])) →
  (∀ stage, stage ∈ scanned_stages →
     resolve (releasePath ++ [stage]) (disk w1) = resolve (releasePath ++ [stage]) (disk w2)) →
  GenerateRelease opts w1 = (Ok tt, w1') →
  GenerateRelease opts w2 = (Ok tt, w2') →
  ∃ m, read_file (manifestPath_of releasePath) (disk w1') = Ok (manifest_file m) ∧
       read_file (manifestPath_of releasePath) (disk w2') = Ok (manifest_file m).
Proof.
  intros Hrepo releasePath Hplain Hsame Hrun1 Hrun2.
  destruct (GenerateRelease_Ok_inv _ _ _ _ Hrepo Hrun1) as (m1 & d1 & Hcol1 & _ & Hd1 & ->).
  destruct (GenerateRelease_Ok_inv _ _ _ _ Hrepo Hrun2) as (m2 & d2 & Hcol2 & _ & Hd2 & ->).
  fold releasePath in Hcol1, Hcol2, Hd1, Hd2.
  pose proof (collectManifest_agree releasePath w1 w2 Hplain Hsame) as Hagree.
  rewrite Hcol1, Hcol2 in Hagree. simpl in Hagree. injection Hagree as <-.
  exists m1. unfold read_file. simpl.
  by rewrite (resolve_write _ _ _ _ Hd1), (resolve_write _ _ _ _ Hd2).
Qed.

(** X13. A metadata file that holds the encoding of a record, as
    [proposeKEP] writes it, is listed in the manifest as that record under
    the identifier taken from the file name, whatever was decoded before
    it. *)
Theorem manifest_entry_of_encoded_record opts repoPath w w' :
  findEnhancementsRepo (ReleaseManifestOpts.CommonArgs opts) = Ok repoPath →
  GenerateRelease opts w = (Ok tt, w') →
  let releasePath := releasePath_of repoPath (ReleaseManifestOpts.ReleaseVersion opts) in
  ∃ m,
    read_file (manifestPath_of releasePath) (disk w') = Ok (manifest_file m) ∧
    ∀ i p name r,
      run_metadata (disk w) releasePath !! i = Some (p, name) →
      read_file p (disk w) = Ok (yaml.Marshal_releaseContent r) →
      (∀ f, releaseContent.get f r ≠ "" ∨ f ≠ releaseContent.FNumber →
            representable (releaseContent.get f r)) →
      run_entries m !! i =
      Some (releaseContent.set releaseContent.FNumber (kep_number name) r).
Proof.
  intros Hrepo Hrun releasePath.
  destruct (GenerateRelease_Ok_inv _ _ _ _ Hrepo Hrun) as (m & d & Hcol & _ & Hd & ->).
  fold releasePath in Hcol, Hd.
  exists m. split.
  { unfold read_file. simpl. by erewrite resolve_write. }
  intros i p name r Hi Hread Hrep.
  apply collectManifest_decoded_in_turn in Hcol.
  destruct (decoded_in_turn_lookup _ _ _ _ _ _ _ Hcol Hi)
    as (b' & content & entry & Hb' & Hdec & Hentry & ->).
  rewrite Hread in Hb'. injection Hb' as <-.
  rewrite Unmarshal_Marshal in Hdec by done. injection Hdec as <-.
  rewrite Hentry. f_equal.
  destruct (decide (releaseContent.Number r = "")); by destruct r.
Qed.

(** X14. A field that the document of a metadata file names has, in the
    entry of the file, the text of the last member that names it, in
    whatever case its key is written and whatever was decoded before. *)
Theorem manifest_entry_field_from_file opts repoPath w w' :
  findEnhancementsRepo (ReleaseManifestOpts.CommonArgs opts) = Ok repoPath →
  GenerateRelease opts w = (Ok tt, w') →
  let releasePath := releasePath_of repoPath (ReleaseManifestOpts.ReleaseVersion opts) in
  ∃ m,
    read_file (manifestPath_of releasePath) (disk w') = Ok (manifest_file m) ∧
    ∀ i p name b pre k s post f,
      run_metadata (disk w) releasePath !! i = Some (p, name) →
      read_file p (disk w) = Ok b →
      YAMLToJSON b = Some (JObject (pre ++ (k, JString s) :: post)) →
      releaseContent.field_of_key k = Some f →
      Forall (λ k', releaseContent.field_of_key k' ≠ Some f) post.*1 →
      f ≠ releaseContent.FNumber →
      ∃ entry, run_entries m !! i = Some entry ∧ releaseContent.get f entry = s.
Proof.
  intros Hrepo Hrun releasePath.
  destruct (GenerateRelease_Ok_inv _ _ _ _ Hrepo Hrun) as (m & d & Hcol & _ & Hd & ->).
  fold releasePath in Hcol, Hd.
  exists m. split.
  { unfold read_file. simpl. by erewrite resolve_write. }
  intros i p name b pre k s post f Hi Hread Hparse Hk Hpost Hf.
  apply collectManifest_decoded_in_turn in Hcol.
  destruct (decoded_in_turn_lookup _ _ _ _ _ _ _ Hcol Hi)
    as (b' & content & entry & Hb' & Hdec & Hentry & ->).
  rewrite Hread in Hb'. injection Hb' as <-.
  eexists. split; [done|].
  rewrite content_facts.get_set_ne by done.
  unfold yaml.Unmarshal in Hdec. rewrite Hparse in Hdec. simpl in Hdec.
  by eapply decode_fields_last.
Qed.

(** X15. The manifest file [GenerateRelease] writes is the header
    followed by a document of four members in the order proposed, accepted,
    at-risk, removed: [proposed] is always [null], and each of the others is
    the array of the records of a stage, which follow the listing of its
    directory. *)
Theorem GenerateRelease_document opts repoPath w w' :
  findEnhancementsRepo (ReleaseManifestOpts.CommonArgs opts) = Ok repoPath →
  GenerateRelease opts w = (Ok tt, w') →
  let releasePath := releasePath_of repoPath (ReleaseManifestOpts.ReleaseVersion opts) in
  ∃ accepted atrisk removed,
    read_file (manifestPath_of releasePath) (disk w') =
      Ok (manifest_header +:+
          JSONToYAML (JObject
            [("proposed", JNull);
             ("accepted", JArray (releaseContent.to_json <$> accepted));
             ("at-risk", JArray (releaseContent.to_json <$> atrisk));
             ("removed", JArray (releaseContent.to_json <$> removed))])) ∧
    follows_listing (disk w) releasePath "accepted" (Some accepted) ∧
    follows_listing (disk w) releasePath "at-risk" (Some atrisk) ∧
    follows_listing (disk w) releasePath "removed" (Some removed).
Proof.
  intros Hrepo Hrun releasePath.
  destruct (GenerateRelease_Ok_inv _ _ _ _ Hrepo Hrun) as (m & d & Hcol & _ & Hd & ->).
  fold releasePath in Hcol, Hd.
  apply collectManifest_inv in Hcol
    as (_ & c1 & k1 & c2 & k2 & c3 & k3 & H1 & H2 & H3 & ->).
  exists k1, k2, k3. split.
  { unfold read_file. simpl. by erewrite resolve_write. }
  split; [by eapply scanStage_follows|].
  split; by eapply scanStage_follows.
Qed.

End manifest.

(** ** A release that was just set up *)

Section after_setup.
Context `{YamlText, RepoFinder}.

(** X16. On a release that [InitRelease] has just set up, [proposeKEP]
    places the receipt: unless the environment refuses the write, the file
    is there afterwards and holds the encoding of the record of the call. *)
Theorem proposeKEP_after_InitRelease iopts ropts repoPath w w' :
  findEnhancementsRepo (InitReleaseOpts.CommonArgs iopts) = Ok repoPath →
  findEnhancementsRepo (ReleaseOpts.CommonArgs ropts) = Ok repoPath →
  ReleaseOpts.Release ropts = InitReleaseOpts.ReleaseSemver iopts →
  InitRelease iopts w = (Ok tt, w') →
  let releasePath := releasePath_of repoPath (ReleaseOpts.Release ropts) in
  strings.ContainsByte (CommonArgs.Number (ReleaseOpts.CommonArgs ropts)) "/" = false →
  refused w (proposedPath_of releasePath ropts) = false →
  ∃ w'', proposeKEP ropts w' = (Ok tt, w'') ∧
         read_file (proposedPath_of releasePath ropts) (disk w'') =
         Ok (yaml.Marshal_releaseContent (proposal_of ropts)).
Proof.
  intros Hirepo Hrrepo Hver Hinit releasePath Hplain Href.
  destruct (InitRelease_Ok_dir _ _ _ _ Hirepo Hinit) as (es' & Hr & Hrel & Hes').
  rewrite <-Hver in Hrel, Hes'. fold releasePath in Hrel, Hes'.
  assert (resolve releasePath (disk w') ≠ Err ENOENT) as Hthere by by rewrite Hrel.
  rewrite (proposeKEP_run _ _ _ Hrrepo Hthere). fold releasePath.
  eexists. split; [done|]. simpl.
  set (b := yaml.Marshal_releaseContent (proposal_of ropts)).
  set (sd := seeded w (owners_of iopts) (releasePath ++ ["proposed"; "OWNERS"])).
  destruct (modify_app (write_at b) releasePath ["proposed"; proposal_fileName ropts]
              (disk w') (Dir es')
              (Dir (<["proposed" := Dir (<[proposal_fileName ropts := File b]> sd)]> es'))
              Hrel) as (d & Hd & _).
  { cbn [modify]. rewrite Hes'. rewrite decide_True by in_list. cbn [modify].
    by rewrite write_at_seeded. }
  unfold proposal_write, ioutil.WriteFile. rewrite Hr, Href.
  rewrite proposedPath_plain by done. fold b. rewrite Hd. simpl.
  unfold read_file. by erewrite resolve_write.
Qed.

(** X17. A release that [InitRelease] has just set up can be generated:
    [GenerateRelease] succeeds on it and writes the manifest without
    entries (the OWNERS files are not metadata), provided the manifest file
    can be written. *)
Theorem GenerateRelease_after_InitRelease iopts gopts repoPath w w' :
  findEnhancementsRepo (InitReleaseOpts.CommonArgs iopts) = Ok repoPath →
  findEnhancementsRepo (ReleaseManifestOpts.CommonArgs gopts) = Ok repoPath →
  ReleaseManifestOpts.ReleaseVersion gopts = InitReleaseOpts.ReleaseSemver iopts →
  InitRelease iopts w = (Ok tt, w') →
  let releasePath := releasePath_of repoPath (ReleaseManifestOpts.ReleaseVersion gopts) in
  refused w (manifestPath_of releasePath) = false →
  ¬ is_dir (manifestPath_of releasePath) (disk w) →
  ∃ w'', GenerateRelease gopts w' = (Ok tt, w'') ∧
         read_file (manifestPath_of releasePath) (disk w'') =
         Ok (manifest_file empty_manifest).
Proof.
  intros Hirepo Hgrepo Hver Hinit releasePath Href Hnd.
  destruct (InitRelease_Ok_dir _ _ _ _ Hirepo Hinit) as (es' & Hr & Hrel & Hes').
  rewrite <-Hver in Hrel, Hes'. fold releasePath in Hrel, Hes'.
  apply (GenerateRelease_no_metadata gopts repoPath w' Hgrepo).
  - intros stage Hin. fold releasePath.
    rewrite Join_plain by by apply scanned_stage_plain.
    eexists. split.
    + eapply read_dir_seeded; [exact Hrel|]. rewrite Hes'.
      rewrite decide_True; [done|].
      unfold scanned_stages in Hin. unfold release_stages.
      repeat (apply elem_of_cons in Hin as [->|Hin]); [in_list..|].
      by apply elem_of_nil in Hin.
    + destruct (refused w (releasePath ++ [stage; "OWNERS"])); [apply Forall_nil_2|].
      apply Forall_cons. split; [run|apply Forall_nil_2].
  - fold releasePath. by rewrite Hr.
  - fold releasePath. intros [es Hes]. apply Hnd.
    unfold manifestPath_of in *. rewrite Join_plain in * by done.
    rewrite resolve_app, Hrel in Hes. simpl in Hes.
    rewrite Hes' in Hes. rewrite decide_False in Hes by not_in_list.
    unfold is_dir. rewrite resolve_app.
    destruct (resolve releasePath (disk w)) as [[|es0]|]; simpl in *;
      try by rewrite lookup_empty in Hes.
    destruct (es0 !! "manifest.yaml") as [[|es1]|]; try done. eauto.
Qed.

End after_setup.

(** ** Validated options and the commands *)

Section validated.
Context `{YamlText, RepoFinder, semver.Parser, KEPArgs}.

Lemma InitReleaseOpts_Validate_Ok args i i' :
  InitReleaseOpts_Validate args i = (Ok tt, i') →
  ∃ version rest,
    args = version :: rest ∧ semver.NewVersion version = Ok tt ∧
    InitReleaseOpts.EnhancementTeam i ≠ [] ∧ InitReleaseOpts.ReleaseLeads i ≠ [] ∧
    i' = set_ReleaseSemver version i.
Proof.
  unfold InitReleaseOpts_Validate. destruct args as [|version rest]; [done|]. simpl.
  destruct (semver.NewVersion version) as [[]|err] eqn:Hv; [|done].
  destruct (decide (length (InitReleaseOpts.EnhancementTeam i) = 0)) as [|Ht]; [done|].
  destruct (decide (length (InitReleaseOpts.ReleaseLeads i) = 0)) as [|Hl]; [done|].
  intros [= <-]. exists version, rest.
  split; [done|]. split; [done|].
  split; [intros Heq; by rewrite Heq in Ht|].
  split; [intros Heq; by rewrite Heq in Hl|done].
Qed.

Lemma ReleaseManifestOpts_Validate_Ok args r r' :
  ReleaseManifestOpts_Validate args r = (Ok tt, r') →
  ∃ version rest,
    args = version :: rest ∧ semver.NewVersion version = Ok tt ∧
    r' = set_ReleaseVersion version r.
Proof.
  unfold ReleaseManifestOpts_Validate. destruct args as [|version rest]; [done|]. simpl.
  destruct (semver.NewVersion version) as [[]|err] eqn:Hv; [|done].
  intros [= <-]. by exists version, rest.
Qed.

Lemma run_command_inv {O} (PreRunE : list string → O → result string unit * O)
    (RunE : O → M unit) opts args w r w' :
  run_command PreRunE RunE opts args w = (r, w') →
  (∃ why opts', PreRunE args opts = (Err why, opts') ∧ r = Err (Rejected why) ∧ w' = w) ∨
  (∃ opts', PreRunE args opts = (Ok tt, opts') ∧
     ((r = Ok tt ∧ RunE opts' w = (Ok tt, w')) ∨
      (∃ e, r = Err (Failed e) ∧ RunE opts' w = (Err e, w')))).
Proof.
  unfold run_command. destruct (PreRunE args opts) as [[[]|why] opts'].
  - destruct (RunE opts' w) as [[[]|e] w1] eqn:Hrun; intros [= <- <-]; right;
      exists opts'; (split; [done|]); [by left|right; by exists e].
  - intros [= <- <-]. left. by exists why, opts'.
Qed.

(** X18. Options that passed [Validate] give an ownership record with
    both lists: the reviewers, and at least two approvers, one for every
    team member and every lead. So [omitempty] leaves nothing out of an
    OWNERS file made from validated options. *)
Theorem validated_owners_document args i i' :
  InitReleaseOpts_Validate args i = (Ok tt, i') →
  ∃ approvers,
    ownersFile.to_json (owners_of i') =
      JObject [("approvers", JArray (JString <$> approvers));
               ("reviewers", JArray [JString "release-team"])] ∧
    approvers ≡ₚ rendered_approvers (InitReleaseOpts.EnhancementTeam i)
                   (InitReleaseOpts.ReleaseLeads i) ∧
    length approvers =
      length (InitReleaseOpts.EnhancementTeam i) +
      length (InitReleaseOpts.ReleaseLeads i) ∧
    2 ≤ length approvers.
Proof.
  intros (version & rest & -> & _ & Ht & Hl & ->)%InitReleaseOpts_Validate_Ok.
  exists (approvers_of (InitReleaseOpts.EnhancementTeam i) (InitReleaseOpts.ReleaseLeads i)).
  assert (approvers_of (InitReleaseOpts.EnhancementTeam i) (InitReleaseOpts.ReleaseLeads i)
          ≡ₚ rendered_approvers (InitReleaseOpts.EnhancementTeam i)
               (InitReleaseOpts.ReleaseLeads i)) as Hperm.
  { rewrite approvers_of_sorted. apply merge_sort_Permutation. }
  assert (length (approvers_of (InitReleaseOpts.EnhancementTeam i)
                    (InitReleaseOpts.ReleaseLeads i)) =
          length (InitReleaseOpts.EnhancementTeam i) +
          length (InitReleaseOpts.ReleaseLeads i)) as Hlen.
  { rewrite Hperm. unfold rendered_approvers.
    by rewrite length_app, !length_fmap. }
  assert (2 ≤ length (approvers_of (InitReleaseOpts.EnhancementTeam i)
                        (InitReleaseOpts.ReleaseLeads i))) as Htwo.
  { rewrite Hlen. destruct (InitReleaseOpts.EnhancementTeam i); [done|].
    destruct (InitReleaseOpts.ReleaseLeads i); [done|]. simpl. lia. }
  split; [|done].
  unfold ownersFile.to_json, owners_of. simpl.
  destruct (approvers_of _ _); [simpl in Htwo; lia|done].
Qed.

(** X19. Options that passed [Validate] name a release and a stage and
    carry the link of the KEP; when [proposeKEP] writes the receipt for
    them, the file decodes to a record with that link and with that stage,
    which is not empty. *)
Theorem validated_receipt args r r' repoPath w :
  ReleaseOpts_Validate args r = (Ok tt, r') →
  findEnhancementsRepo (ReleaseOpts.CommonArgs r') = Ok repoPath →
  let releasePath := releasePath_of repoPath (ReleaseOpts.Release r') in
  resolve releasePath (disk w) ≠ Err ENOENT →
  (proposal_write releasePath r' w).1 = Ok tt →
  (∀ f, f ≠ releaseContent.FNumber →
        representable (releaseContent.get f (proposal_of r'))) →
  ReleaseOpts.Release r' ≠ "" ∧
  ∃ b record,
    read_file (proposedPath_of releasePath r') (disk (proposeKEP r' w).2) = Ok b ∧
    yaml.Unmarshal b releaseContent.zero = Ok record ∧
    releaseContent.Link record = ReleaseOpts.Link r' ∧
    releaseContent.Stage record = ReleaseOpts.Stage r' ∧
    releaseContent.Stage record ≠ "".
Proof.
  intros Hval Hrepo releasePath Hthere Hwrite Hrep.
  assert (ReleaseOpts.Release r' ≠ "" ∧ ReleaseOpts.Stage r' ≠ "" ∧
          ReleaseOpts.Link r' = generateKEPLink (ReleaseOpts.CommonArgs r'))
    as (Hrel & Hstage & Hlink).
  { revert Hval. unfold ReleaseOpts_Validate.
    destruct (validateAndPopulateKEP args r) as [[[]|err] r0]; [|done].
    destruct (decide (ReleaseOpts.Release r0 = "")); [done|].
    destruct (decide (ReleaseOpts.Stage r0 = "")); [done|].
    by intros [= <-]. }
  split; [done|].
  rewrite (proposeKEP_run _ _ _ Hrepo Hthere). fold releasePath.
  destruct (proposal_write releasePath r' w) as [r0 w0] eqn:Hwr.
  simpl in Hwrite. subst r0.
  apply WriteFile_inv in Hwr as [(d & _ & Hd & _ & ->)|(e & ? & _)]; [|done].
  exists (yaml.Marshal_releaseContent (proposal_of r')), (proposal_of r').
  split.
  { unfold read_file. simpl. by erewrite resolve_write. }
  split; [|by rewrite Hlink].
  rewrite Unmarshal_Marshal; [done|].
  intros f [Hne|Hne]; [|by apply Hrep].
  destruct (decide (f = releaseContent.FNumber)) as [->|Hf]; [done|by apply Hrep].
Qed.

(** X20. [kepctl generate release]: arguments that do not pass [Validate]
    leave the world as it is; when the command succeeds, its first argument
    is a version the parser accepts, there is a team and there are leads,
    and the five stage directories of the release of that name were made by
    this run. *)
Theorem release_init_command flags args repoPath w :
  findEnhancementsRepo (InitReleaseOpts.CommonArgs flags) = Ok repoPath →
  (∀ why w', buildReleaseInitCommand flags args w = (Err (Rejected why), w') → w' = w) ∧
  (∀ w', buildReleaseInitCommand flags args w = (Ok tt, w') →
     ∃ version,
       head args = Some version ∧ semver.NewVersion version = Ok tt ∧
       InitReleaseOpts.EnhancementTeam flags ≠ [] ∧
       InitReleaseOpts.ReleaseLeads flags ≠ [] ∧
       ∀ stage, stage ∈ release_stages →
         is_ok (resolve (releasePath_of repoPath version ++ [stage]) (disk w)) = false ∧
         is_dir (releasePath_of repoPath version ++ [stage]) (disk w')).
Proof.
  intros Hrepo. split.
  - intros why w'
      [(why' & opts' & _ & _ & ->)|(opts' & _ & [[? _]|(e & ? & _)])]%run_command_inv;
      done.
  - intros w'
      [(why' & opts' & _ & ? & _)|(opts' & Hval & [[_ Hrun]|(e & ? & _)])]%run_command_inv;
      try done.
    apply InitReleaseOpts_Validate_Ok in Hval
      as (version & rest & -> & Hv & Ht & Hl & ->).
    exists version. do 4 (split; [done|]).
    by apply (InitRelease_Ok_inv (set_ReleaseSemver version flags) repoPath w w').
Qed.

(** X21. [kepctl generate manifest]: arguments that do not pass
    [Validate] leave the world as it is; when the command succeeds, its
    first argument is a version the parser accepts, and the manifest file of
    the release of that name holds the header and the manifest collected
    from the disk the command found. *)
Theorem generate_manifest_command flags args repoPath w :
  findEnhancementsRepo (ReleaseManifestOpts.CommonArgs flags) = Ok repoPath →
  (∀ why w', buildGenerateReleaseCommand flags args w = (Err (Rejected why), w') →
     w' = w) ∧
  (∀ w', buildGenerateReleaseCommand flags args w = (Ok tt, w') →
     ∃ version m,
       head args = Some version ∧ semver.NewVersion version = Ok tt ∧
       (collectManifest (releasePath_of repoPath version) w).1 = Ok m ∧
       read_file (manifestPath_of (releasePath_of repoPath version)) (disk w') =
         Ok (manifest_file m)).
Proof.
  intros Hrepo. split.
  - intros why w'
      [(why' & opts' & _ & _ & ->)|(opts' & _ & [[? _]|(e & ? & _)])]%run_command_inv;
      done.
  - intros w'
      [(why' & opts' & _ & ? & _)|(opts' & Hval & [[_ Hrun]|(e & ? & _)])]%run_command_inv;
      try done.
    apply ReleaseManifestOpts_Validate_Ok in Hval as (version & rest & -> & Hv & ->).
    destruct (GenerateRelease_Ok_inv (set_ReleaseVersion version flags) repoPath w w'
                Hrepo Hrun) as (m & d & Hcol & _ & Hd & ->).
    simpl in Hcol, Hd.
    exists version, m. do 2 (split; [done|]). split; [by rewrite Hcol|].
    unfold read_file. simpl. by erewrite resolve_write.
Qed.

End validated.

(** * Runs on the sample worlds *)

Section sample_runs.
Existing Instances flow_text repo_by_path.

(** ** The proposed stage and the manifest *)

(** C1. The release is initialised, a receipt for KEP 123 is placed, and
    the manifest is generated. The receipt is in the [proposed] directory,
    yet the manifest collected from the disk and the manifest file have no
    entry for it: [GenerateRelease] scans [accepted], [at-risk] and
    [removed] only, and the [proposed] list stays the nil slice. *)
Theorem proposed_receipt_not_in_manifest :
  (proposeKEP sample.receipt sample.initialized).1 = Ok tt ∧
  read_dir (sample.releasePath ++ ["proposed"]) (disk sample.proposed) =
    Ok ["123.yaml"; "OWNERS"] ∧
  (GenerateRelease sample.generate sample.proposed).1 = Ok tt ∧
  (collectManifest sample.releasePath sample.proposed).1 = Ok empty_manifest ∧
  releaseManifest.Proposed empty_manifest = None ∧
  read_file (manifestPath_of sample.releasePath) (disk sample.generated) =
    Ok (manifest_file empty_manifest).
Proof. repeat split; run. Qed.

(** ** A receipt that cannot be written *)

(** C3. The release directory exists but its [proposed] directory does
    not, so the write of the receipt fails; [proposeKEP] returns [nil] all
    the same and leaves the disk as it was. *)
Theorem proposeKEP_unreported_write_failure :
  resolve sample.releasePath (disk sample.bare) = Ok (Dir ∅) ∧
  (proposal_write sample.releasePath sample.receipt sample.bare).1 = Err ENOENT ∧
  (proposeKEP sample.receipt sample.bare).1 = Ok tt ∧
  disk (proposeKEP sample.receipt sample.bare).2 = disk sample.bare.
Proof. repeat split; run. Qed.

(** ** The manifest of a release without proposals *)

(** C4. On a release that was just initialised [GenerateRelease] succeeds
    and writes the header followed by the manifest document; in the
    document [accepted], [at-risk] and [removed] are empty arrays, and
    [proposed] is [null], the nil slice, not an empty array. *)
Theorem GenerateRelease_empty_release :
  (GenerateRelease sample.generate sample.initialized).1 = Ok tt ∧
  read_file (manifestPath_of sample.releasePath)
    (disk (GenerateRelease sample.generate sample.initialized).2) =
    Ok (manifest_header +:+
        JSONToYAML (JObject [("proposed", JNull); ("accepted", JArray []);
                             ("at-risk", JArray []); ("removed", JArray [])])) ∧
  releaseManifest.to_json empty_manifest =
    JObject [("proposed", JNull); ("accepted", JArray []);
             ("at-risk", JArray []); ("removed", JArray [])].
Proof. repeat split; run. Qed.

(** ** The theorems at the sample worlds *)

Lemma GenerateRelease_decode_failure_witness :
  ∃ e, GenerateRelease sample.generate sample.corrupted = (Err e, sample.corrupted) ∧
       ∃ stage', stage' ∈ scanned_stages ∧
                 offends sample.corrupted sample.releasePath stage' e.
Proof.
  apply (GenerateRelease_decode_failure sample.generate ["repo"] sample.corrupted
           "accepted" ["1.yaml"] "1.yaml" "{sig" YamlSyntax);
    [run|in_list|run|in_list|run|run|run].
Defined.

Lemma InitRelease_again_witness :
  ∃ w'', InitRelease sample.init' sample.initialized =
           (Err (Errorf "unable to create accepted directory" (Sys EEXIST)), w'') ∧
         disk w'' = disk sample.initialized.
Proof.
  apply (InitRelease_again sample.init sample.init' ["repo"] sample.fresh
           sample.initialized); run.
Defined.

Lemma proposeKEP_roundtrip_witness :
  ∃ w' b r,
    proposeKEP sample.receipt sample.initialized = (Ok tt, w') ∧
    read_file (proposedPath_of sample.releasePath sample.receipt) (disk w') = Ok b ∧
    yaml.Unmarshal b releaseContent.zero = Ok r ∧
    r = proposal_of sample.receipt ∧
    releaseContent.SIG r = "sig-api" ∧
    releaseContent.Stage r = "alpha" ∧
    releaseContent.Issue r = generateIssueLink sample.args ∧
    releaseContent.Link r = generateKEPLink sample.args ∧
    releaseContent.Number r = "" ∧
    strings.TrimSuffix (proposal_fileName sample.receipt) ".yaml" = "123" ∧
    (strings.ContainsByte "123" "." = false →
     kep_number (proposal_fileName sample.receipt) = "123").
Proof.
  apply (proposeKEP_roundtrip sample.receipt ["repo"] sample.initialized);
    [run|by vm_compute|run|exact I..].
Defined.

Lemma owners_of_sorted_deterministic_witness :
  ownersFile.Approvers (owners_of sample.init) =
    ["alice // Enhancement Team"; "bob // Release Lead"; "zed // Enhancement Team"] ∧
  yaml.Marshal_ownersFile (owners_of sample.init') =
  yaml.Marshal_ownersFile (owners_of sample.init).
Proof.
  destruct (owners_of_sorted_deterministic sample.init sample.init')
    as (Happ & _ & _ & _ & _ & Hbytes).
  - apply perm_swap.
  - reflexivity.
  - split; [rewrite Happ; run|exact Hbytes].
Defined.

Lemma GenerateRelease_twice_witness :
  GenerateRelease sample.generate sample.generated = (Ok tt, sample.generated) ∧
  ∃ m, read_file (manifestPath_of sample.releasePath) (disk sample.generated) =
         Ok (manifest_file m) ∧
       follows_listing (disk sample.generated) sample.releasePath "accepted"
         (releaseManifest.Accepted m) ∧
       follows_listing (disk sample.generated) sample.releasePath "at-risk"
         (releaseManifest.AtRisk m) ∧
       follows_listing (disk sample.generated) sample.releasePath "removed"
         (releaseManifest.Removed m).
Proof.
  apply (GenerateRelease_twice sample.generate ["repo"] sample.proposed
           sample.generated); [run| |run].
  intros stage Hin files Hfiles. unfold scanned_stages in Hin.
  repeat (apply elem_of_cons in Hin as [->|Hin]);
    [vm_compute in Hfiles; injection Hfiles as <-; by repeat constructor..|].
  by apply elem_of_nil in Hin.
Defined.

Lemma InitRelease_swallows_save_failure_witness :
  ∃ w', InitRelease sample.init sample.readonly = (Ok tt, w') ∧
        ∀ stage, stage ∈ release_stages →
          read_dir (sample.releasePath ++ [stage]) (disk w') = Ok [].
Proof.
  apply (InitRelease_swallows_save_failure sample.init ["repo"] sample.readonly);
    [run|run|].
  intros stage Hin. unfold release_stages in Hin.
  repeat (apply elem_of_cons in Hin as [->|Hin]); [run..|].
  by apply elem_of_nil in Hin.
Defined.

Lemma manifest_entry_inherits_witness :
  ∃ m,
    read_file (manifestPath_of sample.releasePath)
      (disk (GenerateRelease sample.generate sample.after_auth).2) =
      Ok (manifest_file m) ∧
    ∃ entry,
      run_entries m !! 1 = Some entry ∧
      releaseContent.Number entry = "2" ∧
      releaseContent.SIG entry = releaseContent.SIG (entry_before (run_entries m) 1).
Proof.
  destruct (manifest_entry_inherits sample.generate ["repo"] sample.after_auth
              (GenerateRelease sample.generate sample.after_auth).2)
    as (m & Hfile & Hentries); [run|run|].
  exists m. split; [exact Hfile|].
  apply (Hentries 1 (sample.releasePath ++ ["accepted"; "2.yaml"]) "2.yaml"
           sample.stage_only [("stage", JString "beta")] releaseContent.FSIG);
    [run|run|run|by repeat constructor|done].
Defined.

(** The entry of [2.yaml] is not settled by [2.yaml]: the same file, after
    two different files, gives two different entries. *)
Example entry_depends_on_the_file_before :
  read_file (sample.releasePath ++ ["accepted"; "2.yaml"]) (disk sample.after_auth) =
  read_file (sample.releasePath ++ ["accepted"; "2.yaml"]) (disk sample.after_node) ∧
  (collectManifest sample.releasePath sample.after_auth).1 =
    Ok {| releaseManifest.Proposed := None;
          releaseManifest.Accepted :=
            Some [releaseContent.Build "1" "" "sig-auth" "alpha" "";
                  releaseContent.Build "2" "" "sig-auth" "beta" ""];
          releaseManifest.AtRisk := Some [];
          releaseManifest.Removed := Some [] |} ∧
  (collectManifest sample.releasePath sample.after_node).1 =
    Ok {| releaseManifest.Proposed := None;
          releaseManifest.Accepted :=
            Some [releaseContent.Build "1" "" "sig-node" "alpha" "";
                  releaseContent.Build "2" "" "sig-node" "beta" ""];
          releaseManifest.AtRisk := Some [];
          releaseManifest.Removed := Some [] |}.
Proof. repeat split; run. Qed.

End sample_runs.

(** * The further properties on the sample worlds *)

Section more_runs.
Existing Instances flow_text repo_by_path dotted_versions kep_from_first_argument.

Lemma InitRelease_succeeds_iff_witness :
  (InitRelease sample.init sample.fresh).1 = Ok tt ↔
  is_ok (mkdir_all sample.releasePath (Some (disk sample.fresh))) = true ∧
  ∀ stage, stage ∈ release_stages →
    is_ok (resolve (sample.releasePath ++ [stage]) (disk sample.fresh)) = false.
Proof.
  apply (InitRelease_succeeds_iff sample.init ["repo"] sample.fresh). run.
Defined.

Lemma InitRelease_seeds_every_stage_witness :
  ∃ w', InitRelease sample.init sample.fresh = (Ok tt, w') ∧
        ∀ stage, stage ∈ release_stages →
          read_file (sample.releasePath ++ [stage; "OWNERS"]) (disk w') =
          Ok (yaml.Marshal_ownersFile (owners_of sample.init)).
Proof.
  apply (InitRelease_seeds_every_stage sample.init ["repo"] sample.fresh); [run|run|].
  intros stage Hin. unfold release_stages in Hin.
  repeat (apply elem_of_cons in Hin as [->|Hin]); [run..|].
  by apply elem_of_nil in Hin.
Defined.

Lemma InitRelease_keeps_earlier_stages_witness :
  ∃ w', InitRelease sample.init sample.half_made =
          (Err (Errorf "unable to create proposed directory" (Sys EEXIST)), w') ∧
        ∀ s, s ∈ ["accepted"; "exception"] →
          read_dir (sample.releasePath ++ [s]) (disk w') = Ok ["OWNERS"].
Proof.
  apply (InitRelease_keeps_earlier_stages sample.init ["repo"] sample.half_made
           ["accepted"; "exception"] "proposed" ["at-risk"; "removed"]);
    [run|run| |run].
  intros s Hin. repeat (apply elem_of_cons in Hin as [->|Hin]); [run..|].
  by apply elem_of_nil in Hin.
Defined.

Lemma InitRelease_stays_in_release_witness :
  same_outside sample.releasePath (disk sample.fresh) (disk sample.initialized).
Proof.
  apply (InitRelease_stays_in_release sample.init ["repo"] sample.fresh). run.
Defined.


Lemma proposeKEP_changes_only_receipt_witness :
  differs_at_file (sample.releasePath ++ ["proposed"; "123.yaml"])
    (disk sample.initialized) (disk sample.proposed).
Proof.
  apply (proposeKEP_changes_only_receipt sample.receipt ["repo"] sample.initialized).
  run.
Defined.

Lemma GenerateRelease_succeeds_iff_witness :
  (GenerateRelease sample.generate sample.initialized).1 = Ok tt ↔
  (∀ stage, stage ∈ scanned_stages →
     stage_readable (disk sample.initialized) sample.releasePath stage) ∧
  refused sample.initialized (manifestPath_of sample.releasePath) = false ∧
  ¬ is_dir (manifestPath_of sample.releasePath) (disk sample.initialized).
Proof.
  apply (GenerateRelease_succeeds_iff sample.generate ["repo"] sample.initialized).
  run.
Defined.

Lemma GenerateRelease_tells_first_failure_witness :
  (resolve sample.releasePath (disk sample.corrupted) = Err ENOENT ∧
   Errorf "error loading accepted KEP" YamlSyntax =
   Errorf "release directory does not exist" (Sys ENOENT)) ∨
  (∃ earlier stage rest,
     scanned_stages = earlier ++ stage :: rest ∧
     (∀ s, s ∈ earlier → stage_readable (disk sample.corrupted) sample.releasePath s) ∧
     offends sample.corrupted sample.releasePath stage
       (Errorf "error loading accepted KEP" YamlSyntax)) ∨
  ((∀ s, s ∈ scanned_stages →
      stage_readable (disk sample.corrupted) sample.releasePath s) ∧
   ∃ x, Errorf "error loading accepted KEP" YamlSyntax =
        Errorf "unable to generate release manifest" (Sys x)).
Proof.
  apply (GenerateRelease_tells_first_failure sample.generate ["repo"] sample.corrupted
           (Errorf "error loading accepted KEP" YamlSyntax)); run.
Defined.

Lemma GenerateRelease_changes_only_manifest_witness :
  differs_at_file (manifestPath_of sample.releasePath)
    (disk sample.proposed) (disk sample.generated) ∧
  out sample.generated = out sample.proposed.
Proof.
  apply (GenerateRelease_changes_only_manifest sample.generate ["repo"] sample.proposed).
  run.
Defined.

Lemma GenerateRelease_reads_scanned_stages_only_witness :
  ∃ m, read_file (manifestPath_of sample.releasePath)
         (disk (GenerateRelease sample.generate sample.initialized).2) =
         Ok (manifest_file m) ∧
       read_file (manifestPath_of sample.releasePath) (disk sample.generated) =
         Ok (manifest_file m).
Proof.
  apply (GenerateRelease_reads_scanned_stages_only sample.generate ["repo"]
           sample.initialized sample.proposed); [run| | |run|run].
  - intros stage Hin files Hfiles. unfold scanned_stages in Hin.
    repeat (apply elem_of_cons in Hin as [->|Hin]);
      [vm_compute in Hfiles; injection Hfiles as <-; by repeat constructor..|].
    by apply elem_of_nil in Hin.
  - intros stage Hin. unfold scanned_stages in Hin.
    repeat (apply elem_of_cons in Hin as [->|Hin]); [run..|].
    by apply elem_of_nil in Hin.
Defined.

Lemma manifest_entry_of_encoded_record_witness :
  ∃ m,
    read_file (manifestPath_of sample.releasePath)
      (disk (GenerateRelease sample.generate sample.with_receipt).2) =
      Ok (manifest_file m) ∧
    run_entries m !! 1 =
    Some (releaseContent.Build "123" (generateKEPLink sample.args) "sig-api" "alpha"
            (generateIssueLink sample.args)).
Proof.
  destruct (manifest_entry_of_encoded_record sample.generate ["repo"] sample.with_receipt
              (GenerateRelease sample.generate sample.with_receipt).2)
    as (m & Hfile & Hentries); [run|run|].
  exists m. split; [exact Hfile|].
  apply (Hentries 1 (sample.releasePath ++ ["accepted"; "123.yaml"]) "123.yaml"
           (proposal_of sample.receipt)); [run|run|intros; exact I].
Defined.

Lemma manifest_entry_field_from_file_witness :
  ∃ m,
    read_file (manifestPath_of sample.releasePath)
      (disk (GenerateRelease sample.generate sample.after_auth).2) =
      Ok (manifest_file m) ∧
    ∃ entry, run_entries m !! 0 = Some entry ∧ releaseContent.Stage entry = "alpha".
Proof.
  destruct (manifest_entry_field_from_file sample.generate ["repo"] sample.after_auth
              (GenerateRelease sample.generate sample.after_auth).2)
    as (m & Hfile & Hentries); [run|run|].
  exists m. split; [exact Hfile|].
  apply (Hentries 0 (sample.releasePath ++ ["accepted"; "1.yaml"]) "1.yaml"
           (sample.record "sig-auth" "alpha") [("sig", JString "sig-auth")]
           "stage" "alpha" [] releaseContent.FStage);
    [run|run|run|run|by constructor|done].
Defined.

Lemma GenerateRelease_document_witness :
  ∃ accepted atrisk removed,
    read_file (manifestPath_of sample.releasePath)
      (disk (GenerateRelease sample.generate sample.after_auth).2) =
      Ok (manifest_header +:+
          JSONToYAML (JObject
            [("proposed", JNull);
             ("accepted", JArray (releaseContent.to_json <$> accepted));
             ("at-risk", JArray (releaseContent.to_json <$> atrisk));
             ("removed", JArray (releaseContent.to_json <$> removed))])) ∧
    follows_listing (disk sample.after_auth) sample.releasePath "accepted"
      (Some accepted) ∧
    follows_listing (disk sample.after_auth) sample.releasePath "at-risk"
      (Some atrisk) ∧
    follows_listing (disk sample.after_auth) sample.releasePath "removed"
      (Some removed).
Proof.
  apply (GenerateRelease_document sample.generate ["repo"] sample.after_auth
           (GenerateRelease sample.generate sample.after_auth).2); run.
Defined.

Lemma proposeKEP_after_InitRelease_witness :
  ∃ w'', proposeKEP sample.receipt sample.initialized = (Ok tt, w'') ∧
         read_file (proposedPath_of sample.releasePath sample.receipt) (disk w'') =
         Ok (yaml.Marshal_releaseContent (proposal_of sample.receipt)).
Proof.
  apply (proposeKEP_after_InitRelease sample.init sample.receipt ["repo"]
           sample.fresh sample.initialized); run.
Defined.

Lemma GenerateRelease_after_InitRelease_witness :
  ∃ w'', GenerateRelease sample.generate sample.initialized = (Ok tt, w'') ∧
         read_file (manifestPath_of sample.releasePath) (disk w'') =
         Ok (manifest_file empty_manifest).
Proof.
  apply (GenerateRelease_after_InitRelease sample.init sample.generate ["repo"]
           sample.fresh sample.initialized); [run|run|run|run|run|].
  intros [es Hes]. vm_compute in Hes. discriminate Hes.
Defined.

Lemma validated_owners_document_witness :
  ∃ approvers,
    ownersFile.to_json
      (owners_of (InitReleaseOpts_Validate ["v1.21"] sample.init_flags).2) =
      JObject [("approvers", JArray (JString <$> approvers));
               ("reviewers", JArray [JString "release-team"])] ∧
    approvers ≡ₚ rendered_approvers ["zed"; "alice"] ["bob"] ∧
    length approvers = 3 ∧
    2 ≤ length approvers.
Proof.
  apply (validated_owners_document ["v1.21"] sample.init_flags). run.
Defined.

Lemma validated_receipt_witness :
  let r' := (ReleaseOpts_Validate ["sig-api/123-foo"] sample.receipt).2 in
  let releasePath := releasePath_of ["repo"] (ReleaseOpts.Release r') in
  ReleaseOpts.Release r' ≠ "" ∧
  ∃ b record,
    read_file (proposedPath_of releasePath r')
      (disk (proposeKEP r' sample.initialized).2) = Ok b ∧
    yaml.Unmarshal b releaseContent.zero = Ok record ∧
    releaseContent.Link record = ReleaseOpts.Link r' ∧
    releaseContent.Stage record = ReleaseOpts.Stage r' ∧
    releaseContent.Stage record ≠ "".
Proof.
  apply (validated_receipt ["sig-api/123-foo"] sample.receipt
           (ReleaseOpts_Validate ["sig-api/123-foo"] sample.receipt).2 ["repo"]
           sample.initialized); [run|run|by vm_compute|run|intros; exact I].
Defined.

Lemma release_init_command_witness :
  (∀ why w', buildReleaseInitCommand sample.init_flags ["v1.21"] sample.fresh =
               (Err (Rejected why), w') → w' = sample.fresh) ∧
  (∀ w', buildReleaseInitCommand sample.init_flags ["v1.21"] sample.fresh = (Ok tt, w') →
     ∃ version,
       head ["v1.21"] = Some version ∧ semver.NewVersion version = Ok tt ∧
       InitReleaseOpts.EnhancementTeam sample.init_flags ≠ [] ∧
       InitReleaseOpts.ReleaseLeads sample.init_flags ≠ [] ∧
       ∀ stage, stage ∈ release_stages →
         is_ok (resolve (releasePath_of ["repo"] version ++ [stage]) (disk sample.fresh))
           = false ∧
         is_dir (releasePath_of ["repo"] version ++ [stage]) (disk w')).
Proof.
  apply (release_init_command sample.init_flags ["v1.21"] ["repo"] sample.fresh). run.
Defined.

Lemma generate_manifest_command_witness :
  (∀ why w',
     buildGenerateReleaseCommand sample.generate_flags ["v1.21"] sample.initialized =
       (Err (Rejected why), w') → w' = sample.initialized) ∧
  (∀ w',
     buildGenerateReleaseCommand sample.generate_flags ["v1.21"] sample.initialized =
       (Ok tt, w') →
     ∃ version m,
       head ["v1.21"] = Some version ∧ semver.NewVersion version = Ok tt ∧
       (collectManifest (releasePath_of ["repo"] version) sample.initialized).1 = Ok m ∧
       read_file (manifestPath_of (releasePath_of ["repo"] version)) (disk w') =
         Ok (manifest_file m)).
Proof.
  apply (generate_manifest_command sample.generate_flags ["v1.21"] ["repo"]
           sample.initialized). run.
Defined.

(** The commands on the sample worlds: a version the parser refuses stops
    the command before anything is made, and the release of the first
    argument is what a successful run makes. *)
Example commands_run :
  buildReleaseInitCommand sample.init_flags [] sample.fresh =
    (Err (Rejected "must provide a release version"), sample.fresh) ∧
  buildReleaseInitCommand sample.init_flags ["next"] sample.fresh =
    (Err (Rejected "invalid release version: Invalid Semantic Version"), sample.fresh) ∧
  (buildReleaseInitCommand sample.init_flags ["v1.21"] sample.fresh).1 = Ok tt ∧
  disk (buildReleaseInitCommand sample.init_flags ["v1.21"] sample.fresh).2 =
    disk sample.initialized ∧
  (buildGenerateReleaseCommand sample.generate_flags ["v1.21"] sample.initialized).1 =
    Ok tt.
Proof. repeat split; run. Qed.

End more_runs.
